(** * btcutil/amount.go: monetary amounts counted in Hao

    A shallow embedding of [amount.go] and of the pieces of the Go
    runtime and standard library it calls ([float64] arithmetic, integer
    and float conversions, [math.IsNaN], [math.IsInf], [math.Pow10],
    [strconv.FormatInt], [strconv.FormatFloat]); then the properties of
    [AmountUnit] and [Amount] proved over it.

    Go's [float64] is IEEE 754 binary64.  It is modelled by the
    axiom-free specification of binary floating point of the standard
    library, [SpecFloat], at precision 53 and maximal exponent 1024:
    every operation rounds to nearest, ties to even, as Go's do.  Go's
    [int] is taken as 64 bits wide (as on amd64 and arm64) and products
    and sums are not fused.  A call that can panic returns an [option],
    [None] being the panic: [strconv.FormatFloat], which makes a buffer
    the runtime may refuse, and [Format], which calls it. *)

From Stdlib Require Import ZArith Lia Bool List String Ascii.
From Stdlib Require Import QArith Qround Qabs Qpower Lqa.
From Stdlib Require Import DecimalString DecimalZ DecimalPos.
From Stdlib Require Import Floats.SpecFloat.
Import ListNotations.

Close Scope Q_scope.

Local Open Scope Z_scope.

(** ** Machine integers *)

Module Int64.

Definition min_int := - 2 ^ 63.
Definition max_int := 2 ^ 63 - 1.

Definition in_range (z : Z) : bool := (min_int <=? z) && (z <=? max_int).

(** Two's complement wrap-around of [int] and [int64] arithmetic. *)
Definition wrap (z : Z) : Z := (z + 2 ^ 63) mod 2 ^ 64 - 2 ^ 63.

Definition add (x y : Z) : Z := wrap (x + y).
Definition neg (x : Z) : Z := wrap (- x).

End Int64.

(** ** float64 *)

Module Float64.

Definition prec := 53.
Definition emax := 1024.

Definition float64 := spec_float.

Definition valid (f : float64) : bool := valid_binary prec emax f.

Definition add : float64 -> float64 -> float64 := SFadd prec emax.
Definition sub : float64 -> float64 -> float64 := SFsub prec emax.
Definition mul : float64 -> float64 -> float64 := SFmul prec emax.
Definition div : float64 -> float64 -> float64 := SFdiv prec emax.
Definition ltb : float64 -> float64 -> bool := SFltb.
Definition eqb : float64 -> float64 -> bool := SFeqb.

Definition zero : float64 := S754_zero false.
Definition Inf : float64 := S754_infinity false.

(** The conversion [float64(n)] of an integer: [n] rounded to the
    nearest float64, ties to even. *)
Definition of_int (n : Z) : float64 := binary_normalize prec emax n 0 false.

(** A constant of the source text: the rational [n / d] rounded to the
    nearest float64, ties to even (constants are exact until they are
    given a type). *)
Definition of_ratio (n : Z) (d : positive) : float64 :=
  match n with
  | Z0 => S754_zero false
  | Zpos p =>
      let '(m, e, l) := SFdiv_core_binary prec emax (Zpos p) 0 (Zpos d) 0 in
      binary_round_aux prec emax false m e l
  | Zneg p =>
      let '(m, e, l) := SFdiv_core_binary prec emax (Zpos p) 0 (Zpos d) 0 in
      binary_round_aux prec emax true m e l
  end.

(** The constant [1e<k>]. *)
Definition const_1e (k : Z) : float64 :=
  if 0 <=? k then of_ratio (10 ^ k) 1 else of_ratio 1 (Z.to_pos (10 ^ (- k))).

Definition half : float64 := of_ratio 1 2.

(** The integer part of a float, fraction discarded; [None] for the
    infinities and NaN. *)
Definition trunc (f : float64) : option Z :=
  match f with
  | S754_zero _ => Some 0
  | S754_finite s m e => Some (cond_Zopp s (Z.shiftl (Zpos m) e))
  | S754_infinity _ | S754_nan => None
  end.

(** The conversion [int64(f)]: the fraction is discarded.  When int64
    cannot represent the value the conversion succeeds with a result
    that depends on the implementation, [unrepresentable f]. *)
Definition to_int64 (unrepresentable : float64 -> Z) (f : float64) : Z :=
  match trunc f with
  | Some z => if Int64.in_range z then z else unrepresentable f
  | None => unrepresentable f
  end.

(** What amd64 gives for a float that int64 cannot represent: the
    "integer indefinite" value. *)
Definition amd64_unrepresentable (f : float64) : Z := Int64.min_int.

(** What arm64 gives: NaN is 0, the rest saturates. *)
Definition arm64_unrepresentable (f : float64) : Z :=
  match f with
  | S754_nan | S754_zero _ => 0
  | S754_infinity s | S754_finite s _ _ =>
      if s then Int64.min_int else Int64.max_int
  end.

(** *** For specifications: classes and exact values *)

Definition is_finite (f : float64) : bool :=
  match f with
  | S754_zero _ | S754_finite _ _ _ => true
  | S754_infinity _ | S754_nan => false
  end.

(** Below zero: what [f < 0] decides. *)
Definition negative (f : float64) : bool :=
  match f with
  | S754_infinity true | S754_finite true _ _ => true
  | _ => false
  end.

(** Zero (of either sign) or above: NaN is neither negative nor this. *)
Definition nonnegative (f : float64) : bool :=
  match f with
  | S754_zero _ => true
  | S754_infinity s | S754_finite s _ _ => negb s
  | S754_nan => false
  end.

Definition pow2 (e : Z) : Q := (2 ^ e)%Q.

(** The rational number a finite float stands for (0 for the others). *)
Definition to_Q (f : float64) : Q :=
  match f with
  | S754_finite s m e =>
      (if s then - (inject_Z (Zpos m) * pow2 e) else inject_Z (Zpos m) * pow2 e)%Q
  | _ => 0%Q
  end.

(** Truncation of a rational towards zero. *)
Definition Qtruncate (q : Q) : Z :=
  if Qle_bool 0 q then Qfloor q else Qceiling q.

End Float64.

Import Float64.

(** ** package math *)

Module math.

(** [MaxFloat64 = 0x1p1023 * (1 + (1 - 0x1p-52))] *)
Definition MaxFloat64 : float64 := S754_finite false (2 ^ 53 - 1) 971.

(** [func IsNaN(f float64) (is bool) { return f != f }] *)
Definition IsNaN (f : float64) : bool := negb (Float64.eqb f f).

(** [func IsInf(f float64, sign int) bool {
       return sign >= 0 && f > MaxFloat64 || sign <= 0 && f < -MaxFloat64 }] *)
Definition IsInf (f : float64) (sign : Z) : bool :=
  (0 <=? sign) && Float64.ltb MaxFloat64 f
  || (sign <=? 0) && Float64.ltb f (SFopp MaxFloat64).

(** [pow10tab] stores the constants [1e00 .. 1e31]. *)
Definition pow10tab (i : Z) : float64 := const_1e i.

(** [pow10postab32] stores the constants [1e00, 1e32, .. 1e288]. *)
Definition pow10postab32 (i : Z) : float64 := const_1e (32 * i).

(** [pow10negtab32] stores the constants [1e-00, 1e-32, .. 1e-320]. *)
Definition pow10negtab32 (i : Z) : float64 := const_1e (- (32 * i)).

(** [func Pow10(n int) float64]: a product or quotient of two table
    entries; [+Inf] above 308 and [0] below -323. *)
Definition Pow10 (n : Z) : float64 :=
  if (0 <=? n) && (n <=? 308) then
    Float64.mul (pow10postab32 (n / 32)) (pow10tab (n mod 32))
  else if (-323 <=? n) && (n <=? 0) then
    Float64.div (pow10negtab32 ((- n) / 32)) (pow10tab ((- n) mod 32))
  else if 0 <? n then Float64.Inf
  else Float64.zero.

End math.

(** ** package strconv *)

Module strconv.

(** [FormatInt(i, 10)]: the decimal numeral of [i], with a leading
    minus sign when [i] is negative. *)
Definition FormatInt (i : Z) : string := NilZero.string_of_int (Z.to_int i).

(** *** Multi-precision decimal numbers ([decimal.go])

    [d] holds the digits, most significant first, and [dp] the place of
    the decimal point: the value is [0.d1 d2 .. dn * 10^dp].  The source
    keeps [nd], the number of digits, next to a fixed array; here it is
    the length of the list.  The field [trunc] marks digits lost beyond
    the 800th; a float64 has at most 767, so it is never set. *)
Record decimal := mkdecimal { d : list Z; dp : Z }.

Definition nd (a : decimal) : Z := Z.of_nat (List.length (d a)).

(** The digit at index [i], from 0. *)
Definition digit (a : decimal) (i : Z) : Z := nth (Z.to_nat i) (d a) 0.

Fixpoint uint_digits (u : Decimal.uint) : list Z :=
  match u with
  | Decimal.Nil => []
  | Decimal.D0 u => 0 :: uint_digits u
  | Decimal.D1 u => 1 :: uint_digits u
  | Decimal.D2 u => 2 :: uint_digits u
  | Decimal.D3 u => 3 :: uint_digits u
  | Decimal.D4 u => 4 :: uint_digits u
  | Decimal.D5 u => 5 :: uint_digits u
  | Decimal.D6 u => 6 :: uint_digits u
  | Decimal.D7 u => 7 :: uint_digits u
  | Decimal.D8 u => 8 :: uint_digits u
  | Decimal.D9 u => 9 :: uint_digits u
  end.

Fixpoint drop_zeros (l : list Z) : list Z :=
  match l with
  | 0 :: l' => drop_zeros l'
  | _ => l
  end.

(** [trim]: trailing zeros are dropped, and a number without digits
    has its point at 0. *)
Definition trim (a : decimal) : decimal :=
  let ds := rev (drop_zeros (rev (d a))) in
  mkdecimal ds (match ds with [] => 0 | _ => dp a end).

(** [Assign(v)]: the decimal digits of the integer [v]. *)
Definition Assign (v : Z) : decimal :=
  match v with
  | Zpos p => let ds := uint_digits (Pos.to_uint p) in
              trim (mkdecimal ds (Z.of_nat (List.length ds)))
  | _ => mkdecimal [] 0
  end.

(** [Assign(mant)] followed by [Shift(k)]: the number [mant * 2^k],
    which has a finite decimal expansion.  The source shifts digit by
    digit in steps of at most 60 bits; the result is the expansion of
    the exact product. *)
Definition AssignShift (mant k : Z) : decimal :=
  if 0 <=? k then Assign (mant * 2 ^ k)
  else
    let a := Assign (mant * 5 ^ (- k)) in
    match d a with
    | [] => a
    | _ => mkdecimal (d a) (dp a + k)
    end.

(** [shouldRoundUp(a, nd)]: when [a] is cut after [n] digits, is it
    rounded up?  Exactly half way goes to the even digit. *)
Definition shouldRoundUp (a : decimal) (n : Z) : bool :=
  if (n <? 0) || (nd a <=? n) then false
  else if (digit a n =? 5) && (n + 1 =? nd a) then
    (0 <? n) && negb (digit a (n - 1) mod 2 =? 0)
  else 5 <=? digit a n.

(** [RoundDown(nd)] *)
Definition RoundDown (a : decimal) (n : Z) : decimal :=
  if (n <? 0) || (nd a <=? n) then a
  else trim (mkdecimal (firstn (Z.to_nat n) (d a)) (dp a)).

(** The loop of [RoundUp], on the digits kept, last digit first: the
    last digit below 9 is incremented and the 9s after it dropped. *)
Fixpoint incr_last (r : list Z) : option (list Z) :=
  match r with
  | [] => None
  | c :: r' => if c <? 9 then Some (c + 1 :: r') else incr_last r'
  end.

(** [RoundUp(nd)] *)
Definition RoundUp (a : decimal) (n : Z) : decimal :=
  if (n <? 0) || (nd a <=? n) then a
  else
    match incr_last (rev (firstn (Z.to_nat n) (d a))) with
    | Some r => mkdecimal (rev r) (dp a)
    | None => mkdecimal [1] (dp a + 1)
    end.

(** [Round(nd)] *)
Definition Round (a : decimal) (n : Z) : decimal :=
  if (n <? 0) || (nd a <=? n) then a
  else if shouldRoundUp a n then RoundUp a n else RoundDown a n.

(** *** Shortest decimal that reads back as the same float ([ftoa.go])

    [mant] and [exp] are those of [FormatFloat]: the float is
    [mant * 2^(exp - 52)]; [lower] and [upper] are half way to the
    neighbouring floats.  [roundShortest_loop] is the for loop over
    [ui]; [fuel] is the number of rounds after which [mi >= d.nd] ends
    it. *)
Fixpoint roundShortest_loop (fuel : nat) (a lower upper : decimal)
    (inclusive : bool) (upperdelta ui : Z) : decimal :=
  match fuel with
  | O => a
  | S fuel' =>
      let mi := ui - dp upper + dp a in
      if nd a <=? mi then a
      else
        let li := ui - dp upper + dp lower in
        let l := if (0 <=? li) && (li <? nd lower) then digit lower li else 0 in
        let m := if 0 <=? mi then digit a mi else 0 in
        let u := if ui <? nd upper then digit upper ui else 0 in
        let okdown := negb (l =? m) || inclusive && (li + 1 =? nd lower) in
        let upperdelta :=
          if (upperdelta =? 0) && (m + 1 <? u) then 2
          else if (upperdelta =? 0) && negb (m =? u) then 1
          else if (upperdelta =? 1) && (negb (m =? 9) || negb (u =? 0)) then 2
          else upperdelta in
        let okup :=
          (0 <? upperdelta)
          && (inclusive || (1 <? upperdelta) || (ui + 1 <? nd upper)) in
        if okdown && okup then Round a (mi + 1)
        else if okdown then RoundDown a (mi + 1)
        else if okup then RoundUp a (mi + 1)
        else roundShortest_loop fuel' a lower upper inclusive upperdelta (ui + 1)
  end.

Definition mantbits := 52.
Definition bias := -1023.

(** [roundShortest(d, mant, exp, flt)] *)
Definition roundShortest (a : decimal) (mant exp : Z) : decimal :=
  if mant =? 0 then mkdecimal [] (dp a)
  else
    let minexp := bias + 1 in
    if (minexp <? exp) && (100 * (exp - mantbits) <=? 332 * (dp a - nd a))
    then a
    else
      let upper := AssignShift (mant * 2 + 1) (exp - mantbits - 1) in
      let '(mantlo, explo) :=
        if (2 ^ mantbits <? mant) || (exp =? minexp) then (mant - 1, exp)
        else (mant * 2 - 1, exp - 1) in
      let lower := AssignShift (mantlo * 2 + 1) (explo - mantbits - 1) in
      let inclusive := mant mod 2 =? 0 in
      roundShortest_loop (Z.to_nat (nd a + dp upper - dp a) + 1)
        a lower upper inclusive 0 0.

(** *** Layout *)

Definition digit_char (c : Z) : ascii := ascii_of_nat (48 + Z.to_nat c).

Definition digits_string (l : list Z) : string :=
  string_of_list_ascii (map digit_char l).

Definition zeros (n : Z) : list Z := repeat 0 (Z.to_nat n).

(** [fmtF(dst, neg, d, prec)], the layout [-ddddddd.ddddd] *)
Definition fmtF (neg : bool) (a : decimal) (prec : Z) : string :=
  let sign := if neg then "-"%string else EmptyString in
  let integer :=
    if 0 <? dp a then
      let m := Z.min (nd a) (dp a) in
      digits_string (firstn (Z.to_nat m) (d a) ++ zeros (dp a - m))
    else "0"%string in
  let fraction :=
    if 0 <? prec then
      String "."
        (digits_string
           (map (fun i => let j := dp a + Z.of_nat i in
                          if (0 <=? j) && (j <? nd a) then digit a j else 0)
                (seq 0 (Z.to_nat prec))))
    else EmptyString in
  append sign (append integer fraction).

(** [genericFtoa(dst, f, 'f', prec, 64)] on an empty [dst]: the text
    written.  A negative [prec] asks for the fewest digits that identify
    [f]; the source computes them with the Ryu algorithm, which gives
    the digits of [roundShortest]. *)
Definition genericFtoa_f (f : float64) (prec : Z) : string :=
  match f with
  | S754_nan => "NaN"%string
  | S754_infinity true => "-Inf"%string
  | S754_infinity false => "+Inf"%string
  | S754_zero neg =>
      fmtF neg (mkdecimal [] 0) (if prec <? 0 then 0 else prec)
  | S754_finite neg m e =>
      let mant := Zpos m in
      let exp := e + mantbits in
      let a := AssignShift mant (exp - mantbits) in
      if prec <? 0 then
        let a := roundShortest a mant exp in
        fmtF neg a (Z.max (nd a - dp a) 0)
      else fmtF neg (Round a (dp a + prec)) prec
  end.

(** [maxAlloc] of the runtime ([runtime/malloc.go]): the largest size
    of one allocation, [1 << 48] bytes on amd64 and arm64. *)
Definition maxAlloc : Z := 2 ^ 48.

(** [make([]byte, 0, n)] panics ("makeslice: cap out of range") when
    [n] is negative or above [maxAlloc]. *)
Definition makeslice_ok (n : Z) : bool := (0 <=? n) && (n <=? maxAlloc).

(** [func FormatFloat(f float64, fmt byte, prec, bitSize int) string {
       return string(genericFtoa(make([]byte, 0, max(prec+4, 24)),
                                 f, fmt, prec, bitSize)) }]
    for [fmt = 'f'] and [bitSize = 64].  The buffer is made before [f]
    is looked at, and [prec + 4] is an [int] sum, which wraps around;
    [None] is the panic of [make].  A buffer the runtime accepts is
    taken to be granted: a run that stops for lack of memory is not
    modelled. *)
Definition FormatFloat_f (f : float64) (prec : Z) : option string :=
  if makeslice_ok (Z.max (Int64.add prec 4) 24)
  then Some (genericFtoa_f f prec)
  else None.

End strconv.

(** ** amount.go *)

(** Modelled from the spec: the constant [HaoPerBitcoin] is declared in
    another file of the package; the spec gives the number of smallest
    units per coin as 10^8.  Used as a float64 it is the constant [1e8]. *)
Definition HaoPerBitcoin : float64 := const_1e 8.

(** [type AmountUnit int] *)
Definition AmountUnit := Z.

Definition AmountMegaOMC : AmountUnit := 6.
Definition AmountKiloOMC : AmountUnit := 3.
Definition AmountOMC : AmountUnit := 0.
Definition AmountMilliOMC : AmountUnit := -3.
Definition AmountMicroOMC : AmountUnit := -6.
Definition AmountHao : AmountUnit := -8.

(** [func (u AmountUnit) String() string] *)
Definition AmountUnit_String (u : AmountUnit) : string :=
  if u =? AmountMegaOMC then "MOMC"%string
  else if u =? AmountKiloOMC then "kOMC"%string
  else if u =? AmountOMC then "OMC"%string
  else if u =? AmountMilliOMC then "mOMC"%string
  else if u =? AmountMicroOMC then "μOMC"%string
  else if u =? AmountHao then "Hao"%string
  else append "1e" (append (strconv.FormatInt u) " OMC").

(** [type Amount int64] *)
Definition Amount := Z.

(** Go's [error]; [None] is [nil]. *)
Definition error := option string.

Definition errors_New (text : string) : error := Some text.

(** [func (a Amount) ToUnit(u AmountUnit) float64] *)
Definition ToUnit (a : Amount) (u : AmountUnit) : float64 :=
  Float64.div (Float64.of_int a) (math.Pow10 (Int64.add u 8)).

(** [func (a Amount) ToOMC() float64] *)
Definition ToOMC (a : Amount) : float64 := ToUnit a AmountOMC.

(** [func (a Amount) Format(u AmountUnit) string]; [None] when
    [FormatFloat] panics. *)
Definition Format (a : Amount) (u : AmountUnit) : option string :=
  let units := append " " (AmountUnit_String u) in
  match strconv.FormatFloat_f (ToUnit a u) (Int64.neg (Int64.add u 8)) with
  | Some number => Some (append number units)
  | None => None
  end.

(** [func (a Amount) String() string] *)
Definition Amount_String (a : Amount) : option string := Format a AmountOMC.

Section Conversion.

(** The result of [int64(f)] for a float that int64 cannot represent,
    which the language leaves to the implementation. *)
Variable unrepresentable : float64 -> Z.

(** [func round(f float64) Amount] *)
Definition round (f : float64) : Amount :=
  if Float64.ltb f Float64.zero
  then Float64.to_int64 unrepresentable (Float64.sub f Float64.half)
  else Float64.to_int64 unrepresentable (Float64.add f Float64.half).

(** [func NewAmount(f float64, tokentype uint64) (Amount, error)] *)
Definition NewAmount (f : float64) (tokentype : Z) : Amount * error :=
  if math.IsNaN f || math.IsInf f 1 || math.IsInf f (-1)
  then (0, errors_New "invalid bitcoin amount")
  else if tokentype =? 0 then (round (Float64.mul f HaoPerBitcoin), None)
  else (round f, None).

(** [func (a Amount) MulF64(f float64) Amount] *)
Definition MulF64 (a : Amount) (f : float64) : Amount :=
  round (Float64.mul (Float64.of_int a) f).

End Conversion.

(** ** Vocabulary of the specifications *)

(** The integer a decimal numeral denotes. *)
Definition read_decimal (s : string) : option Z :=
  option_map Z.of_int (NilZero.int_of_string s).

(** The number at the head of a formatted amount: what precedes the
    first space. *)
Fixpoint number_part (s : string) : string :=
  match s with
  | EmptyString => EmptyString
  | String c s' => if Ascii.eqb c " " then EmptyString else String c (number_part s')
  end.

(** What follows the first decimal point, if there is one. *)
Fixpoint after_point (s : string) : option string :=
  match s with
  | EmptyString => None
  | String c s' => if Ascii.eqb c "." then Some s' else after_point s'
  end.

(** How many characters the number of a formatted amount has after its
    decimal point. *)
Definition fraction_digits (s : string) : Z :=
  match after_point (number_part s) with
  | Some t => Z.of_nat (String.length t)
  | None => 0
  end.

Definition is_digit (c : ascii) : bool :=
  (48 <=? nat_of_ascii c)%nat && (nat_of_ascii c <=? 57)%nat.

Fixpoint all_digits (s : string) : bool :=
  match s with
  | EmptyString => true
  | String c s' => is_digit c && all_digits s'
  end.

(** Digits are 0 to 9. *)
Definition digits_ok (l : list Z) : Prop := Forall (fun c => 0 <= c <= 9) l.

(** Neither a space nor a decimal point. *)
Definition plain (c : ascii) : bool :=
  negb (Ascii.eqb c " ") && negb (Ascii.eqb c ".").

Fixpoint all_plain (s : string) : bool :=
  match s with
  | EmptyString => true
  | String c s' => plain c && all_plain s'
  end.

(** The integer part and the fraction part [strconv.fmtF] writes. *)
Definition integer_part (a : strconv.decimal) : string :=
  if 0 <? strconv.dp a then
    let m := Z.min (strconv.nd a) (strconv.dp a) in
    strconv.digits_string
      (firstn (Z.to_nat m) (strconv.d a) ++ strconv.zeros (strconv.dp a - m))
  else "0"%string.

Definition fraction_part (a : strconv.decimal) (prec : Z) : string :=
  strconv.digits_string
    (map (fun i => let j := strconv.dp a + Z.of_nat i in
                   if (0 <=? j) && (j <? strconv.nd a) then strconv.digit a j
                   else 0)
         (seq 0 (Z.to_nat prec))).

(** The decimal [strconv.genericFtoa_f] lays out when the precision is
    not negative. *)
Definition fixed_decimal (m : positive) (e prec : Z) : strconv.decimal :=
  let a := strconv.AssignShift (Zpos m) e in
  strconv.Round a (strconv.dp a + prec).

(** *** Rounding

    Where a number [m + r/d] (with [0 <= r < d]) lies between [m] and
    [m + 1]. *)
Definition loc_of (r d : Z) : location :=
  if r =? 0 then loc_Exact else loc_Inexact (2 * r ?= d).

(** The number of bits [shr_fexp] drops from a mantissa [m] at
    exponent [e]. *)
Definition shift_of (m e : Z) : Z := Z.max 0 (fexp prec emax (Zdigits2 m + e) - e).

(** The magnitude [(m + r/d) * 2^e], given by its product with [d]. *)
Definition is_magnitude (x : Q) (m r d e : Z) : Prop :=
  (x * inject_Z d == inject_Z (d * m + r) * pow2 e)%Q.

(** [rounds_to R s x e1]: the float [R] has sign [s] and a magnitude [v]
    on the grid of step [2^e1] that is within half a step of [x]. *)
Definition rounds_to (R : float64) (s : bool) (x : Q) (e1 : Z) : Prop :=
  exists v : Q,
    (- pow2 (e1 - 1) <= v - x)%Q /\ (v - x <= pow2 (e1 - 1))%Q
    /\ (exists k : Z, 0 <= k /\ (v == inject_Z k * pow2 e1)%Q)
    /\ (((v == 0)%Q /\ R = S754_zero s)
        \/ (exists (m3 : positive) (e3 : Z),
              R = S754_finite s m3 e3 /\ e1 <= e3 <= e1 + 1
              /\ (v == inject_Z (Zpos m3) * pow2 e3)%Q)).

(** The mantissa, exponent and position [SFdiv_core_binary] hands to the
    rounding. *)
Definition div_exponent (mx my : positive) (ex ey : Z) : Z :=
  Z.min (fexp prec emax (Zdigits2 (Z.pos mx) + ex - (Zdigits2 (Z.pos my) + ey)))
    (ex - ey).

Definition div_numerator (mx my : positive) (ex ey : Z) : Z :=
  Z.pos mx * 2 ^ (ex - ey - div_exponent mx my ex ey).


(** [check_range n lo f]: [f] holds on the [n] integers from [lo]. *)
Fixpoint check_range (n : nat) (lo : Z) (f : Z -> bool) : bool :=
  match n with
  | O => true
  | S n' => f lo && check_range n' (lo + 1) f
  end.

(** *** Further vocabulary *)

(** The mantissa fits in 53 bits and the exponent is in range: what
    every result of an operation satisfies. *)
Definition fits (f : float64) : Prop :=
  match f with
  | S754_finite _ m e => Z.pos m < 2 ^ 53 /\ -1074 <= e <= 971
  | _ => True
  end.

(** The integer nearest to [q], ties away from zero. *)
Definition round_half_away (q : Q) : Z :=
  if Qle_bool 0 q then Qfloor (q + (1 # 2)) else Qceiling (q - (1 # 2)).

(** The float64 just below one half, [0.49999999999999994]. *)
Definition pred_half : float64 := S754_finite false (2 ^ 53 - 1) (-54).

(** The power of ten [10^n], as a rational. *)
Definition pow10 (n : Z) : Q := (10 ^ n)%Q.

(** The quotient [a / 10^n], as a rational. *)
Definition exact_quotient (a n : Z) : Q := (inject_Z a / pow10 n)%Q.

(** A positive finite float within [2^-51] (relative) of [10^n]: with
    [10^n] as [N / D] and the float as [M / E], whether
    [2^51 * |M * D - E * N| <= E * N]. *)
Definition close_to_pow10 (n : Z) (f : float64) : bool :=
  match f with
  | S754_finite false m e =>
      let N := 10 ^ Z.max n 0 in
      let D := 10 ^ Z.max (- n) 0 in
      let M := 2 ^ Z.max e 0 * Z.pos m in
      let E := 2 ^ Z.max (- e) 0 in
      2 ^ 51 * Z.abs (M * D - E * N) <=? E * N
  | _ => false
  end.

(** A positive finite float that is at most [q]. *)
Definition at_most (q : Q) (f : float64) : bool :=
  match f with
  | S754_finite false m e => Qle_bool (inject_Z (Z.pos m) * pow2 e) q
  | _ => false
  end.

(** What [genericFtoa] writes for the quotient of the amount [a] by
    zero: NaN for the zero amount, an infinity otherwise. *)
Definition not_a_quotient (a : Z) : string :=
  if a =? 0 then "NaN" else if a <? 0 then "-Inf" else "+Inf".

(** A numeral made of zeros only. *)
Fixpoint all_zero (u : Decimal.uint) : bool :=
  match u with
  | Decimal.Nil => true
  | Decimal.D0 u => all_zero u
  | _ => false
  end.

(** * Facts about float64 *)

Section Digits.

Lemma digits2_pos_lt (m : positive) : Zpos m < 2 ^ Zpos (digits2_pos m).
Proof.
  induction m as [m IH|m IH|]; cbn [digits2_pos];
    rewrite ?Pos2Z.inj_succ, ?Z.pow_succ_r by lia; lia.
Qed.

Lemma digits2_pos_ge (m : positive) : 2 ^ (Zpos (digits2_pos m) - 1) <= Zpos m.
Proof.
  induction m as [m IH|m IH|]; cbn [digits2_pos]; [| |reflexivity];
    rewrite Pos2Z.inj_succ;
    replace (Z.succ (Zpos (digits2_pos m)) - 1)
      with (Z.succ (Zpos (digits2_pos m) - 1)) by lia;
    rewrite Z.pow_succ_r by lia; lia.
Qed.

End Digits.

Lemma Zdigits2_nonneg (m : Z) : 0 <= Zdigits2 m.
Proof. destruct m; cbn; lia. Qed.

Lemma Zdigits2_bounds (m : Z) :
  0 < m -> 2 ^ (Zdigits2 m - 1) <= m < 2 ^ Zdigits2 m.
Proof.
  destruct m as [|p|p]; try lia. intros _. cbn [Zdigits2].
  split; [apply digits2_pos_ge|apply digits2_pos_lt].
Qed.

Lemma Zdigits2_le (m k : Z) : 0 <= k -> 0 <= m < 2 ^ k -> Zdigits2 m <= k.
Proof.
  intros Hk Hm. destruct (Z.eq_dec m 0) as [->|Hne]; [cbn; lia|].
  pose proof (Zdigits2_bounds m ltac:(lia)) as [Hl _].
  destruct (Z.le_gt_cases (Zdigits2 m) k) as [|Hgt]; [assumption|exfalso].
  assert (2 ^ k <= 2 ^ (Zdigits2 m - 1)) by (apply Z.pow_le_mono_r; lia).
  lia.
Qed.

Lemma Zdigits2_ge (m k : Z) : 2 ^ (k - 1) <= m -> k <= Zdigits2 m.
Proof.
  intros Hm.
  assert (0 < 2 ^ (k - 1) \/ k - 1 < 0) as [Hp|Hn].
  { destruct (Z.le_gt_cases 0 (k - 1)); [left; apply Z.pow_pos_nonneg; lia|right; lia]. }
  - pose proof (Zdigits2_bounds m ltac:(lia)) as [_ Hu].
    destruct (Z.le_gt_cases k (Zdigits2 m)) as [|Hgt]; [assumption|exfalso].
    assert (2 ^ Zdigits2 m <= 2 ^ (k - 1)) by (apply Z.pow_le_mono_r; lia).
    lia.
  - pose proof (Zdigits2_nonneg m). lia.
Qed.

Lemma Zdigits2_mul_pow2 (m k : Z) :
  0 < m -> 0 <= k -> Zdigits2 (m * 2 ^ k) = Zdigits2 m + k.
Proof.
  intros Hm Hk.
  pose proof (Zdigits2_bounds m Hm) as [Hl Hu].
  assert (HP : 0 < 2 ^ k) by (apply Z.pow_pos_nonneg; lia).
  assert (Hd : 0 < Zdigits2 m) by (destruct m; cbn in *; lia).
  apply Z.le_antisymm.
  - apply Zdigits2_le; [lia|]. rewrite Z.pow_add_r by lia. nia.
  - apply Zdigits2_ge.
    replace (Zdigits2 m + k - 1) with (Zdigits2 m - 1 + k) by lia.
    rewrite Z.pow_add_r by lia. nia.
Qed.

Lemma valid_finite_bounds s m e :
  valid (S754_finite s m e) = true -> e <= 971 /\ (e = 971 -> Zpos m <= 2 ^ 53 - 1).
Proof.
  unfold valid, valid_binary, bounded, canonical_mantissa, fexp, emin, prec, emax.
  intros H. apply andb_true_iff in H. destruct H as [Hc He].
  apply Z.eqb_eq in Hc. apply Z.leb_le in He. split; [lia|].
  intros ->. assert (Zpos (digits2_pos m) <= 53) by lia.
  pose proof (digits2_pos_lt m).
  assert (2 ^ Zpos (digits2_pos m) <= 2 ^ 53) by (apply Z.pow_le_mono_r; lia).
  lia.
Qed.

Lemma ltb_MaxFloat64_finite s m e :
  valid (S754_finite s m e) = true ->
  Float64.ltb math.MaxFloat64 (S754_finite s m e) = false.
Proof.
  intros H. apply valid_finite_bounds in H. destruct H as [He Hm].
  unfold Float64.ltb, SFltb, math.MaxFloat64, SFcompare.
  destruct s; [reflexivity|].
  destruct (Z.compare_spec 971 e) as [Heq|Hlt|Hgt]; try reflexivity; try lia.
  rewrite Pos.compare_cont_spec. cbn [Pos.switch_Eq].
  destruct (Pos.compare_spec (2 ^ 53 - 1) m) as [Hq|Hl|Hg]; try reflexivity.
  symmetry in Heq. specialize (Hm Heq). lia.
Qed.

Lemma ltb_finite_opp_MaxFloat64 s m e :
  valid (S754_finite s m e) = true ->
  Float64.ltb (S754_finite s m e) (SFopp math.MaxFloat64) = false.
Proof.
  intros H. apply valid_finite_bounds in H. destruct H as [He Hm].
  unfold Float64.ltb, SFltb, math.MaxFloat64, SFopp, SFcompare. cbn [negb].
  destruct s; [|reflexivity].
  destruct (Z.compare_spec e 971) as [Heq|Hlt|Hgt]; try reflexivity; try lia.
  rewrite Pos.compare_cont_spec. cbn [Pos.switch_Eq].
  destruct (Pos.compare_spec m (2 ^ 53 - 1)) as [Hq|Hl|Hg]; try reflexivity.
  specialize (Hm Heq). lia.
Qed.

Lemma IsNaN_spec (f : float64) : math.IsNaN f = true <-> f = S754_nan.
Proof.
  unfold math.IsNaN, Float64.eqb, SFeqb, SFcompare.
  destruct f as [s|s| |s m e].
  - split; discriminate.
  - destruct s; split; discriminate.
  - split; reflexivity.
  - rewrite Z.compare_refl, Pos.compare_cont_refl.
    destruct s; split; discriminate.
Qed.

Lemma IsInf_finite (f : float64) (sign : Z) :
  valid f = true -> is_finite f = true -> math.IsInf f sign = false.
Proof.
  intros Hv Hf. destruct f as [s|s| |s m e]; try discriminate.
  - unfold math.IsInf. cbn. now rewrite !andb_false_r.
  - unfold math.IsInf.
    rewrite ltb_MaxFloat64_finite, ltb_finite_opp_MaxFloat64 by assumption.
    now rewrite !andb_false_r.
Qed.

Lemma IsInf_pos_spec (f : float64) :
  valid f = true -> (math.IsInf f 1 = true <-> f = S754_infinity false).
Proof.
  intros Hv. destruct f as [s|s| |s m e].
  - rewrite IsInf_finite by easy. split; discriminate.
  - destruct s; cbn; split; congruence.
  - cbn. split; discriminate.
  - rewrite IsInf_finite by easy. split; discriminate.
Qed.

Lemma IsInf_neg_spec (f : float64) :
  valid f = true -> (math.IsInf f (-1) = true <-> f = S754_infinity true).
Proof.
  intros Hv. destruct f as [s|s| |s m e].
  - rewrite IsInf_finite by easy. split; discriminate.
  - destruct s; cbn; split; congruence.
  - cbn. split; discriminate.
  - rewrite IsInf_finite by easy. split; discriminate.
Qed.

Lemma IsInf_small_exponent (s : bool) (m : positive) (e sign : Z) :
  e < 971 -> math.IsInf (S754_finite s m e) sign = false.
Proof.
  intros He. unfold math.IsInf, Float64.ltb, SFltb, math.MaxFloat64, SFopp, SFcompare.
  cbn [negb]. destruct s.
  - rewrite (proj2 (Z.compare_lt_iff e 971) He). now rewrite !andb_false_r.
  - rewrite (proj2 (Z.compare_gt_iff 971 e) He). now rewrite !andb_false_r.
Qed.

Lemma ltb_zero_negative (f : float64) : Float64.ltb f Float64.zero = negative f.
Proof. destruct f as [s|[] | |[] m e]; reflexivity. Qed.

Lemma negative_nonnegative (f : float64) :
  nonnegative f = true -> negative f = false.
Proof. destruct f as [s|[] | |[] m e]; cbn; congruence. Qed.

Lemma is_finite_opp (g : float64) : is_finite (SFopp g) = is_finite g.
Proof. now destruct g. Qed.

(** ** Exact values *)

Lemma pow2_pos (e : Z) : (0 < pow2 e)%Q.
Proof. apply Qpower_0_lt. reflexivity. Qed.

Lemma pow2_add (a b : Z) : (pow2 (a + b) == pow2 a * pow2 b)%Q.
Proof. apply Qpower_plus. discriminate. Qed.

Lemma pow2_nonneg_Z (e : Z) : 0 <= e -> (pow2 e == inject_Z (2 ^ e))%Q.
Proof. intros H. unfold pow2. now rewrite Zpower_Qpower. Qed.

Lemma pow2_opp (e : Z) : (pow2 (- e) == / pow2 e)%Q.
Proof. apply Qpower_opp. Qed.

Lemma pow2_le (a b : Z) : a <= b -> (pow2 a <= pow2 b)%Q.
Proof. intros H. apply Qpower_le_compat_l; [assumption|discriminate]. Qed.

Lemma pow2_lt (a b : Z) : a < b -> (pow2 a < pow2 b)%Q.
Proof. intros H. apply Qpower_lt_compat_l; [assumption|reflexivity]. Qed.

Lemma pow2_lt_inv (a b : Z) : (pow2 a < pow2 b)%Q -> a < b.
Proof. intros H. apply (Qpower_lt_compat_l_inv 2); [assumption|reflexivity]. Qed.

Lemma pow2_pred (a : Z) : (pow2 (a - 1) == pow2 a * (1 # 2))%Q.
Proof. unfold Z.sub. rewrite pow2_add. reflexivity. Qed.

Lemma pow2_succ (a : Z) : (pow2 (a + 1) == pow2 a * 2)%Q.
Proof. rewrite pow2_add. reflexivity. Qed.

Lemma Qmult_lt_pow2_cancel (a b : Q) (e : Z) :
  (a * pow2 e < b * pow2 e)%Q -> (a < b)%Q.
Proof. intros H. now apply (Qmult_lt_r _ _ (pow2 e) (pow2_pos e)). Qed.

Lemma Qabs_Zabs_le (a b : Z) :
  Z.abs a <= b -> (- inject_Z b <= inject_Z a)%Q /\ (inject_Z a <= inject_Z b)%Q.
Proof.
  intros H. rewrite <- inject_Z_opp, <- !Zle_Qle. lia.
Qed.

Lemma to_Q_opp (g : float64) : (to_Q (SFopp g) == - to_Q g)%Q.
Proof. destruct g as [s|s| |[] m e]; cbn [SFopp to_Q negb]; ring. Qed.

Lemma finite_positive_form (f : float64) :
  is_finite f = true -> (0 < to_Q f)%Q ->
  exists (m : positive) (e : Z), f = S754_finite false m e.
Proof.
  intros Hf Hp. destruct f as [s|s| |[] m e]; try discriminate.
  - exfalso. cbn [to_Q] in Hp.
    assert (0 < inject_Z (Z.pos m) * pow2 e)%Q
      by (apply Qmult_lt_0_compat; [reflexivity|apply pow2_pos]).
    lra.
  - now exists m, e.
Qed.

Lemma Qfloor_eq (q : Q) (z : Z) :
  (inject_Z z <= q)%Q -> (q < inject_Z (z + 1))%Q -> Qfloor q = z.
Proof.
  intros Hl Hu.
  pose proof (Qfloor_le q) as H1. pose proof (Qlt_floor q) as H2.
  assert (A : (inject_Z z < inject_Z (Qfloor q + 1))%Q) by (eapply Qle_lt_trans; eassumption).
  assert (B : (inject_Z (Qfloor q) < inject_Z (z + 1))%Q) by (eapply Qle_lt_trans; eassumption).
  rewrite <- Zlt_Qlt in A, B. lia.
Qed.

Lemma Qfloor_pos_pow2 (m : positive) (e : Z) :
  Qfloor (inject_Z (Zpos m) * pow2 e) = Z.shiftl (Zpos m) e.
Proof.
  destruct (Z.le_gt_cases 0 e) as [He|He].
  - rewrite Z.shiftl_mul_pow2 by assumption.
    apply Qfloor_eq.
    + rewrite pow2_nonneg_Z, <- inject_Z_mult by assumption. apply Qle_refl.
    + rewrite pow2_nonneg_Z, <- inject_Z_mult by assumption.
      rewrite <- Zlt_Qlt. lia.
  - replace e with (- (- e)) by lia.
    rewrite Z.shiftl_opp_r, Z.shiftr_div_pow2 by lia.
    rewrite pow2_opp. rewrite (Qfloor_comp _ (inject_Z (Zpos m) / inject_Z (2 ^ (- e)))).
    + symmetry. apply Zdiv_Qdiv.
    + unfold Qdiv. now rewrite pow2_nonneg_Z by lia.
Qed.

Lemma Qle_bool_pos_pow2 (m : positive) (e : Z) :
  Qle_bool 0 (inject_Z (Zpos m) * pow2 e) = true.
Proof.
  apply Qle_bool_iff. apply Qmult_le_0_compat; [easy|]. apply Qlt_le_weak, pow2_pos.
Qed.

Lemma Qle_bool_neg_pow2 (m : positive) (e : Z) :
  Qle_bool 0 (- (inject_Z (Zpos m) * pow2 e)) = false.
Proof.
  destruct (Qle_bool 0 (- (inject_Z (Zpos m) * pow2 e))) eqn:E; [|reflexivity].
  apply Qle_bool_iff in E.
  assert (0 < inject_Z (Zpos m) * pow2 e)%Q.
  { apply Qmult_lt_0_compat; [reflexivity|apply pow2_pos]. }
  lra.
Qed.

(** The integer part computed on the mantissa and exponent is the
    truncation of the exact value towards zero. *)
Lemma trunc_to_Q (g : float64) :
  is_finite g = true -> trunc g = Some (Qtruncate (to_Q g)).
Proof.
  destruct g as [s|s| |s m e]; try discriminate; intros _.
  - reflexivity.
  - cbn [trunc to_Q]. f_equal. unfold Qtruncate. destruct s; cbn [cond_Zopp].
    + rewrite Qle_bool_neg_pow2. unfold Qceiling.
      rewrite (Qfloor_comp _ (inject_Z (Zpos m) * pow2 e)) by apply Qopp_involutive.
      now rewrite Qfloor_pos_pow2.
    + rewrite Qle_bool_pos_pow2. now rewrite Qfloor_pos_pow2.
Qed.

(** ** The conversion to int64 *)

Lemma to_int64_truncate (U : float64 -> Z) (g : float64) :
  is_finite g = true -> Int64.in_range (Qtruncate (to_Q g)) = true ->
  to_int64 U g = Qtruncate (to_Q g).
Proof.
  intros Hg Hr. unfold to_int64. rewrite (trunc_to_Q _ Hg). now rewrite Hr.
Qed.

Lemma to_int64_between (U : float64 -> Z) (g : float64) (n : Z) :
  is_finite g = true -> 0 <= n < 2 ^ 63 ->
  (inject_Z n <= to_Q g)%Q -> (to_Q g < inject_Z (n + 1))%Q ->
  to_int64 U g = n.
Proof.
  intros Hg Hn Hl Hu.
  assert (T : Qtruncate (to_Q g) = n).
  { unfold Qtruncate.
    assert (P : Qle_bool 0 (to_Q g) = true).
    { apply Qle_bool_iff. eapply Qle_trans; [|exact Hl]. rewrite <- (Zle_Qle 0). lia. }
    rewrite P. now apply Qfloor_eq. }
  rewrite to_int64_truncate; rewrite ?T; try assumption; try reflexivity.
  unfold Int64.in_range, Int64.min_int, Int64.max_int.
  apply andb_true_iff. split; apply Z.leb_le; lia.
Qed.

Lemma to_int64_opp_between (U : float64 -> Z) (g : float64) (n : Z) :
  is_finite g = true -> 0 < n < 2 ^ 63 ->
  (inject_Z n <= to_Q g)%Q -> (to_Q g < inject_Z (n + 1))%Q ->
  to_int64 U (SFopp g) = - n.
Proof.
  intros Hg Hn Hl Hu.
  assert (T : Qtruncate (to_Q (SFopp g)) = - n).
  { unfold Qtruncate.
    assert (P : Qle_bool 0 (to_Q (SFopp g)) = false).
    { destruct (Qle_bool 0 (to_Q (SFopp g))) eqn:E; [|reflexivity].
      apply Qle_bool_iff in E. rewrite to_Q_opp in E.
      assert (0 < inject_Z n)%Q by (rewrite <- (Zlt_Qlt 0); lia). lra. }
    rewrite P. unfold Qceiling.
    rewrite (Qfloor_comp _ (to_Q g)) by (rewrite to_Q_opp; apply Qopp_involutive).
    f_equal. now apply Qfloor_eq. }
  rewrite to_int64_truncate; rewrite ?is_finite_opp, ?T; try assumption; try reflexivity.
  unfold Int64.in_range, Int64.min_int, Int64.max_int.
  apply andb_true_iff. split; apply Z.leb_le; lia.
Qed.

(** ** Constants *)

Lemma check_range_spec (n : nat) (lo : Z) (f : Z -> bool) :
  check_range n lo f = true ->
  forall k, lo <= k < lo + Z.of_nat n -> f k = true.
Proof.
  revert lo. induction n as [|n IH]; intros lo H k Hk; [lia|].
  cbn [check_range] in H. apply andb_true_iff in H. destruct H as [H1 H2].
  destruct (Z.eq_dec k lo) as [->|Hne]; [exact H1|].
  apply (IH (lo + 1) H2). lia.
Qed.

Lemma wrap_id (z : Z) : Int64.min_int <= z <= Int64.max_int -> Int64.wrap z = z.
Proof.
  unfold Int64.min_int, Int64.max_int, Int64.wrap. intros H.
  rewrite Z.mod_small; lia.
Qed.

Lemma HaoPerBitcoin_value : HaoPerBitcoin = S754_finite false 6710886400000000 (-26).
Proof. vm_compute. reflexivity. Qed.

Lemma half_value : Float64.half = S754_finite false 4503599627370496 (-53).
Proof. vm_compute. reflexivity. Qed.

Lemma ten8_Q : (inject_Z 6710886400000000 * pow2 (-26) == 100000000)%Q.
Proof. vm_compute. reflexivity. Qed.

Lemma half_Q : (inject_Z 4503599627370496 * pow2 (-53) == 1 # 2)%Q.
Proof. vm_compute. reflexivity. Qed.

Lemma pow2_25 : (pow2 25 == 33554432)%Q.
Proof. vm_compute. reflexivity. Qed.

Lemma pow2_51 : (pow2 51 == 2251799813685248)%Q.
Proof. vm_compute. reflexivity. Qed.

Lemma pow2_m53 : (pow2 (-53) == 1 # 9007199254740992)%Q.
Proof. vm_compute. reflexivity. Qed.

Lemma pow2_m3 : (pow2 (-3) == 1 # 8)%Q.
Proof. vm_compute. reflexivity. Qed.

Lemma pow2_m1022_small : (pow2 (-1022) <= 1 # 100000000)%Q.
Proof.
  apply Qle_trans with (pow2 (-27)); [apply pow2_le; lia|].
  vm_compute. discriminate.
Qed.

Lemma pow2_m1022_tiny : (pow2 (-1022) * inject_Z (10 ^ 22) <= 1)%Q.
Proof.
  apply Qle_trans with (pow2 (-74) * inject_Z (10 ^ 22))%Q.
  - apply Qmult_le_compat_r; [apply pow2_le; lia|]. rewrite <- (Zle_Qle 0). lia.
  - vm_compute. discriminate.
Qed.

(** * Rounding

    What [binary_round_aux], on which every operation of [SpecFloat]
    ends, does to a number given by a mantissa, an exponent and the
    position of the rest: first on integers, then on exact values. *)

Lemma loc_of_shr_record_of_loc (m : Z) (l : location) :
  loc_of_shr_record (shr_record_of_loc m l) = l.
Proof. destruct l as [|[]]; reflexivity. Qed.

Lemma shr_m_record_of_loc (m : Z) (l : location) :
  shr_m (shr_record_of_loc m l) = m.
Proof. destruct l as [|[]]; reflexivity. Qed.

Lemma loc_of_cases (r d : Z) :
  0 <= r < d ->
  (r = 0 /\ loc_of r d = loc_Exact)
  \/ (0 < r /\ 2 * r < d /\ loc_of r d = loc_Inexact Lt)
  \/ (0 < r /\ 2 * r = d /\ loc_of r d = loc_Inexact Eq)
  \/ (0 < r /\ d < 2 * r /\ loc_of r d = loc_Inexact Gt).
Proof.
  intros H. unfold loc_of. destruct (Z.eqb_spec r 0) as [->|Hr]; [now left|right].
  destruct (Z.compare_spec (2 * r) d) as [E|E|E].
  - right; left. repeat split; lia.
  - left. repeat split; lia.
  - right; right. repeat split; lia.
Qed.

Lemma loc_of_exact (d : Z) : loc_of 0 d = loc_Exact.
Proof. reflexivity. Qed.

Lemma loc_of_lt (r d : Z) : 0 < r -> 2 * r < d -> loc_of r d = loc_Inexact Lt.
Proof.
  intros H1 H2. unfold loc_of. destruct (Z.eqb_spec r 0); [lia|].
  now rewrite (proj2 (Z.compare_lt_iff _ _) H2).
Qed.

Lemma loc_of_eq (r d : Z) : 0 < r -> 2 * r = d -> loc_of r d = loc_Inexact Eq.
Proof.
  intros H1 H2. unfold loc_of. destruct (Z.eqb_spec r 0); [lia|].
  now rewrite (proj2 (Z.compare_eq_iff _ _) H2).
Qed.

Lemma loc_of_gt (r d : Z) : 0 < r -> d < 2 * r -> loc_of r d = loc_Inexact Gt.
Proof.
  intros H1 H2. unfold loc_of. destruct (Z.eqb_spec r 0); [lia|].
  now rewrite (proj2 (Z.compare_gt_iff _ _) H2).
Qed.

Lemma div2_xI (p : positive) : Z.pos p~1 / 2 = Z.pos p.
Proof. rewrite Pos2Z.inj_xI. symmetry. apply Z.div_unique with 1; lia. Qed.

Lemma mod2_xI (p : positive) : Z.pos p~1 mod 2 = 1.
Proof. rewrite Pos2Z.inj_xI. symmetry. apply Z.mod_unique with (Z.pos p); lia. Qed.

Lemma div2_xO (p : positive) : Z.pos p~0 / 2 = Z.pos p.
Proof. rewrite Pos2Z.inj_xO. symmetry. apply Z.div_unique with 0; lia. Qed.

Lemma mod2_xO (p : positive) : Z.pos p~0 mod 2 = 0.
Proof. rewrite Pos2Z.inj_xO. symmetry. apply Z.mod_unique with (Z.pos p); lia. Qed.

(** One step of [shr]: the mantissa is halved and the bit that falls
    off goes into the position. *)
Lemma shr_1_loc (m r d : Z) :
  0 <= m -> 0 <= r < d ->
  shr_1 (shr_record_of_loc m (loc_of r d))
  = shr_record_of_loc (m / 2) (loc_of (m mod 2 * d + r) (2 * d)).
Proof.
  intros Hm Hr.
  assert (E : (m / 2 = 0 /\ m mod 2 = 0 /\ m = 0)
              \/ (m / 2 = 0 /\ m mod 2 = 1 /\ m = 1)
              \/ (exists p, m / 2 = Z.pos p /\ m mod 2 = 0 /\ m = Z.pos p~0)
              \/ (exists p, m / 2 = Z.pos p /\ m mod 2 = 1 /\ m = Z.pos p~1)).
  { destruct m as [|[p|p|]|p]; try lia.
    - left. repeat split.
    - right; right; right. exists p. now rewrite div2_xI, mod2_xI.
    - right; right; left. exists p. now rewrite div2_xO, mod2_xO.
    - right; left. repeat split. }
  destruct E as [[-> [-> ->]]|[[-> [-> ->]]|[[p [-> [-> ->]]]|[p [-> [-> ->]]]]]];
    rewrite ?Z.mul_0_l, ?Z.mul_1_l, ?Z.add_0_l;
    destruct (loc_of_cases r d Hr) as [[H0 ->]|[[H0 [H1 ->]]|[[H0 [H1 ->]]|[H0 [H1 ->]]]]];
    cbn [shr_record_of_loc shr_1 orb];
    try (subst r; rewrite ?Z.add_0_r);
    first [ rewrite loc_of_exact; reflexivity
          | rewrite loc_of_lt by lia; reflexivity
          | rewrite loc_of_eq by lia; reflexivity
          | rewrite loc_of_gt by lia; reflexivity ].
Qed.

Lemma shift_range (m r d P : Z) :
  0 <= m -> 0 <= r < d -> 0 < P -> 0 <= m mod P * d + r < P * d.
Proof.
  intros Hm Hr HP. pose proof (Z.mod_pos_bound m P HP) as Hb.
  assert (m mod P * d <= (P - 1) * d) by (apply Z.mul_le_mono_nonneg_r; lia).
  assert (0 <= m mod P * d) by (apply Z.mul_nonneg_nonneg; lia).
  lia.
Qed.

Lemma shift_compose (m r d P Q : Z) :
  0 < P -> 0 < Q ->
  m / P / Q = m / (P * Q)
  /\ (m / P) mod Q * (P * d) + (m mod P * d + r) = m mod (P * Q) * d + r
  /\ Q * (P * d) = P * Q * d.
Proof.
  intros HP HQ. split; [|split].
  - apply Z.div_div; lia.
  - rewrite (Z.rem_mul_r m P Q) by lia. ring.
  - ring.
Qed.

Lemma pow2_xO (p : positive) : 2 ^ Z.pos p~0 = 2 ^ Z.pos p * 2 ^ Z.pos p.
Proof.
  rewrite (Pos2Z.inj_xO p). replace (2 * Z.pos p) with (Z.pos p + Z.pos p) by lia.
  apply Z.pow_add_r; lia.
Qed.

Lemma pow2_xI (p : positive) : 2 ^ Z.pos p~1 = 2 * 2 ^ Z.pos p * 2 ^ Z.pos p.
Proof.
  rewrite (Pos2Z.inj_xI p). replace (2 * Z.pos p + 1) with (1 + (Z.pos p + Z.pos p)) by lia.
  rewrite !Z.pow_add_r, Z.pow_1_r by lia. ring.
Qed.

(** [p] steps of [shr]: the mantissa loses its [p] low bits, which go
    into the position. *)
Lemma iter_pos_shr_1 (p : positive) (m r d : Z) :
  0 <= m -> 0 <= r < d ->
  iter_pos shr_1 p (shr_record_of_loc m (loc_of r d))
  = shr_record_of_loc (m / 2 ^ Z.pos p)
      (loc_of (m mod 2 ^ Z.pos p * d + r) (2 ^ Z.pos p * d)).
Proof.
  revert m r d. induction p as [p IH|p IH|]; intros m r d Hm Hr; cbn [iter_pos].
  - assert (HP : 0 < 2 ^ Z.pos p) by (apply Z.pow_pos_nonneg; lia).
    rewrite shr_1_loc by assumption.
    pose proof (shift_range m r d 2 Hm Hr ltac:(lia)) as R1.
    rewrite IH by (try apply Z.div_pos; lia).
    pose proof (shift_range (m / 2) _ _ (2 ^ Z.pos p) ltac:(apply Z.div_pos; lia) R1 HP) as R2.
    rewrite IH by (try apply Z.div_pos; try apply Z.div_pos; lia).
    destruct (shift_compose m r d 2 (2 ^ Z.pos p) ltac:(lia) HP) as [A [B C]].
    destruct (shift_compose m r d (2 * 2 ^ Z.pos p) (2 ^ Z.pos p) ltac:(lia) HP) as [A' [B' C']].
    rewrite pow2_xI.
    rewrite <- A', <- B', <- C', <- A, <- B, <- C. reflexivity.
  - assert (HP : 0 < 2 ^ Z.pos p) by (apply Z.pow_pos_nonneg; lia).
    rewrite IH by assumption.
    pose proof (shift_range m r d (2 ^ Z.pos p) Hm Hr HP) as R1.
    rewrite IH by (try apply Z.div_pos; lia).
    destruct (shift_compose m r d (2 ^ Z.pos p) (2 ^ Z.pos p) HP HP) as [A [B C]].
    rewrite pow2_xO.
    rewrite <- A, <- B, <- C. reflexivity.
  - rewrite shr_1_loc by assumption. reflexivity.
Qed.

Lemma shr_fexp_loc (m e r d : Z) :
  0 <= m -> 0 <= r < d ->
  shr_fexp prec emax m e (loc_of r d)
  = (shr_record_of_loc (m / 2 ^ shift_of m e)
       (loc_of (m mod 2 ^ shift_of m e * d + r) (2 ^ shift_of m e * d)),
     e + shift_of m e).
Proof.
  intros Hm Hr. unfold shr_fexp, shr, shift_of.
  destruct (fexp prec emax (Zdigits2 m + e) - e) as [|p|p] eqn:E.
  - cbn [Z.max Z.compare]. rewrite Z.pow_0_r, Z.div_1_r, Z.mod_1_r, Z.mul_0_l, Z.add_0_l, Z.mul_1_l, Z.add_0_r.
    reflexivity.
  - rewrite Z.max_r by lia. now rewrite iter_pos_shr_1.
  - rewrite Z.max_l by lia.
    rewrite Z.pow_0_r, Z.div_1_r, Z.mod_1_r, Z.mul_0_l, Z.add_0_l, Z.mul_1_l, Z.add_0_r.
    reflexivity.
Qed.

(** Rounding to nearest, ties to even, moves by at most one half. *)
Lemma round_nearest_even_error (m r d : Z) :
  0 <= r < d ->
  let m' := round_nearest_even m (loc_of r d) in
  m <= m' <= m + 1 /\ Z.abs (2 * d * m' - 2 * (d * m + r)) <= d.
Proof.
  intros Hr.
  destruct (loc_of_cases r d Hr) as [[H0 ->]|[[H0 [H1 ->]]|[[H0 [H1 ->]]|[H0 [H1 ->]]]]];
    cbn [round_nearest_even]; try destruct (Z.even m); cbv zeta; split; nia.
Qed.

Lemma shift_of_nonneg (m e : Z) : 0 <= shift_of m e.
Proof. unfold shift_of. lia. Qed.

(** After the first shift the mantissa fits in 53 bits and the exponent
    is at least [emin]. *)
Lemma shift_of_fits (m e : Z) :
  0 <= m -> m / 2 ^ shift_of m e < 2 ^ 53 /\ -1074 <= e + shift_of m e.
Proof.
  intros Hm. unfold shift_of, fexp, emin, prec, emax.
  set (n := Z.max 0 (Z.max (Zdigits2 m + e - 53) (3 - 1024 - 53) - e)).
  split; [|lia].
  assert (Hn : 0 <= n) by lia.
  assert (HP : 0 < 2 ^ n) by (apply Z.pow_pos_nonneg; lia).
  apply Z.div_lt_upper_bound; [assumption|].
  destruct (Z.eq_dec m 0) as [->|Hne]; [lia|].
  pose proof (Zdigits2_bounds m ltac:(lia)) as [_ Hu].
  pose proof (Zdigits2_nonneg m) as Hd.
  assert (2 ^ Zdigits2 m <= 2 ^ (n + 53)) by (apply Z.pow_le_mono_r; lia).
  rewrite Z.pow_add_r in * by lia. lia.
Qed.

(** What [binary_round_aux] returns for the number [(m + r/d) * 2^e]:
    with [n1] bits dropped, a mantissa [m2] within one half of the exact
    quotient, renormalised when it reaches [2^53]. *)
Lemma binary_round_aux_cases (s : bool) (m e r d : Z) :
  0 <= m -> 0 <= r < d ->
  exists m2 : Z,
    0 <= m2 <= 2 ^ 53
    /\ Z.abs (2 * (2 ^ shift_of m e * d) * m2 - 2 * (d * m + r)) <= 2 ^ shift_of m e * d
    /\ ((m2 = 0 /\ binary_round_aux prec emax s m e (loc_of r d) = S754_zero s)
        \/ (exists (m3 : positive) (e3 : Z),
              Zpos m3 * 2 ^ (e3 - (e + shift_of m e)) = m2
              /\ e + shift_of m e <= e3 <= e + shift_of m e + 1
              /\ binary_round_aux prec emax s m e (loc_of r d)
                 = if e3 <=? 971 then S754_finite s m3 e3 else S754_infinity s)).
Proof.
  intros Hm Hr.
  pose proof (shift_of_nonneg m e) as Hn.
  destruct (shift_of_fits m e Hm) as [Hfit He1].
  set (n1 := shift_of m e) in *.
  assert (HP : 0 < 2 ^ n1) by (apply Z.pow_pos_nonneg; lia).
  pose proof (shift_range m r d (2 ^ n1) Hm Hr HP) as R1.
  pose proof (round_nearest_even_error (m / 2 ^ n1) _ _ R1) as [Hm2 Herr].
  cbv zeta in Hm2, Herr.
  set (m2 := round_nearest_even (m / 2 ^ n1)
               (loc_of (m mod 2 ^ n1 * d + r) (2 ^ n1 * d))) in *.
  assert (Hm1 : 0 <= m / 2 ^ n1) by (apply Z.div_pos; lia).
  assert (Hsum : 2 ^ n1 * d * (m / 2 ^ n1) + (m mod 2 ^ n1 * d + r) = d * m + r).
  { rewrite (Z.div_mod m (2 ^ n1)) at 3 by lia. ring. }
  rewrite Hsum in Herr.
  exists m2. split; [lia|]. split; [exact Herr|].
  unfold binary_round_aux.
  rewrite shr_fexp_loc by assumption. fold n1.
  rewrite shr_m_record_of_loc, loc_of_shr_record_of_loc. fold m2.
  change loc_Exact with (loc_of 0 1).
  rewrite shr_fexp_loc by lia.
  rewrite shr_m_record_of_loc.
  destruct (Z.eq_dec m2 (2 ^ 53)) as [E|NE].
  - right. exists (2 ^ 52)%positive, (e + n1 + 1).
    assert (S2 : shift_of m2 (e + n1) = 1).
    { rewrite E. unfold shift_of, fexp, emin, prec, emax.
      change (Zdigits2 (2 ^ 53)) with 54. lia. }
    rewrite S2. rewrite E.
    replace (e + n1 + 1 - (e + n1)) with 1 by lia.
    split; [reflexivity|]. split; [lia|]. reflexivity.
  - assert (S2 : shift_of m2 (e + n1) = 0).
    { unfold shift_of, fexp, emin, prec, emax.
      pose proof (Zdigits2_le m2 53 ltac:(lia) ltac:(lia)). lia. }
    rewrite S2, Z.pow_0_r, Z.div_1_r, Z.add_0_r.
    destruct m2 as [|p|p] eqn:Ep; [left; split; reflexivity| |lia].
    right. exists p, (e + n1). rewrite Z.sub_diag, Z.pow_0_r, Z.mul_1_r.
    split; [reflexivity|]. split; [lia|]. reflexivity.
Qed.

(** ** Magnitudes *)

Lemma magnitude_lower (x : Q) (m r d e : Z) :
  0 <= r -> 0 < d -> is_magnitude x m r d e -> (inject_Z m * pow2 e <= x)%Q.
Proof.
  unfold is_magnitude. intros Hr Hd Hx.
  assert (D : (0 < inject_Z d)%Q) by (rewrite <- (Zlt_Qlt 0); assumption).
  apply (Qmult_le_r _ _ (inject_Z d) D). rewrite Hx.
  rewrite inject_Z_plus, inject_Z_mult.
  assert (R : (0 <= inject_Z r)%Q) by (rewrite <- (Zle_Qle 0); assumption).
  pose proof (pow2_pos e). nra.
Qed.

Lemma magnitude_upper (x : Q) (m r d e : Z) :
  r < d -> 0 < d -> is_magnitude x m r d e -> (x < inject_Z (m + 1) * pow2 e)%Q.
Proof.
  unfold is_magnitude. intros Hr Hd Hx.
  assert (D : (0 < inject_Z d)%Q) by (rewrite <- (Zlt_Qlt 0); assumption).
  apply (Qmult_lt_r _ _ (inject_Z d) D). rewrite Hx.
  rewrite !inject_Z_plus, inject_Z_mult.
  assert (R : (inject_Z r < inject_Z d)%Q) by (rewrite <- Zlt_Qlt; assumption).
  pose proof (pow2_pos e). change (inject_Z 1) with 1%Q. nra.
Qed.

(** A number below [2^(c+53)] has mantissa and exponent that do not ask
    for an exponent above [c]. *)
Lemma digits_upper (x : Q) (m e c : Z) :
  0 < m -> (inject_Z m * pow2 e <= x)%Q -> (x < pow2 (c + 53))%Q ->
  Zdigits2 m + e - 53 <= c.
Proof.
  intros Hm Hlow Hlt.
  pose proof (Zdigits2_bounds m Hm) as [Hl _].
  assert (Hd : 0 < Zdigits2 m) by (destruct m; cbn in *; lia).
  assert (L : (pow2 (Zdigits2 m - 1 + e) <= x)%Q).
  { rewrite pow2_add. eapply Qle_trans; [|exact Hlow].
    apply Qmult_le_compat_r; [|apply Qlt_le_weak, pow2_pos].
    rewrite pow2_nonneg_Z by lia. rewrite <- Zle_Qle. exact Hl. }
  assert (H : (pow2 (Zdigits2 m - 1 + e) < pow2 (c + 53))%Q)
    by (eapply Qle_lt_trans; eassumption).
  apply pow2_lt_inv in H. lia.
Qed.

Lemma fexp_upper (x : Q) (m e c : Z) :
  0 < m -> (inject_Z m * pow2 e <= x)%Q -> (x < pow2 (c + 53))%Q ->
  -1074 <= c -> fexp prec emax (Zdigits2 m + e) <= c.
Proof.
  intros Hm Hlow Hlt Hc. pose proof (digits_upper x m e c Hm Hlow Hlt).
  unfold fexp, emin, prec, emax. lia.
Qed.

(** The exponent after the first shift is bounded by the magnitude. *)
Lemma shift_of_upper (x : Q) (m r d e c : Z) :
  0 <= m -> 0 <= r < d -> is_magnitude x m r d e ->
  e <= c -> -1074 <= c -> (x < pow2 (c + 53))%Q ->
  e + shift_of m e <= c.
Proof.
  intros Hm Hr Hx Hec Hc Hlt.
  assert (Zdigits2 m + e - 53 <= c).
  { destruct (Z.eq_dec m 0) as [->|Hne]; [cbn; lia|].
    apply (digits_upper x); try assumption; try lia.
    apply (magnitude_lower x m r d e); try assumption; lia. }
  unfold shift_of, fexp, emin, prec, emax. lia.
Qed.

Lemma shift_of_lower (x : Q) (m r d e c : Z) :
  0 <= m -> 0 <= r < d -> is_magnitude x m r d e ->
  (pow2 (c + 52) <= x)%Q -> c <= e + shift_of m e.
Proof.
  intros Hm Hr Hx Hle.
  pose proof (magnitude_upper x m r d e ltac:(lia) ltac:(lia) Hx) as Hup.
  assert (U : (inject_Z (m + 1) * pow2 e <= pow2 (Zdigits2 m + e))%Q).
  { rewrite pow2_add. apply Qmult_le_compat_r; [|apply Qlt_le_weak, pow2_pos].
    rewrite pow2_nonneg_Z by apply Zdigits2_nonneg. rewrite <- Zle_Qle.
    destruct (Z.eq_dec m 0) as [->|Hne]; [cbn; lia|].
    pose proof (Zdigits2_bounds m ltac:(lia)). lia. }
  assert (pow2 (c + 52) < pow2 (Zdigits2 m + e))%Q.
  { eapply Qle_lt_trans; [exact Hle|]. eapply Qlt_le_trans; eassumption. }
  apply pow2_lt_inv in H.
  unfold shift_of, fexp, emin, prec, emax. lia.
Qed.

Lemma binary_round_aux_Q (s : bool) (m e r d : Z) (x : Q) :
  0 <= m -> 0 <= r < d -> is_magnitude x m r d e ->
  e + shift_of m e < 971 ->
  rounds_to (binary_round_aux prec emax s m e (loc_of r d)) s x (e + shift_of m e).
Proof.
  intros Hm Hr Hx Hov.
  destruct (binary_round_aux_cases s m e r d Hm Hr) as [m2 [Hm2 [Herr Hres]]].
  pose proof (shift_of_nonneg m e) as Hn.
  set (n1 := shift_of m e) in *.
  exists (inject_Z m2 * pow2 (e + n1))%Q.
  assert (D : (0 < inject_Z d)%Q) by (rewrite <- (Zlt_Qlt 0); lia).
  pose proof (pow2_pos e) as HA.
  unfold is_magnitude in Hx.
  remember (d * m + r) as Xz eqn:EX. clear EX.
  apply Qabs_Zabs_le in Herr. destruct Herr as [E1 E2].
  unfold Z.sub in E1, E2.
  repeat rewrite ?inject_Z_plus, ?inject_Z_opp, ?inject_Z_mult in E1.
  repeat rewrite ?inject_Z_plus, ?inject_Z_opp, ?inject_Z_mult in E2.
  rewrite <- !pow2_nonneg_Z in E1, E2 by assumption.
  change (inject_Z 2) with 2%Q in E1, E2.
  unfold is_magnitude in Hx.
  assert (B : (- (pow2 (e + n1 - 1) * inject_Z d)
               <= (inject_Z m2 * pow2 (e + n1) - x) * inject_Z d)%Q
              /\ ((inject_Z m2 * pow2 (e + n1) - x) * inject_Z d
                  <= pow2 (e + n1 - 1) * inject_Z d)%Q).
  { rewrite pow2_pred, pow2_add.
    setoid_replace ((inject_Z m2 * (pow2 e * pow2 n1) - x) * inject_Z d)%Q
      with (pow2 e * (inject_Z m2 * pow2 n1 * inject_Z d - inject_Z Xz))%Q
      by (setoid_replace ((inject_Z m2 * (pow2 e * pow2 n1) - x) * inject_Z d)%Q
            with (inject_Z m2 * (pow2 e * pow2 n1) * inject_Z d - x * inject_Z d)%Q
            by ring;
          rewrite Hx; ring).
    remember (inject_Z Xz) as X. remember (inject_Z m2) as M2.
    remember (inject_Z d) as Dq. remember (pow2 n1) as N. remember (pow2 e) as A.
    clear - HA D E1 E2. split; nra. }
  destruct B as [B1 B2].
  split; [|split; [|split]].
  - apply (Qmult_le_r _ _ (inject_Z d) D).
    setoid_replace (- pow2 (e + n1 - 1) * inject_Z d)%Q
      with (- (pow2 (e + n1 - 1) * inject_Z d))%Q by ring.
    exact B1.
  - apply (Qmult_le_r _ _ (inject_Z d) D). exact B2.
  - exists m2. split; [lia|reflexivity].
  - destruct Hres as [[-> H0]|[m3 [e3 [H3 [He3 HR]]]]].
    + left. split; [|exact H0]. ring.
    + right. exists m3, e3.
      destruct (Z.leb_spec e3 971) as [_|Hgt]; [|lia].
      split; [exact HR|]. split; [exact He3|].
      rewrite <- H3, inject_Z_mult, <- pow2_nonneg_Z by lia.
      rewrite <- Qmult_assoc, <- pow2_add.
      now replace (e3 - (e + n1) + (e + n1)) with e3 by lia.
Qed.

(** ** Reading a rounded float *)

Lemma rounds_to_finite (R : float64) (s : bool) (x : Q) (e1 : Z) :
  rounds_to R s x e1 -> is_finite R = true.
Proof.
  intros [v [_ [_ [_ [[_ ->]|[m3 [e3 [-> _]]]]]]]]; reflexivity.
Qed.

Lemma rounds_to_nonneg (R : float64) (x : Q) (e1 : Z) :
  rounds_to R false x e1 ->
  (- pow2 (e1 - 1) <= to_Q R - x)%Q /\ (to_Q R - x <= pow2 (e1 - 1))%Q
  /\ (exists k : Z, 0 <= k /\ (to_Q R == inject_Z k * pow2 e1)%Q)
  /\ (R = S754_zero false
      \/ exists (m3 : positive) (e3 : Z),
           R = S754_finite false m3 e3 /\ e1 <= e3 <= e1 + 1).
Proof.
  intros [v [H1 [H2 [[k [Hk Hg]] H]]]].
  assert (E : (to_Q R == v)%Q).
  { destruct H as [[H0 ->]|[m3 [e3 [-> [_ Hv]]]]]; cbn [to_Q]; symmetry; assumption. }
  rewrite E. repeat split; try assumption.
  - exists k. split; [assumption|]. now rewrite E.
  - destruct H as [[_ ->]|[m3 [e3 [-> [He _]]]]]; [now left|right]. now exists m3, e3.
Qed.

(** A number on the grid is not moved by rounding. *)
Lemma grid_exact (v x : Q) (e1 k j : Z) :
  (v == inject_Z k * pow2 e1)%Q -> (x == inject_Z j * pow2 e1)%Q ->
  (- pow2 (e1 - 1) <= v - x)%Q -> (v - x <= pow2 (e1 - 1))%Q -> (v == x)%Q.
Proof.
  intros Hv Hx H1 H2. rewrite Hv, Hx in *. rewrite pow2_pred in H1, H2.
  pose proof (pow2_pos e1) as P.
  assert (A : (inject_Z (2 * k - 2 * j) <= inject_Z 1)%Q).
  { unfold Z.sub. rewrite inject_Z_plus, inject_Z_opp, !inject_Z_mult.
    change (inject_Z 2) with 2%Q. change (inject_Z 1) with 1%Q.
    destruct (Qlt_le_dec 1 (2 * inject_Z k + - (2 * inject_Z j))) as [C|C]; [exfalso|exact C].
    nra. }
  assert (B : (inject_Z (-1) <= inject_Z (2 * k - 2 * j))%Q).
  { unfold Z.sub. rewrite inject_Z_plus, inject_Z_opp, !inject_Z_mult.
    change (inject_Z 2) with 2%Q. change (inject_Z (-1)) with (-1)%Q.
    destruct (Qlt_le_dec (2 * inject_Z k + - (2 * inject_Z j)) (-1)) as [C|C]; [exfalso|exact C].
    nra. }
  rewrite <- Zle_Qle in A, B. assert (k = j) by lia. subst. reflexivity.
Qed.

Lemma rounds_to_exact (R : float64) (x : Q) (e1 j : Z) :
  rounds_to R false x e1 -> (x == inject_Z j * pow2 e1)%Q -> (to_Q R == x)%Q.
Proof.
  intros H Hx. apply rounds_to_nonneg in H.
  destruct H as [H1 [H2 [[k [_ Hk]] _]]].
  exact (grid_exact _ _ e1 k j Hk Hx H1 H2).
Qed.

(** ** Aligned mantissas *)

Lemma pos_iter_xO (m d : positive) : Z.pos (Pos.iter xO m d) = Z.pos m * 2 ^ Z.pos d.
Proof.
  induction d as [|d IH] using Pos.peano_ind.
  - cbn [Pos.iter]. rewrite Pos2Z.inj_xO, Z.pow_1_r. lia.
  - rewrite Pos.iter_succ, Pos2Z.inj_xO, IH, Pos2Z.inj_succ, Z.pow_succ_r by lia. ring.
Qed.

(** [shl_align] lowers the exponent to [e'] when it is above, keeping
    the value. *)
Lemma shl_align_spec (m : positive) (e e' : Z) :
  let '(m1, e1) := shl_align m e e' in
  e1 = Z.min e e' /\ Z.pos m1 = Z.pos m * 2 ^ (e - e1).
Proof.
  unfold shl_align. destruct (e' - e) as [|p|p] eqn:E.
  - rewrite Z.min_l by lia. rewrite Z.sub_diag. split; [reflexivity|]. cbn. lia.
  - rewrite Z.min_l by lia. rewrite Z.sub_diag. split; [reflexivity|]. cbn. lia.
  - rewrite Z.min_r by lia. split; [reflexivity|].
    rewrite pos_iter_xO. f_equal. f_equal. lia.
Qed.

Lemma fexp_ge_emin (k : Z) : -1074 <= fexp prec emax k.
Proof. unfold fexp, emin, prec, emax. lia. Qed.

(** [binary_round] rounds [m * 2^e] at the exponent its size asks for. *)
Lemma binary_round_Q (s : bool) (m : positive) (e : Z) (x : Q) :
  (x == inject_Z (Z.pos m) * pow2 e)%Q ->
  fexp prec emax (Zdigits2 (Z.pos m) + e) < 971 ->
  rounds_to (binary_round prec emax s m e) s x (fexp prec emax (Zdigits2 (Z.pos m) + e)).
Proof.
  intros Hx Hov. unfold binary_round.
  change (Z.pos (digits2_pos m)) with (Zdigits2 (Z.pos m)).
  set (t := fexp prec emax (Zdigits2 (Z.pos m) + e)) in *.
  pose proof (shl_align_spec m e t) as A.
  destruct (shl_align m e t) as [mz ez]. destruct A as [Ez Em].
  assert (Hs : 0 <= e - ez) by lia.
  assert (Hd : Zdigits2 (Z.pos mz) + ez = Zdigits2 (Z.pos m) + e).
  { rewrite Em, Zdigits2_mul_pow2 by lia. lia. }
  assert (S : ez + shift_of (Z.pos mz) ez = t).
  { unfold shift_of. rewrite Hd. fold t. lia. }
  change loc_Exact with (loc_of 0 1).
  rewrite <- S. apply binary_round_aux_Q; try lia.
  unfold is_magnitude. rewrite Hx, Z.mul_1_l, Z.add_0_r, Em, inject_Z_mult.
  change (inject_Z 1) with 1%Q. rewrite Qmult_1_r.
  rewrite <- pow2_nonneg_Z by lia.
  rewrite <- !Qmult_assoc, <- pow2_add.
  now replace (e - ez + ez) with e by lia.
Qed.

(** ** Products *)

Lemma mul_Q (sx sy : bool) (mx my : positive) (ex ey : Z) (x : Q) :
  (x == inject_Z (Z.pos mx) * pow2 ex * (inject_Z (Z.pos my) * pow2 ey))%Q ->
  ex + ey + shift_of (Z.pos (mx * my)) (ex + ey) < 971 ->
  rounds_to (Float64.mul (S754_finite sx mx ex) (S754_finite sy my ey))
    (xorb sx sy) x (ex + ey + shift_of (Z.pos (mx * my)) (ex + ey)).
Proof.
  intros Hx Hov. unfold Float64.mul, SFmul.
  change loc_Exact with (loc_of 0 1).
  apply binary_round_aux_Q; try lia.
  unfold is_magnitude. rewrite Hx, Z.mul_1_l, Z.add_0_r, Pos2Z.inj_mul, inject_Z_mult.
  rewrite pow2_add. change (inject_Z 1) with 1%Q. ring.
Qed.

Lemma mul_Q_bound (sx sy : bool) (mx my : positive) (ex ey : Z) (x : Q) (c : Z) :
  (x == inject_Z (Z.pos mx) * pow2 ex * (inject_Z (Z.pos my) * pow2 ey))%Q ->
  ex + ey <= c -> -1074 <= c < 971 -> (x < pow2 (c + 53))%Q ->
  exists e1 : Z,
    e1 <= c
    /\ rounds_to (Float64.mul (S754_finite sx mx ex) (S754_finite sy my ey))
         (xorb sx sy) x e1.
Proof.
  intros Hx He Hc Hlt.
  assert (Hmag : is_magnitude x (Z.pos (mx * my)) 0 1 (ex + ey)).
  { unfold is_magnitude. rewrite Hx, Z.mul_1_l, Z.add_0_r, Pos2Z.inj_mul, inject_Z_mult.
    rewrite pow2_add. change (inject_Z 1) with 1%Q. ring. }
  pose proof (shift_of_upper x (Z.pos (mx * my)) 0 1 (ex + ey) c ltac:(lia) ltac:(lia)
                Hmag He ltac:(lia) Hlt) as Hup.
  exists (ex + ey + shift_of (Z.pos (mx * my)) (ex + ey)).
  split; [exact Hup|]. apply mul_Q; [exact Hx|lia].
Qed.

(** ** Quotients *)

Lemma new_location_loc_of (d r : Z) :
  0 <= r < d -> new_location d r = loc_of r d.
Proof.
  intros Hr. unfold new_location, new_location_even, new_location_odd, loc_of.
  destruct (Z.even d) eqn:Ev; [reflexivity|].
  destruct (Z.eqb_spec r 0) as [|Hne]; [reflexivity|].
  assert (Od : Z.odd d = true) by (rewrite <- Z.negb_even, Ev; reflexivity).
  apply Z.odd_spec in Od. destruct Od as [j Hj].
  f_equal.
  destruct (Z.compare_spec (2 * r + 1) d), (Z.compare_spec (2 * r) d); try reflexivity; lia.
Qed.

Lemma SFdiv_core_binary_loc (mx my : positive) (ex ey : Z) :
  SFdiv_core_binary prec emax (Z.pos mx) ex (Z.pos my) ey
  = (div_numerator mx my ex ey / Z.pos my,
     div_exponent mx my ex ey,
     loc_of (div_numerator mx my ex ey mod Z.pos my) (Z.pos my)).
Proof.
  unfold SFdiv_core_binary, div_numerator. fold (div_exponent mx my ex ey).
  set (e' := div_exponent mx my ex ey).
  assert (He : e' <= ex - ey) by (unfold e', div_exponent; lia).
  set (m' := match ex - ey - e' with
             | 0 => Z.pos mx
             | Z.pos _ => Z.shiftl (Z.pos mx) (ex - ey - e')
             | Z.neg _ => 0
             end).
  assert (Hm : m' = Z.pos mx * 2 ^ (ex - ey - e')).
  { unfold m'. destruct (ex - ey - e') as [|p|p] eqn:E.
    - rewrite Z.pow_0_r. lia.
    - rewrite Z.shiftl_mul_pow2; lia.
    - lia. }
  rewrite Hm. unfold Z.div, Z.modulo.
  destruct (Z.div_eucl (Z.pos mx * 2 ^ (ex - ey - e')) (Z.pos my)) as [q r] eqn:E.
  rewrite new_location_loc_of; [reflexivity|].
  pose proof (Z.mod_pos_bound (Z.pos mx * 2 ^ (ex - ey - e')) (Z.pos my) ltac:(lia)) as B.
  unfold Z.modulo in B. now rewrite E in B.
Qed.

Lemma div_numerator_pos (mx my : positive) (ex ey : Z) :
  0 < div_numerator mx my ex ey
  /\ div_exponent mx my ex ey <= ex - ey
  /\ Zdigits2 (div_numerator mx my ex ey)
     = Zdigits2 (Z.pos mx) + (ex - ey - div_exponent mx my ex ey).
Proof.
  assert (He : div_exponent mx my ex ey <= ex - ey) by (unfold div_exponent; lia).
  unfold div_numerator. split; [|split; [exact He|]].
  - apply Z.mul_pos_pos; [lia|apply Z.pow_pos_nonneg; lia].
  - apply Zdigits2_mul_pow2; lia.
Qed.

(** The quotient has enough digits: rounding it never needs a negative
    shift. *)
Lemma div_quotient_digits (mx my : positive) (ex ey : Z) :
  div_exponent mx my ex ey
  <= fexp prec emax (Zdigits2 (div_numerator mx my ex ey / Z.pos my)
                     + div_exponent mx my ex ey).
Proof.
  destruct (div_numerator_pos mx my ex ey) as [Hpos [He Hd]].
  set (e' := div_exponent mx my ex ey) in *.
  set (m' := div_numerator mx my ex ey) in *.
  set (k := Zdigits2 m' - Zdigits2 (Z.pos my)).
  assert (Hq : k <= Zdigits2 (m' / Z.pos my)).
  { apply Zdigits2_ge.
    destruct (Z.le_gt_cases 0 (k - 1)) as [Hk|Hk].
    - apply Z.div_le_lower_bound; [lia|].
      pose proof (Zdigits2_bounds m' Hpos) as [Hl _].
      pose proof (Zdigits2_bounds (Z.pos my) ltac:(lia)) as [_ Hu].
      assert (Hd2 : 0 < Zdigits2 (Z.pos my)) by (cbn; lia).
      replace (Zdigits2 m' - 1) with (k - 1 + Zdigits2 (Z.pos my)) in Hl by (unfold k; lia).
      rewrite Z.pow_add_r in Hl by lia.
      assert (0 < 2 ^ (k - 1)) by (apply Z.pow_pos_nonneg; lia).
      nia.
    - rewrite Z.pow_neg_r by lia. apply Z.div_pos; lia. }
  assert (Hf : e' <= fexp prec emax (Zdigits2 (Z.pos mx) + ex - (Zdigits2 (Z.pos my) + ey)))
    by (unfold e', div_exponent; lia).
  unfold fexp, emin, prec, emax in *. unfold k in Hq. lia.
Qed.

(** Division: the quotient [x] of the magnitudes is rounded at an
    exponent [e1 <= c] whenever [x < 2^(c+53)], and in the normal range
    half a step of the grid is at most [x * 2^-53]. *)
Lemma div_Q (sx sy : bool) (mx my : positive) (ex ey : Z) (x : Q) (c : Z) :
  (x * (inject_Z (Z.pos my) * pow2 ey) == inject_Z (Z.pos mx) * pow2 ex)%Q ->
  -1074 <= c < 971 -> (x < pow2 (c + 53))%Q ->
  exists e1 : Z,
    e1 <= c
    /\ rounds_to (Float64.div (S754_finite sx mx ex) (S754_finite sy my ey))
         (xorb sx sy) x e1
    /\ ((pow2 (-1022) <= x)%Q -> (pow2 (e1 - 1) <= x * pow2 (-53))%Q).
Proof.
  intros Hx Hc Hlt.
  unfold Float64.div, SFdiv. rewrite SFdiv_core_binary_loc.
  destruct (div_numerator_pos mx my ex ey) as [Hpos [He Hd]].
  pose proof (div_quotient_digits mx my ex ey) as Hq.
  set (e' := div_exponent mx my ex ey) in *.
  set (m' := div_numerator mx my ex ey) in *.
  assert (Hm' : m' = Z.pos mx * 2 ^ (ex - ey - e')) by reflexivity.
  pose proof (Z.mod_pos_bound m' (Z.pos my) ltac:(lia)) as Hr.
  assert (Hq0 : 0 <= m' / Z.pos my) by (apply Z.div_pos; lia).
  assert (Hmag : is_magnitude x (m' / Z.pos my) (m' mod Z.pos my) (Z.pos my) e').
  { unfold is_magnitude. rewrite <- Z.div_mod by lia.
    apply (Qmult_inj_r _ _ (pow2 ey)); [intros E; pose proof (pow2_pos ey) as P; rewrite E in P; discriminate|].
    rewrite <- Qmult_assoc, Hx, Hm', inject_Z_mult, <- pow2_nonneg_Z by lia.
    rewrite <- !Qmult_assoc, <- !pow2_add.
    now replace (ex - ey - e' + (e' + ey)) with ex by lia. }
  assert (Hxpos : (0 < x)%Q).
  { assert (P : (0 < inject_Z (Z.pos my) * pow2 ey)%Q)
      by (apply Qmult_lt_0_compat; [reflexivity|apply pow2_pos]).
    assert (P' : (0 < inject_Z (Z.pos mx) * pow2 ex)%Q)
      by (apply Qmult_lt_0_compat; [reflexivity|apply pow2_pos]).
    rewrite <- Hx in P'.
    destruct (Qlt_le_dec 0 x) as [|Hn]; [assumption|exfalso].
    assert (x * (inject_Z (Z.pos my) * pow2 ey) <= 0)%Q by nra. lra. }
  assert (Hec : e' <= c).
  { (* the operands bound the quotient from below *)
    assert (Hf : e' <= fexp prec emax (Zdigits2 (Z.pos mx) + ex - (Zdigits2 (Z.pos my) + ey)))
      by (unfold e', div_exponent; lia).
    pose proof (Zdigits2_bounds (Z.pos mx) ltac:(lia)) as [Hl _].
    pose proof (Zdigits2_bounds (Z.pos my) ltac:(lia)) as [_ Hu].
    set (d1 := Zdigits2 (Z.pos mx)) in *. set (d2 := Zdigits2 (Z.pos my)) in *.
    assert (Hd1 : 0 < d1) by (unfold d1; cbn; lia).
    assert (Hd2 : 0 < d2) by (unfold d2; cbn; lia).
    assert (A : (pow2 (d1 - 1 + ex) <= inject_Z (Z.pos mx) * pow2 ex)%Q).
    { rewrite pow2_add. apply Qmult_le_compat_r; [|apply Qlt_le_weak, pow2_pos].
      rewrite pow2_nonneg_Z by lia. now rewrite <- Zle_Qle. }
    assert (B : (inject_Z (Z.pos my) * pow2 ey < pow2 (d2 + ey))%Q).
    { rewrite pow2_add. apply Qmult_lt_compat_r; [apply pow2_pos|].
      rewrite pow2_nonneg_Z by lia. now rewrite <- Zlt_Qlt. }
    assert (C : (pow2 (d1 - 1 + ex - (d2 + ey)) < x)%Q).
    { apply (Qmult_lt_pow2_cancel _ _ (d2 + ey)). rewrite <- pow2_add.
      replace (d1 - 1 + ex - (d2 + ey) + (d2 + ey)) with (d1 - 1 + ex) by lia.
      eapply Qle_lt_trans; [exact A|]. rewrite <- Hx.
      apply Qmult_lt_l; assumption. }
    assert (F : (pow2 (d1 - 1 + ex - (d2 + ey)) < pow2 (c + 53))%Q)
      by (eapply Qlt_trans; eassumption).
    apply pow2_lt_inv in F.
    unfold fexp, emin, prec, emax in *. lia. }
  pose proof (shift_of_upper x _ _ _ e' c Hq0 Hr Hmag Hec ltac:(lia) Hlt) as Hup.
  exists (e' + shift_of (m' / Z.pos my) e').
  split; [exact Hup|]. split.
  - apply binary_round_aux_Q; try assumption. lia.
  - intros Hnorm.
    assert (E1 : e' + shift_of (m' / Z.pos my) e'
                 = fexp prec emax (Zdigits2 (m' / Z.pos my) + e'))
      by (unfold shift_of; lia).
    rewrite E1. unfold fexp, emin, prec, emax.
    destruct (Z.max_spec (Zdigits2 (m' / Z.pos my) + e' - 53) (3 - 1024 - 53))
      as [[_ ->]|[Hge ->]].
    + change (3 - 1024 - 53 - 1) with (-1022 + -53). rewrite pow2_add.
      apply Qmult_le_compat_r; [exact Hnorm|apply Qlt_le_weak, pow2_pos].
    + assert (Hqpos : 0 < m' / Z.pos my).
      { destruct (Z.eq_dec (m' / Z.pos my) 0) as [E0|]; [|lia].
        rewrite E0 in Hq, Hge. cbn in Hq, Hge.
        unfold fexp, emin, prec, emax in Hq. lia. }
      pose proof (Zdigits2_bounds _ Hqpos) as [Hl _].
      pose proof (magnitude_lower x (m' / Z.pos my) (m' mod Z.pos my) (Z.pos my) e'
                    ltac:(lia) ltac:(lia) Hmag) as Hlow.
      replace (Zdigits2 (m' / Z.pos my) + e' - 53 - 1)
        with (Zdigits2 (m' / Z.pos my) - 1 + e' + -53) by lia.
      rewrite pow2_add. apply Qmult_le_compat_r; [|apply Qlt_le_weak, pow2_pos].
      eapply Qle_trans; [|exact Hlow].
      rewrite pow2_add. apply Qmult_le_compat_r; [|apply Qlt_le_weak, pow2_pos].
      assert (0 < Zdigits2 (m' / Z.pos my)) by (destruct (m' / Z.pos my); cbn in *; lia).
      rewrite pow2_nonneg_Z by lia. now rewrite <- Zle_Qle.
Qed.

(** ** Sums of positive floats *)

Lemma add_pos_Q (mx my : positive) (ex ey : Z) (x : Q) (c : Z) :
  (x == inject_Z (Z.pos mx) * pow2 ex + inject_Z (Z.pos my) * pow2 ey)%Q ->
  -1074 <= c < 971 -> (x < pow2 (c + 53))%Q ->
  exists e1 : Z,
    e1 <= c
    /\ rounds_to (Float64.add (S754_finite false mx ex) (S754_finite false my ey))
         false x e1.
Proof.
  intros Hx Hc Hlt. unfold Float64.add, SFadd.
  set (ez := Z.min ex ey).
  pose proof (shl_align_spec mx ex ez) as A. pose proof (shl_align_spec my ey ez) as B.
  destruct (shl_align mx ex ez) as [mx' ex']. destruct (shl_align my ey ez) as [my' ey'].
  destruct A as [Ax Am]. destruct B as [Bx Bm]. cbn [fst cond_Zopp].
  assert (Ex : ex' = ez) by (rewrite Ax; unfold ez; lia).
  assert (Ey : ey' = ez) by (rewrite Bx; unfold ez; lia).
  clear Ax Bx. rewrite Ex in Am. rewrite Ey in Bm.
  change (Z.pos mx' + Z.pos my') with (Z.pos (mx' + my')).
  cbn [binary_normalize].
  assert (V : (x == inject_Z (Z.pos (mx' + my')) * pow2 ez)%Q).
  { rewrite Hx, Pos2Z.inj_add, Am, Bm, inject_Z_plus, !inject_Z_mult.
    rewrite <- !pow2_nonneg_Z by (unfold ez; lia).
    rewrite Qmult_plus_distr_l, <- !Qmult_assoc, <- !pow2_add.
    replace (ex - ez + ez) with ex by lia. replace (ey - ez + ez) with ey by lia.
    reflexivity. }
  assert (F : fexp prec emax (Zdigits2 (Z.pos (mx' + my')) + ez) <= c).
  { apply (fexp_upper x); [lia|rewrite V; apply Qle_refl|exact Hlt|lia]. }
  exists (fexp prec emax (Zdigits2 (Z.pos (mx' + my')) + ez)).
  split; [exact F|]. apply binary_round_Q; [exact V|lia].
Qed.

(** ** Integers *)

Lemma of_int_exact (n : Z) :
  0 < n < 2 ^ 53 ->
  (to_Q (Float64.of_int n) == inject_Z n)%Q
  /\ exists (m : positive) (e : Z), Float64.of_int n = S754_finite false m e.
Proof.
  intros Hn. destruct n as [|p|p]; try lia.
  unfold Float64.of_int. cbn [binary_normalize].
  assert (V : (inject_Z (Z.pos p) == inject_Z (Z.pos p) * pow2 0)%Q)
    by (change (pow2 0) with 1%Q; ring).
  pose proof (Zdigits2_le (Z.pos p) 53 ltac:(lia) ltac:(lia)) as Hd.
  assert (Hd0 : 0 < Zdigits2 (Z.pos p)) by (cbn; lia).
  assert (F : fexp prec emax (Zdigits2 (Z.pos p) + 0) = Zdigits2 (Z.pos p) - 53)
    by (unfold fexp, emin, prec, emax; lia).
  pose proof (binary_round_Q false p 0 _ V ltac:(lia)) as H.
  rewrite F in H.
  assert (E : (to_Q (binary_round prec emax false p 0) == inject_Z (Z.pos p))%Q).
  { apply (rounds_to_exact _ _ _ (Z.pos p * 2 ^ (53 - Zdigits2 (Z.pos p))) H).
    rewrite inject_Z_mult, <- pow2_nonneg_Z by lia.
    rewrite <- Qmult_assoc, <- pow2_add.
    replace (53 - Zdigits2 (Z.pos p) + (Zdigits2 (Z.pos p) - 53)) with 0 by lia.
    exact V. }
  split; [exact E|].
  apply rounds_to_nonneg in H. destruct H as [_ [_ [_ [H0|[m3 [e3 [H3 _]]]]]]].
  - rewrite H0 in E. cbn in E. discriminate.
  - now exists m3, e3.
Qed.

Lemma of_int_pos_form (a : Z) :
  0 < a < 2 ^ 64 ->
  exists (m : positive) (e : Z),
    Float64.of_int a = S754_finite false m e
    /\ (inject_Z (Z.pos m) * pow2 e < pow2 65)%Q.
Proof.
  intros Ha. destruct a as [|p|p]; try lia.
  unfold Float64.of_int. cbn [binary_normalize].
  assert (V : (inject_Z (Z.pos p) == inject_Z (Z.pos p) * pow2 0)%Q)
    by (change (pow2 0) with 1%Q; ring).
  pose proof (Zdigits2_le (Z.pos p) 64 ltac:(lia) ltac:(lia)) as Hd.
  pose proof (Zdigits2_bounds (Z.pos p) ltac:(lia)) as [Hl _].
  assert (Hd0 : 0 < Zdigits2 (Z.pos p)) by (cbn; lia).
  set (e1 := fexp prec emax (Zdigits2 (Z.pos p) + 0)).
  assert (He1 : e1 <= 11 /\ (e1 <= 0 \/ 53 < Zdigits2 (Z.pos p)))
    by (unfold e1, fexp, emin, prec, emax; lia).
  pose proof (binary_round_Q false p 0 _ V ltac:(fold e1; lia)) as H.
  fold e1 in H. apply rounds_to_nonneg in H.
  destruct H as [H1 [H2 [_ HR]]].
  assert (A1 : (1 <= inject_Z (Z.pos p))%Q) by (rewrite <- (Zle_Qle 1); lia).
  assert (A2 : (inject_Z (Z.pos p) < pow2 64)%Q).
  { rewrite pow2_nonneg_Z by lia. rewrite <- Zlt_Qlt. lia. }
  assert (P1 : (pow2 (e1 - 1) <= pow2 10)%Q) by (apply pow2_le; lia).
  assert (P2 : (pow2 (e1 - 1) < inject_Z (Z.pos p))%Q).
  { destruct He1 as [_ [Hs|Hb]].
    - apply Qlt_le_trans with (pow2 0); [apply pow2_lt; lia|exact A1].
    - apply Qle_lt_trans with (pow2 10); [exact P1|].
      apply Qlt_le_trans with (pow2 53); [apply pow2_lt; lia|].
      rewrite pow2_nonneg_Z by lia. rewrite <- Zle_Qle.
      apply Z.le_trans with (2 ^ (Zdigits2 (Z.pos p) - 1)); [|exact Hl].
      apply Z.pow_le_mono_r; lia. }
  assert (P3 : (pow2 64 + pow2 10 < pow2 65)%Q) by (vm_compute; reflexivity).
  destruct HR as [H0|[m [e [E _]]]].
  - exfalso. rewrite H0 in H1. cbn [to_Q] in H1. lra.
  - exists m, e. split; [exact E|]. rewrite E in H2. cbn [to_Q] in H2. lra.
Qed.

(** ** Opposites *)

Lemma binary_round_aux_opp (s : bool) (m e : Z) (l : location) :
  binary_round_aux prec emax (negb s) m e l
  = SFopp (binary_round_aux prec emax s m e l).
Proof.
  unfold binary_round_aux.
  destruct (shr_fexp prec emax m e l) as [mrs' e'].
  destruct (shr_fexp prec emax _ e' loc_Exact) as [mrs'' e''].
  destruct (shr_m mrs''); [reflexivity| |reflexivity].
  destruct (e'' <=? emax - prec); reflexivity.
Qed.

Lemma binary_round_opp (m : positive) (e : Z) :
  binary_round prec emax true m e = SFopp (binary_round prec emax false m e).
Proof.
  unfold binary_round. destruct (shl_align m e _) as [mz ez].
  apply (binary_round_aux_opp false).
Qed.

Lemma of_int_opp (n : Z) : 0 < n -> Float64.of_int (- n) = SFopp (Float64.of_int n).
Proof.
  destruct n as [|p|p]; try lia. intros _.
  unfold Float64.of_int. cbn [Z.opp binary_normalize]. apply binary_round_opp.
Qed.

Lemma div_opp_l (s : bool) (m : positive) (e : Z) (s' : bool) (m' : positive) (e' : Z) :
  Float64.div (SFopp (S754_finite s m e)) (S754_finite s' m' e')
  = SFopp (Float64.div (S754_finite s m e) (S754_finite s' m' e')).
Proof.
  unfold Float64.div, SFdiv. cbn [SFopp].
  destruct (SFdiv_core_binary prec emax (Z.pos m) e (Z.pos m') e') as [[mz ez] lz].
  rewrite <- binary_round_aux_opp. f_equal. now destruct s, s'.
Qed.

Lemma mul_opp_l (s : bool) (m : positive) (e : Z) (s' : bool) (m' : positive) (e' : Z) :
  Float64.mul (SFopp (S754_finite s m e)) (S754_finite s' m' e')
  = SFopp (Float64.mul (S754_finite s m e) (S754_finite s' m' e')).
Proof.
  unfold Float64.mul, SFmul. cbn [SFopp].
  rewrite <- binary_round_aux_opp. f_equal. now destruct s, s'.
Qed.

Lemma sub_opp_pos (m : positive) (e : Z) (m' : positive) (e' : Z) :
  Float64.sub (SFopp (S754_finite false m e)) (S754_finite false m' e')
  = SFopp (Float64.add (S754_finite false m e) (S754_finite false m' e')).
Proof.
  unfold Float64.sub, Float64.add, SFsub, SFadd. cbn [SFopp negb cond_Zopp].
  destruct (shl_align m e (Z.min e e')) as [a ea].
  destruct (shl_align m' e' (Z.min e e')) as [b eb]. cbn [fst].
  change (- Z.pos a - Z.pos b) with (Z.neg (a + b)).
  change (Z.pos a + Z.pos b) with (Z.pos (a + b)).
  cbn [binary_normalize]. apply binary_round_opp.
Qed.

(** * round, NewAmount and MulF64 *)

(** Ties go away from zero: a float that is an integer and a half, below
    [2^51] in magnitude, is rounded to the next integer away from zero. *)
Lemma round_tie (U : float64 -> Z) (f : float64) (k : Z) :
  is_finite f = true -> (to_Q f == inject_Z k + (1 # 2))%Q -> 0 <= k < 2 ^ 51 ->
  round U f = k + 1 /\ round U (SFopp f) = - (k + 1).
Proof.
  intros Hf Hv Hk.
  assert (K0 : (0 <= inject_Z k)%Q) by (rewrite <- (Zle_Qle 0); lia).
  assert (K1 : (inject_Z k <= 2251799813685247)%Q)
    by (change 2251799813685247%Q with (inject_Z 2251799813685247); rewrite <- Zle_Qle; lia).
  destruct (finite_positive_form f Hf ltac:(lra)) as [m [e ->]].
  cbn [to_Q] in Hv.
  unfold round. rewrite !ltb_zero_negative, half_value. cbn [SFopp negative negb].
  change (Float64.sub (S754_finite true m e))
    with (Float64.sub (SFopp (S754_finite false m e))).
  rewrite sub_opp_pos.
  set (x := inject_Z (k + 1)).
  assert (Hx : (x == inject_Z (Z.pos m) * pow2 e
                     + inject_Z 4503599627370496 * pow2 (-53))%Q).
  { rewrite half_Q, Hv. unfold x. rewrite inject_Z_plus. change (inject_Z 1) with 1%Q. ring. }
  assert (Hlt : (x < pow2 (-1 + 53))%Q).
  { apply Qle_lt_trans with (pow2 51).
    - rewrite pow2_51. unfold x. rewrite inject_Z_plus. change (inject_Z 1) with 1%Q. lra.
    - apply pow2_lt. lia. }
  destruct (add_pos_Q m 4503599627370496 e (-53) x (-1) Hx ltac:(lia) Hlt)
    as [e1 [He1 HR]].
  pose proof (rounds_to_finite _ _ _ _ HR) as HF.
  assert (E : (to_Q (Float64.add (S754_finite false m e)
                       (S754_finite false 4503599627370496 (-53))) == x)%Q).
  { apply (rounds_to_exact _ _ e1 ((k + 1) * 2 ^ (- e1)) HR).
    rewrite inject_Z_mult, <- pow2_nonneg_Z by lia.
    rewrite <- Qmult_assoc, <- pow2_add.
    replace (- e1 + e1) with 0 by lia. change (pow2 0) with 1%Q. unfold x. ring. }
  set (Z' := Float64.add (S754_finite false m e)
               (S754_finite false 4503599627370496 (-53))) in *.
  assert (L : (inject_Z (k + 1) <= to_Q Z')%Q) by (rewrite E; apply Qle_refl).
  assert (R : (to_Q Z' < inject_Z (k + 1 + 1))%Q).
  { rewrite E. unfold x. rewrite <- Zlt_Qlt. lia. }
  split.
  - apply to_int64_between; try assumption. lia.
  - apply to_int64_opp_between; try assumption. lia.
Qed.

Section Claims.

(** The result of [int64(f)] where int64 cannot represent [f]. *)
Variable U : float64 -> Z.

(** C1.  [round]: a negative float has 0.5 subtracted, a float that is
    zero or positive has 0.5 added, and the result is converted to an
    integer, which discards the fraction: whenever int64 holds it, the
    integer is the truncation towards zero of the exact value of that
    difference or sum.  So a float that is an integer and a half (below
    [2^51] in magnitude) goes to the next integer away from zero: 2.5 to
    3 and -2.5 to -3. *)
Theorem round_half_away_from_zero (f : float64) :
  (negative f = true ->
   round U f = to_int64 U (Float64.sub f half)) /\
  (nonnegative f = true ->
   round U f = to_int64 U (Float64.add f half)) /\
  (to_Q half == 1 # 2)%Q /\
  (forall g, is_finite g = true ->
             Int64.in_range (Qtruncate (to_Q g)) = true ->
             to_int64 U g = Qtruncate (to_Q g)) /\
  (forall g k, is_finite g = true ->
               (to_Q g == inject_Z k + (1 # 2))%Q -> 0 <= k < 2 ^ 51 ->
               round U g = k + 1 /\ round U (SFopp g) = - (k + 1)) /\
  round U (of_ratio 5 2) = 3 /\ round U (of_ratio (-5) 2) = -3.
Proof.
  unfold round at 1 2. rewrite ltb_zero_negative.
  split; [now intros ->|].
  split; [intros H; now rewrite (negative_nonnegative _ H)|].
  split; [reflexivity|].
  split; [intros g Hg Hr; now apply to_int64_truncate|].
  split; [intros g k Hg Hv Hk; now apply round_tie|].
  split; reflexivity.
Qed.

(** C2.  [NewAmount] fails exactly on NaN and the two infinities, and on
    every finite float, however large, the error is nil. *)
Theorem NewAmount_error_iff (f : float64) (tokentype : Z) :
  valid f = true ->
  (snd (NewAmount U f tokentype) = errors_New "invalid bitcoin amount"
   <-> f = S754_nan \/ f = S754_infinity false \/ f = S754_infinity true) /\
  (is_finite f = true -> snd (NewAmount U f tokentype) = None).
Proof.
  intros Hv. unfold NewAmount.
  destruct f as [s|s| |s m e].
  - rewrite !IsInf_finite by easy. cbn.
    split; [|now destruct (tokentype =? 0)].
    destruct (tokentype =? 0); (split; [discriminate|intros [H|[H|H]]; discriminate]).
  - split; [|discriminate]. destruct s; cbn; (split; [|reflexivity]); auto.
  - split; [|discriminate]. cbn. split; auto.
  - rewrite !IsInf_finite by easy.
    assert (N : math.IsNaN (S754_finite s m e) = false).
    { destruct (math.IsNaN (S754_finite s m e)) eqn:E; [|reflexivity].
      apply IsNaN_spec in E. discriminate. }
    rewrite N. cbn [orb].
    split; [|now destruct (tokentype =? 0)].
    destruct (tokentype =? 0); (split; [discriminate|intros [H|[H|H]]; discriminate]).
Qed.

Lemma NewAmount_finite (f : float64) (tokentype : Z) :
  valid f = true -> is_finite f = true ->
  NewAmount U f tokentype
  = (if tokentype =? 0 then round U (Float64.mul f HaoPerBitcoin) else round U f,
     None).
Proof.
  intros Hv Hf. unfold NewAmount.
  rewrite !IsInf_finite by assumption.
  assert (N : math.IsNaN f = false).
  { destruct (math.IsNaN f) eqn:E; [|reflexivity].
    apply IsNaN_spec in E. subst f. discriminate. }
  rewrite N. cbn [orb]. now destruct (tokentype =? 0).
Qed.

(** C3.  One coin is 100,000,000 Hao, one raw unit is 1 Hao, and with
    token type 0 every finite input is multiplied by the float64
    constant [HaoPerBitcoin], which is exactly 10^8, before it is
    rounded. *)
Theorem NewAmount_one :
  NewAmount U (of_ratio 1 1) 0 = (100000000, None) /\
  (forall t, t <> 0 -> NewAmount U (of_ratio 1 1) t = (1, None)) /\
  (forall f, valid f = true -> is_finite f = true ->
             NewAmount U f 0 = (round U (Float64.mul f HaoPerBitcoin), None)) /\
  (to_Q HaoPerBitcoin == inject_Z (10 ^ 8))%Q.
Proof.
  split; [reflexivity|]. split; [|split]; [| |reflexivity].
  - intros t Ht. rewrite NewAmount_finite by reflexivity.
    apply Z.eqb_neq in Ht. now rewrite Ht.
  - intros f Hv Hf. now rewrite NewAmount_finite by assumption.
Qed.

(** C7.  [MulF64] is [round] of the float64 product of the amount and
    the factor, the rounding [NewAmount] applies: there is no error
    result, and when the product is finite the result is the amount
    [NewAmount] makes of it as a count of raw units.  0.5 times 1000 Hao
    is 500 Hao; 0.5 times 1 Hao is 1 Hao and 0.5 times -1 Hao is -1 Hao,
    half a Hao going away from zero. *)
Theorem MulF64_round (a : Amount) (f : float64) :
  MulF64 U a f = round U (Float64.mul (Float64.of_int a) f) /\
  (forall t, t <> 0 ->
     valid (Float64.mul (Float64.of_int a) f) = true ->
     is_finite (Float64.mul (Float64.of_int a) f) = true ->
     NewAmount U (Float64.mul (Float64.of_int a) f) t = (MulF64 U a f, None)) /\
  MulF64 U 1000 (of_ratio 1 2) = 500 /\
  MulF64 U 1 (of_ratio 1 2) = 1 /\
  MulF64 U (-1) (of_ratio 1 2) = -1.
Proof.
  split; [reflexivity|]. split; [|repeat split].
  intros t Ht Hv Hf. rewrite NewAmount_finite by assumption.
  apply Z.eqb_neq in Ht. now rewrite Ht.
Qed.

(** C8.  The constant 0.123456785 in coins: its product with 1e8 is the
    float64 12345678.5 exactly, which rounds away from zero to 12345679
    Hao; the negated constant gives -12345679. *)
Theorem NewAmount_half_Hao :
  NewAmount U (of_ratio 123456785 1000000000) 0 = (12345679, None) /\
  NewAmount U (of_ratio (-123456785) 1000000000) 0 = (-12345679, None) /\
  Float64.mul (of_ratio 123456785 1000000000) HaoPerBitcoin = of_ratio 123456785 10 /\
  (to_Q (of_ratio 123456785 10) == 123456785 # 10)%Q.
Proof. repeat split. Qed.

(** C10.  The token type matters only by being zero or not: two nonzero
    token types give the same result, and for a finite float and a
    nonzero token type the amount is [round f], without the factor. *)
Theorem NewAmount_tokentype (f : float64) (t1 t2 : Z) :
  t1 <> 0 -> t2 <> 0 ->
  NewAmount U f t1 = NewAmount U f t2 /\
  (valid f = true -> is_finite f = true -> NewAmount U f t1 = (round U f, None)).
Proof.
  intros H1 H2. apply Z.eqb_neq in H1, H2. split.
  - unfold NewAmount. now rewrite H1, H2.
  - intros Hv Hf. rewrite NewAmount_finite by assumption. now rewrite H1.
Qed.

End Claims.

Lemma round_half_away_from_zero_witness :
  round amd64_unrepresentable (of_ratio 7 2) = 4
  /\ round amd64_unrepresentable (SFopp (of_ratio 7 2)) = -4.
Proof.
  destruct (round_half_away_from_zero amd64_unrepresentable (of_ratio 7 2))
    as [_ [_ [_ [_ [H _]]]]].
  apply (H (of_ratio 7 2) 3); [reflexivity|reflexivity|lia].
Defined.

Lemma NewAmount_one_witness :
  NewAmount amd64_unrepresentable (of_ratio 1 1) 7 = (1, None)
  /\ NewAmount amd64_unrepresentable (of_ratio 3 2) 0
     = (round amd64_unrepresentable (Float64.mul (of_ratio 3 2) HaoPerBitcoin), None).
Proof.
  destruct (NewAmount_one amd64_unrepresentable) as [_ [H1 [H2 _]]].
  split; [apply H1; lia|apply H2; reflexivity].
Defined.

Lemma MulF64_round_witness :
  NewAmount amd64_unrepresentable (Float64.mul (Float64.of_int 1000) (of_ratio 1 2)) 1
  = (MulF64 amd64_unrepresentable 1000 (of_ratio 1 2), None).
Proof.
  destruct (MulF64_round amd64_unrepresentable 1000 (of_ratio 1 2)) as [_ [H _]].
  apply H; [lia|reflexivity|reflexivity].
Defined.

Lemma NewAmount_error_iff_witness :
  valid (of_ratio 1 1) = true
  /\ snd (NewAmount amd64_unrepresentable (of_ratio 1 1) 0) = None.
Proof.
  split; [reflexivity|].
  apply (NewAmount_error_iff amd64_unrepresentable (of_ratio 1 1) 0); reflexivity.
Defined.

Lemma NewAmount_tokentype_witness :
  NewAmount amd64_unrepresentable (of_ratio 5 2) 1
  = NewAmount amd64_unrepresentable (of_ratio 5 2) 7.
Proof.
  destruct (NewAmount_tokentype amd64_unrepresentable (of_ratio 5 2) 1 7)
    as [H _]; [lia|lia|exact H].
Defined.

(** * AmountUnit.String *)

Lemma read_FormatInt (n : Z) : read_decimal (strconv.FormatInt n) = Some n.
Proof.
  unfold read_decimal, strconv.FormatInt.
  rewrite NilZero.isi.
  - cbn [option_map]. now rewrite DecimalZ.of_to.
  - destruct n; cbn; try discriminate; intros H; injection H; apply Unsigned.to_uint_nonnil.
  - destruct n; cbn; try discriminate; intros H; injection H; apply Unsigned.to_uint_nonnil.
Qed.

(** C6.  [AmountUnit.String] is a total function: the six named
    exponents give their labels ("MOMC" for 6, "Hao" for -8), and every
    other exponent [n] gives "1e", the decimal numeral of [n] and " OMC"
    ("1e2 OMC" for 2).  The numeral reads back as [n]. *)
Theorem AmountUnit_String_labels :
  AmountUnit_String AmountMegaOMC = "MOMC"%string /\
  AmountUnit_String AmountKiloOMC = "kOMC"%string /\
  AmountUnit_String AmountOMC = "OMC"%string /\
  AmountUnit_String AmountMilliOMC = "mOMC"%string /\
  AmountUnit_String AmountMicroOMC = "μOMC"%string /\
  AmountUnit_String AmountHao = "Hao"%string /\
  (forall n : AmountUnit,
     n <> 6 -> n <> 3 -> n <> 0 -> n <> -3 -> n <> -6 -> n <> -8 ->
     AmountUnit_String n = append "1e" (append (strconv.FormatInt n) " OMC")
     /\ read_decimal (strconv.FormatInt n) = Some n) /\
  AmountUnit_String 2 = "1e2 OMC"%string.
Proof.
  repeat (split; [reflexivity|]). split; [|reflexivity].
  intros n H6 H3 H0 H3' H6' H8. split; [|apply read_FormatInt].
  unfold AmountUnit_String, AmountMegaOMC, AmountKiloOMC, AmountOMC,
    AmountMilliOMC, AmountMicroOMC, AmountHao.
  repeat match goal with
         | H : n <> ?k |- context [n =? ?k] =>
             rewrite (proj2 (Z.eqb_neq n k) H)
         end.
  reflexivity.
Qed.

Lemma AmountUnit_String_labels_witness :
  AmountUnit_String (-400) = "1e-400 OMC"%string
  /\ read_decimal (strconv.FormatInt (-400)) = Some (-400).
Proof.
  destruct AmountUnit_String_labels as [_ [_ [_ [_ [_ [_ [H _]]]]]]].
  apply (H (-400)); lia.
Defined.

(** * ToUnit

    The units around the named ones; the statement for every unit comes
    with the further properties. *)

Lemma Pow10_8 :
  math.Pow10 (Int64.add AmountOMC 8) = S754_finite false 6710886400000000 (-26).
Proof. vm_compute. reflexivity. Qed.

(** Up to 10^22 the powers of ten are float64 numbers and [Pow10] gives
    them exactly. *)
Lemma Pow10_exact (k : Z) :
  0 <= k <= 22 ->
  is_finite (math.Pow10 k) = true /\ (to_Q (math.Pow10 k) == inject_Z (10 ^ k))%Q.
Proof.
  intros H.
  assert (C : check_range 23 0
                (fun k => is_finite (math.Pow10 k)
                          && Qeq_bool (to_Q (math.Pow10 k)) (inject_Z (10 ^ k)))
              = true) by (vm_compute; reflexivity).
  pose proof (check_range_spec _ _ _ C k) as E. cbv beta in E.
  destruct (andb_prop _ _ (E ltac:(lia))) as [E1 E2].
  split; [exact E1|]. now apply Qeq_bool_iff.
Qed.

Lemma Pow10_form (k : Z) :
  0 <= k <= 22 ->
  exists (mk : positive) (ek : Z),
    math.Pow10 k = S754_finite false mk ek
    /\ (inject_Z (Z.pos mk) * pow2 ek == inject_Z (10 ^ k))%Q.
Proof.
  intros Hk. destruct (Pow10_exact k Hk) as [Hf Hv].
  assert (P : (0 < to_Q (math.Pow10 k))%Q).
  { rewrite Hv. rewrite <- (Zlt_Qlt 0). apply Z.pow_pos_nonneg; lia. }
  destruct (finite_positive_form _ Hf P) as [mk [ek E]].
  exists mk, ek. split; [exact E|]. rewrite E in Hv. exact Hv.
Qed.

Lemma Pow10_neg_form (k : Z) :
  -22 <= k <= 0 ->
  exists (mk : positive) (ek : Z),
    math.Pow10 k = S754_finite false mk ek
    /\ (pow2 (-74) <= inject_Z (Z.pos mk) * pow2 ek)%Q.
Proof.
  intros Hk.
  assert (C : check_range 23 (-22)
                (fun k => match math.Pow10 k with
                          | S754_finite false m e =>
                              Qle_bool (pow2 (-74)) (inject_Z (Z.pos m) * pow2 e)
                          | _ => false
                          end) = true) by (vm_compute; reflexivity).
  pose proof (check_range_spec _ _ _ C k) as E. cbv beta in E.
  specialize (E ltac:(lia)). clear C.
  destruct (math.Pow10 k) as [s|s| |[] m e]; try discriminate E.
  exists m, e. split; [reflexivity|]. now apply Qle_bool_iff.
Qed.

Lemma ToUnit_zero (u : AmountUnit) :
  -30 <= u <= 14 -> exists s, ToUnit 0 u = S754_zero s.
Proof.
  intros Hu. unfold ToUnit, Int64.add.
  rewrite wrap_id by (unfold Int64.min_int, Int64.max_int; lia).
  assert (C : check_range 45 (-22)
                (fun k => match math.Pow10 k with
                          | S754_finite _ _ _ => true
                          | _ => false
                          end) = true) by (vm_compute; reflexivity).
  pose proof (check_range_spec _ _ _ C (u + 8)) as E. cbv beta in E.
  specialize (E ltac:(lia)). clear C.
  destruct (math.Pow10 (u + 8)) as [s|s| |s m e]; try discriminate.
  exists (xorb false s). reflexivity.
Qed.

Lemma ToUnit_opp (a : Amount) (u : AmountUnit) :
  0 < a -> -30 <= u <= 14 ->
  is_finite (Float64.of_int a) = true ->
  ToUnit (- a) u = SFopp (ToUnit a u).
Proof.
  intros Ha Hu Hf. unfold ToUnit, Int64.add.
  rewrite wrap_id by (unfold Int64.min_int, Int64.max_int; lia).
  rewrite of_int_opp by assumption.
  assert (C : check_range 45 (-22)
                (fun k => match math.Pow10 k with
                          | S754_finite _ _ _ => true
                          | _ => false
                          end) = true) by (vm_compute; reflexivity).
  pose proof (check_range_spec _ _ _ C (u + 8)) as E. cbv beta in E.
  specialize (E ltac:(lia)). clear C.
  destruct (math.Pow10 (u + 8)) as [s|s| |s m e]; try discriminate.
  destruct (Float64.of_int a) as [s'|s'| |s' m' e'] eqn:EA; try discriminate.
  - now destruct s', s.
  - apply div_opp_l.
Qed.

(** For a positive amount below [2^53] and a unit from [AmountHao] up to
    exponent 14, [ToUnit] is within [2^-53] (relative) of the exact
    quotient [a / 10^(u+8)]. *)
Lemma ToUnit_pos_accuracy (a : Amount) (u : AmountUnit) :
  0 < a < 2 ^ 53 -> -8 <= u <= 14 ->
  exists (m : positive) (e : Z),
    ToUnit a u = S754_finite false m e
    /\ (- (inject_Z a * pow2 (-53))
        <= inject_Z (Z.pos m) * pow2 e * inject_Z (10 ^ (u + 8)) - inject_Z a)%Q
    /\ (inject_Z (Z.pos m) * pow2 e * inject_Z (10 ^ (u + 8)) - inject_Z a
        <= inject_Z a * pow2 (-53))%Q.
Proof.
  intros Ha Hu.
  destruct (of_int_exact a Ha) as [HX [ma [ea EX]]].
  rewrite EX in HX. cbn [to_Q] in HX.
  unfold ToUnit, Int64.add.
  rewrite wrap_id by (unfold Int64.min_int, Int64.max_int; lia).
  destruct (Pow10_form (u + 8) ltac:(lia)) as [mk [ek [EK HK]]].
  rewrite EX, EK.
  set (T := inject_Z (10 ^ (u + 8))) in *.
  assert (T1 : (1 <= T)%Q).
  { unfold T. rewrite <- (Zle_Qle 1).
    assert (0 < 10 ^ (u + 8)) by (apply Z.pow_pos_nonneg; lia). lia. }
  assert (T2 : (T <= inject_Z (10 ^ 22))%Q).
  { unfold T. rewrite <- Zle_Qle. apply Z.pow_le_mono_r; lia. }
  assert (A1 : (1 <= inject_Z a)%Q) by (rewrite <- (Zle_Qle 1); lia).
  assert (A2 : (inject_Z a < pow2 53)%Q).
  { rewrite pow2_nonneg_Z by lia. rewrite <- Zlt_Qlt. lia. }
  set (x := (inject_Z a / T)%Q).
  assert (HxT : (x * T == inject_Z a)%Q).
  { unfold x. field. intros E. rewrite E in T1. lra. }
  assert (Hx0 : (0 < x)%Q).
  { destruct (Qlt_le_dec 0 x) as [|Hn]; [assumption|exfalso].
    assert (x * T <= 0)%Q by nra. lra. }
  assert (Hx : (x * (inject_Z (Z.pos mk) * pow2 ek) == inject_Z (Z.pos ma) * pow2 ea)%Q)
    by (rewrite HK, HX; exact HxT).
  assert (Hlt : (x < pow2 (0 + 53))%Q).
  { change (0 + 53) with 53. apply Qle_lt_trans with (inject_Z a); [|exact A2]. nra. }
  destruct (div_Q false false ma mk ea ek x 0 Hx ltac:(lia) Hlt) as [e1 [He1 [HR Hrel]]].
  assert (Hnorm : (pow2 (-1022) <= x)%Q).
  { pose proof pow2_m1022_tiny as K. pose proof (pow2_pos (-1022)) as P.
    assert (T0 : (0 < T)%Q) by lra.
    apply (Qmult_le_r _ _ T T0). rewrite HxT.
    apply Qle_trans with (pow2 (-1022) * inject_Z (10 ^ 22))%Q; [|lra].
    apply Qmult_le_l; assumption. }
  specialize (Hrel Hnorm).
  cbn [xorb] in HR. apply rounds_to_nonneg in HR.
  destruct HR as [H1 [H2 [_ HQ]]].
  pose proof (pow2_pos (-53)) as Pu.
  set (R := Float64.div (S754_finite false ma ea) (S754_finite false mk ek)) in *.
  destruct HQ as [H0|[mq [eq [HQ Heq]]]].
  - exfalso. rewrite H0 in H1. cbn [to_Q] in H1.
    assert (x * pow2 (-53) < x * 1)%Q.
    { apply Qmult_lt_l; [assumption|]. vm_compute. reflexivity. }
    lra.
  - exists mq, eq. split; [exact HQ|].
    rewrite HQ in H1, H2. cbn [to_Q] in H1, H2.
    set (v := (inject_Z (Z.pos mq) * pow2 eq)%Q) in *.
    assert (T0 : (0 < T)%Q) by lra.
    assert (B1 : (- (x * pow2 (-53)) <= v - x)%Q) by lra.
    assert (B2 : (v - x <= x * pow2 (-53))%Q) by lra.
    rewrite <- HxT.
    remember (pow2 (-53)) as uu. clear - B1 B2 T0. split; nra.
Qed.

(** The value of [ToUnit]: for an amount below [2^53] in magnitude and a unit
    from [AmountHao] up to exponent 14, [ToUnit] times [10^(u+8)] differs
    from the amount by at most [|a| * 2^-53]. *)
Lemma ToUnit_accuracy (a : Amount) (u : AmountUnit) :
  - 2 ^ 53 < a < 2 ^ 53 -> -8 <= u <= 14 ->
  is_finite (ToUnit a u) = true
  /\ (Qabs (to_Q (ToUnit a u) * inject_Z (10 ^ (u + 8)) - inject_Z a)
      <= Qabs (inject_Z a) * pow2 (-53))%Q.
Proof.
  intros Ha Hu.
  destruct (Z.lt_trichotomy a 0) as [Hneg|[->|Hpos]].
  - remember (- a) as b eqn:Eb.
    assert (Ea : a = - b) by lia. subst a. clear Eb.
    assert (Hp : 0 < b < 2 ^ 53) by lia.
    destruct (ToUnit_pos_accuracy b u Hp Hu) as [m [e [E [B1 B2]]]].
    destruct (of_int_exact b Hp) as [_ [ma [ea EA]]].
    rewrite ToUnit_opp by (try lia; rewrite EA; reflexivity).
    rewrite E. cbn [SFopp negb is_finite to_Q]. split; [reflexivity|].
    rewrite inject_Z_opp.
    assert (P : (0 < inject_Z b)%Q) by (rewrite <- (Zlt_Qlt 0); lia).
    apply Qabs_Qle_condition. rewrite (Qabs_neg (- inject_Z b)) by lra.
    split; lra.
  - destruct (ToUnit_zero u ltac:(lia)) as [s ->]. split; [reflexivity|].
    cbn [to_Q]. change (inject_Z 0) with 0%Q.
    apply Qabs_Qle_condition. change (Qabs 0) with 0%Q. split; lra.
  - destruct (ToUnit_pos_accuracy a u ltac:(lia) Hu) as [m [e [E [B1 B2]]]].
    rewrite E. cbn [is_finite to_Q]. split; [reflexivity|].
    assert (P : (0 < inject_Z a)%Q) by (rewrite <- (Zlt_Qlt 0); lia).
    apply Qabs_Qle_condition. rewrite (Qabs_pos (inject_Z a)) by lra.
    split; lra.
Qed.

(** For every int64 amount and every unit from exponent -30 up to
    [AmountHao] the quotient is finite. *)
Lemma ToUnit_finite (a : Amount) (u : AmountUnit) :
  Int64.in_range a = true -> -30 <= u <= -8 -> is_finite (ToUnit a u) = true.
Proof.
  intros Hr Hu.
  unfold Int64.in_range, Int64.min_int, Int64.max_int in Hr.
  apply andb_true_iff in Hr. destruct Hr as [Hr1 Hr2].
  apply Z.leb_le in Hr1, Hr2.
  assert (Pos : forall b, 0 < b < 2 ^ 64 ->
                  is_finite (Float64.of_int b) = true
                  /\ is_finite (ToUnit b u) = true).
  { intros b Hb.
    destruct (of_int_pos_form b Hb) as [mx [ex [EX BX]]].
    split; [rewrite EX; reflexivity|].
    unfold ToUnit, Int64.add.
    rewrite wrap_id by (unfold Int64.min_int, Int64.max_int; lia).
    destruct (Pow10_neg_form (u + 8) ltac:(lia)) as [mk [ek [EK BK]]].
    rewrite EX, EK.
    set (X := (inject_Z (Z.pos mx) * pow2 ex)%Q) in *.
    set (Y := (inject_Z (Z.pos mk) * pow2 ek)%Q) in *.
    pose proof (pow2_pos (-74)) as PY.
    assert (X0 : (0 < X)%Q) by (apply Qmult_lt_0_compat; [reflexivity|apply pow2_pos]).
    set (x := (X / Y)%Q).
    assert (Hx : (x * Y == X)%Q).
    { unfold x. field. intros E. rewrite E in BK. lra. }
    assert (Hlt : (x < pow2 (86 + 53))%Q).
    { destruct (Qlt_le_dec x (pow2 (86 + 53))) as [|Hn]; [assumption|exfalso].
      assert (K : (pow2 (86 + 53) * pow2 (-74) == pow2 65)%Q)
        by (rewrite <- pow2_add; reflexivity).
      assert (pow2 (86 + 53) * pow2 (-74) <= x * Y)%Q.
      { apply Qle_trans with (x * pow2 (-74))%Q.
        - apply Qmult_le_compat_r; [exact Hn|apply Qlt_le_weak, PY].
        - apply Qmult_le_l; [|exact BK].
          apply Qlt_le_trans with (pow2 (86 + 53)); [apply pow2_pos|exact Hn]. }
      lra. }
    destruct (div_Q false false mx mk ex ek x 86 Hx ltac:(lia) Hlt) as [e1 [_ [HR _]]].
    exact (rounds_to_finite _ _ _ _ HR). }
  destruct (Z.lt_trichotomy a 0) as [Hneg|[->|Hpos]].
  - remember (- a) as b eqn:Eb.
    assert (Ea : a = - b) by lia. subst a. clear Eb.
    destruct (Pos b ltac:(lia)) as [F1 F2].
    rewrite ToUnit_opp by (try lia; exact F1). now rewrite is_finite_opp.
  - destruct (ToUnit_zero u ltac:(lia)) as [s ->]. reflexivity.
  - apply Pos. lia.
Qed.

Example ToUnit_OMC : ToUnit 44433322211100 AmountOMC = of_ratio 444333222111 1000000.
Proof. reflexivity. Qed.

(** * Format

    The digits and the layout of the number; the statement for every
    unit comes with the further properties. *)

Module strconv_facts.
Import strconv.

Lemma uint_digits_ok (u : Decimal.uint) : digits_ok (uint_digits u).
Proof. induction u; cbn; constructor; (lia || assumption). Qed.

Lemma drop_zeros_ok (l : list Z) : digits_ok l -> digits_ok (drop_zeros l).
Proof.
  induction 1 as [|c l Hc Hl IH]; cbn; [constructor|].
  destruct c; try (constructor; assumption). exact IH.
Qed.

Lemma trim_ok (a : decimal) : digits_ok (d a) -> digits_ok (d (trim a)).
Proof.
  intros H. unfold trim. cbn [d].
  apply Forall_rev, drop_zeros_ok, Forall_rev, H.
Qed.

Lemma Assign_ok (v : Z) : digits_ok (d (Assign v)).
Proof.
  destruct v; cbn [Assign]; try constructor.
  apply trim_ok. cbn [d]. apply uint_digits_ok.
Qed.

Lemma AssignShift_ok (mant k : Z) : digits_ok (d (AssignShift mant k)).
Proof.
  unfold AssignShift. destruct (0 <=? k); [apply Assign_ok|].
  pose proof (Assign_ok (mant * 5 ^ (- k))) as H.
  destruct (d (Assign (mant * 5 ^ (- k)))) eqn:E; [now rewrite E|exact H].
Qed.

Lemma firstn_ok (n : nat) (l : list Z) : digits_ok l -> digits_ok (firstn n l).
Proof.
  intros H. revert n. induction H as [|c l Hc Hl IH]; intros [|n]; cbn;
    try constructor; try assumption. apply IH.
Qed.

Lemma RoundDown_ok (a : decimal) (n : Z) :
  digits_ok (d a) -> digits_ok (d (RoundDown a n)).
Proof.
  intros H. unfold RoundDown. destruct ((n <? 0) || (nd a <=? n)); [exact H|].
  apply trim_ok. cbn [d]. now apply firstn_ok.
Qed.

Lemma incr_last_ok (r r' : list Z) :
  digits_ok r -> incr_last r = Some r' -> digits_ok r'.
Proof.
  induction 1 as [|c l Hc Hl IH]; cbn; [discriminate|].
  destruct (c <? 9) eqn:E.
  - intros [= <-]. apply Z.ltb_lt in E. constructor; [lia|assumption].
  - exact IH.
Qed.

Lemma RoundUp_ok (a : decimal) (n : Z) :
  digits_ok (d a) -> digits_ok (d (RoundUp a n)).
Proof.
  intros H. unfold RoundUp. destruct ((n <? 0) || (nd a <=? n)); [exact H|].
  destruct (incr_last (rev (firstn (Z.to_nat n) (d a)))) as [r|] eqn:E; cbn [d].
  - apply Forall_rev. eapply incr_last_ok; [|exact E].
    apply Forall_rev. now apply firstn_ok.
  - constructor; [lia|constructor].
Qed.

Lemma Round_ok (a : decimal) (n : Z) :
  digits_ok (d a) -> digits_ok (d (Round a n)).
Proof.
  intros H. unfold Round. destruct ((n <? 0) || (nd a <=? n)); [exact H|].
  destruct (shouldRoundUp a n); [now apply RoundUp_ok|now apply RoundDown_ok].
Qed.

Lemma digit_ok (a : decimal) (i : Z) : digits_ok (d a) -> 0 <= digit a i <= 9.
Proof.
  intros H. unfold digit.
  destruct (nth_in_or_default (Z.to_nat i) (d a) 0) as [Hin| ->]; [|lia].
  unfold digits_ok in H. rewrite Forall_forall in H. now apply H.
Qed.

(** ** Characters *)

Lemma digit_char_digit (c : Z) : 0 <= c <= 9 -> is_digit (digit_char c) = true.
Proof.
  intros H.
  assert (E : c = 0 \/ c = 1 \/ c = 2 \/ c = 3 \/ c = 4 \/ c = 5 \/ c = 6
              \/ c = 7 \/ c = 8 \/ c = 9) by lia.
  repeat (destruct E as [-> | E]; [reflexivity|]). now subst.
Qed.

Lemma is_digit_plain (c : ascii) : is_digit c = true -> plain c = true.
Proof.
  unfold is_digit, plain. intros H. apply andb_true_iff in H. destruct H as [H1 H2].
  apply Nat.leb_le in H1.
  destruct (Ascii.eqb_spec c " ") as [->|_]; [cbn in H1; lia|].
  destruct (Ascii.eqb_spec c ".") as [->|_]; [cbn in H1; lia|].
  reflexivity.
Qed.

Lemma digits_string_length (l : list Z) :
  String.length (digits_string l) = List.length l.
Proof.
  unfold digits_string. induction l as [|c l IH]; [reflexivity|].
  cbn [map string_of_list_ascii String.length List.length]. now rewrite IH.
Qed.

Lemma digits_string_all_digits (l : list Z) :
  digits_ok l -> all_digits (digits_string l) = true.
Proof.
  induction 1 as [|c l Hc Hl IH]; [reflexivity|].
  unfold digits_string in *. cbn [map string_of_list_ascii all_digits].
  now rewrite digit_char_digit, IH.
Qed.

Lemma all_digits_plain (s : string) : all_digits s = true -> all_plain s = true.
Proof.
  induction s as [|c s IH]; [reflexivity|]. cbn. intros H.
  apply andb_true_iff in H. destruct H as [H1 H2].
  now rewrite is_digit_plain, IH.
Qed.

Lemma all_plain_app (s t : string) :
  all_plain (append s t) = all_plain s && all_plain t.
Proof. induction s as [|c s IH]; cbn; [reflexivity|]. now rewrite IH, andb_assoc. Qed.

Lemma number_part_plain (s t : string) :
  all_plain s = true -> number_part (append s (String " " t)) = number_part s.
Proof.
  induction s as [|c s IH]; cbn; [reflexivity|]. intros H.
  apply andb_true_iff in H. destruct H as [H1 H2].
  destruct (Ascii.eqb c " "); [reflexivity|]. now rewrite IH.
Qed.

Lemma number_part_id (s : string) : all_plain s = true -> number_part s = s.
Proof.
  induction s as [|c s IH]; cbn; [reflexivity|]. intros H.
  apply andb_true_iff in H. destruct H as [H1 H2].
  unfold plain in H1. apply andb_true_iff in H1. destruct H1 as [H1 _].
  apply negb_true_iff in H1. rewrite H1. now rewrite IH.
Qed.

Lemma number_part_point (s t u : string) :
  all_plain s = true -> all_plain t = true ->
  number_part (append (append s (String "." t)) (String " " u))
  = append s (String "." t).
Proof.
  induction s as [|c s IH]; cbn.
  - intros _ Ht. f_equal. rewrite number_part_plain by assumption.
    now apply number_part_id.
  - intros H Ht. apply andb_true_iff in H. destruct H as [H1 H2].
    unfold plain in H1. apply andb_true_iff in H1. destruct H1 as [H1 _].
    apply negb_true_iff in H1. rewrite H1. now rewrite IH.
Qed.

Lemma after_point_plain (s : string) : all_plain s = true -> after_point s = None.
Proof.
  induction s as [|c s IH]; cbn; [reflexivity|]. intros H.
  apply andb_true_iff in H. destruct H as [H1 H2].
  unfold plain in H1. apply andb_true_iff in H1. destruct H1 as [_ H1].
  apply negb_true_iff in H1. rewrite H1. now apply IH.
Qed.

Lemma after_point_app (s t : string) :
  all_plain s = true -> after_point (append s (String "." t)) = Some t.
Proof.
  induction s as [|c s IH]; cbn; [reflexivity|]. intros H.
  apply andb_true_iff in H. destruct H as [H1 H2].
  unfold plain in H1. apply andb_true_iff in H1. destruct H1 as [_ H1].
  apply negb_true_iff in H1. rewrite H1. now apply IH.
Qed.

(** ** The layout of [fmtF] *)

Lemma fmtF_layout (neg : bool) (a : decimal) (prec : Z) :
  fmtF neg a prec
  = append (if neg then "-"%string else EmptyString)
      (append (integer_part a)
         (if 0 <? prec then String "." (fraction_part a prec) else EmptyString)).
Proof. reflexivity. Qed.

Lemma zeros_ok (n : Z) : digits_ok (zeros n).
Proof. unfold zeros. apply Forall_forall. intros x Hx. apply repeat_spec in Hx. lia. Qed.

Lemma integer_part_digits (a : decimal) :
  digits_ok (d a) -> all_digits (integer_part a) = true.
Proof.
  intros H. unfold integer_part. destruct (0 <? dp a); [|reflexivity].
  apply digits_string_all_digits, Forall_app. split; [now apply firstn_ok|apply zeros_ok].
Qed.

Lemma fraction_part_digits (a : decimal) (prec : Z) :
  digits_ok (d a) -> all_digits (fraction_part a prec) = true.
Proof.
  intros H. apply digits_string_all_digits, Forall_forall.
  intros x Hx. apply in_map_iff in Hx. destruct Hx as [i [<- _]].
  cbv zeta. destruct ((0 <=? dp a + Z.of_nat i) && (dp a + Z.of_nat i <? nd a)); [|lia].
  now apply digit_ok.
Qed.

Lemma fraction_part_length (a : decimal) (prec : Z) :
  0 <= prec -> Z.of_nat (String.length (fraction_part a prec)) = prec.
Proof.
  intros H. unfold fraction_part.
  rewrite digits_string_length, length_map, length_seq. lia.
Qed.

Lemma genericFtoa_f_fixed (s : bool) (m : positive) (e prec : Z) :
  0 <= prec ->
  genericFtoa_f (S754_finite s m e) prec = fmtF s (fixed_decimal m e prec) prec.
Proof.
  intros H. unfold genericFtoa_f, fixed_decimal.
  replace (e + mantbits - mantbits) with e by lia.
  destruct (prec <? 0) eqn:E; [apply Z.ltb_lt in E; lia|reflexivity].
Qed.

Lemma fixed_decimal_ok (m : positive) (e prec : Z) :
  digits_ok (d (fixed_decimal m e prec)).
Proof. apply Round_ok, AssignShift_ok. Qed.

End strconv_facts.

Import strconv_facts.

Lemma append_assoc (a b c : string) :
  append (append a b) c = append a (append b c).
Proof. induction a as [|x a IH]; cbn; [reflexivity|]. now rewrite IH. Qed.

Lemma append_nil_r (a : string) : append a EmptyString = a.
Proof. induction a as [|x a IH]; cbn; [reflexivity|]. now rewrite IH. Qed.

Lemma sign_plain (s : bool) :
  all_plain (if s then "-"%string else EmptyString) = true.
Proof. now destruct s. Qed.

(** The number [genericFtoa_f] writes for a finite float at a precision
    that is not negative: sign, digits, and after a point exactly
    [prec] digits (no point when [prec] is 0). *)
Lemma genericFtoa_f_fraction (x : float64) (prec : Z) (units : string) :
  is_finite x = true -> 0 <= prec ->
  exists (neg : bool) (ip fr : string),
    number_part (append (strconv.genericFtoa_f x prec) (String " " units))
    = append (if neg then "-"%string else EmptyString)
        (append ip (if 0 <? prec then String "." fr else EmptyString))
    /\ all_digits ip = true /\ all_digits fr = true
    /\ Z.of_nat (String.length fr) = prec
    /\ fraction_digits (append (strconv.genericFtoa_f x prec) (String " " units)) = prec.
Proof.
  intros Hx Hp.
  assert (L : exists neg a, strconv.genericFtoa_f x prec = strconv.fmtF neg a prec
                            /\ digits_ok (strconv.d a)).
  { destruct x as [s|s| |s m e]; try discriminate.
    - exists s, (strconv.mkdecimal [] 0). split; [|constructor].
      unfold strconv.genericFtoa_f.
      destruct (prec <? 0) eqn:E; [apply Z.ltb_lt in E; lia|reflexivity].
    - exists s, (fixed_decimal m e prec). split.
      + now apply genericFtoa_f_fixed.
      + apply fixed_decimal_ok. }
  destruct L as [neg [a [-> Ha]]].
  exists neg, (integer_part a), (fraction_part a prec).
  pose proof (integer_part_digits a Ha) as Hi.
  pose proof (fraction_part_digits a prec Ha) as Hf.
  pose proof (fraction_part_length a prec Hp) as Hl.
  rewrite fmtF_layout.
  set (S := if neg then "-"%string else EmptyString).
  assert (Hs : all_plain (append S (integer_part a)) = true).
  { rewrite all_plain_app. unfold S. rewrite sign_plain. now apply all_digits_plain. }
  unfold fraction_digits.
  destruct (0 <? prec) eqn:E.
  - rewrite <- (append_assoc S).
    rewrite number_part_point by (try assumption; now apply all_digits_plain).
    rewrite after_point_app by assumption. repeat split; assumption.
  - apply Z.ltb_ge in E. rewrite append_nil_r.
    rewrite number_part_plain, number_part_id by assumption.
    rewrite after_point_plain by assumption. repeat split; try assumption. lia.
Qed.

Lemma genericFtoa_f_shortest (x : float64) (prec : Z) :
  prec < 0 -> strconv.genericFtoa_f x prec = strconv.genericFtoa_f x (-1).
Proof.
  intros H. unfold strconv.genericFtoa_f.
  apply Z.ltb_lt in H. rewrite H. reflexivity.
Qed.

(** * Round trip *)

Lemma NewAmount_finite_small (U : float64 -> Z) (s : bool) (m : positive) (e t : Z) :
  e < 971 ->
  NewAmount U (S754_finite s m e) t
  = (if t =? 0 then round U (Float64.mul (S754_finite s m e) HaoPerBitcoin)
     else round U (S754_finite s m e), None).
Proof.
  intros He. unfold NewAmount.
  rewrite !IsInf_small_exponent by assumption.
  assert (N : math.IsNaN (S754_finite s m e) = false).
  { destruct (math.IsNaN (S754_finite s m e)) eqn:E; [|reflexivity].
    apply IsNaN_spec in E. discriminate. }
  rewrite N. cbn [orb]. now destruct (t =? 0).
Qed.

(** The quotient [ToOMC n] for a positive amount below [2^51]: a
    positive float within [n * 2^-53 / 10^8] of [n / 10^8]. *)
Lemma ToOMC_pos (n : Z) :
  0 < n < 2 ^ 51 ->
  exists (mq : positive) (eq : Z),
    ToOMC n = S754_finite false mq eq /\ eq <= -27
    /\ (- (inject_Z n * (1 # 9007199254740992))
        <= inject_Z (Z.pos mq) * pow2 eq * 100000000 - inject_Z n)%Q
    /\ (inject_Z (Z.pos mq) * pow2 eq * 100000000 - inject_Z n
        <= inject_Z n * (1 # 9007199254740992))%Q.
Proof.
  intros Hn.
  destruct (of_int_exact n ltac:(lia)) as [HX [mx [ex EX]]].
  rewrite EX in HX. cbn [to_Q] in HX.
  unfold ToOMC, ToUnit. rewrite Pow10_8, EX.
  assert (N1 : (1 <= inject_Z n)%Q) by (rewrite <- (Zle_Qle 1); lia).
  assert (N2 : (inject_Z n <= 2251799813685247)%Q)
    by (change 2251799813685247%Q with (inject_Z 2251799813685247); rewrite <- Zle_Qle; lia).
  set (x := (inject_Z n * (1 # 100000000))%Q).
  assert (Hx : (x * (inject_Z 6710886400000000 * pow2 (-26))
                == inject_Z (Z.pos mx) * pow2 ex)%Q).
  { rewrite ten8_Q, HX. unfold x. ring. }
  assert (Hlt : (x < pow2 (-28 + 53))%Q).
  { change (-28 + 53) with 25. rewrite pow2_25. unfold x. lra. }
  destruct (div_Q false false mx 6710886400000000 ex (-26) x (-28) Hx ltac:(lia) Hlt)
    as [e1 [He1 [HR Hrel]]].
  assert (Hnorm : (pow2 (-1022) <= x)%Q).
  { eapply Qle_trans; [apply pow2_m1022_small|]. unfold x. lra. }
  specialize (Hrel Hnorm). rewrite pow2_m53 in Hrel.
  cbn [xorb] in HR. apply rounds_to_nonneg in HR.
  destruct HR as [H1 [H2 [_ HQ]]].
  set (Q := Float64.div (S754_finite false mx ex)
              (S754_finite false 6710886400000000 (-26))) in *.
  destruct HQ as [H0|[mq [eq [HQ Heq]]]].
  - exfalso. rewrite H0 in H1. cbn [to_Q] in H1. unfold x in *. lra.
  - exists mq, eq. split; [exact HQ|]. split; [lia|].
    rewrite HQ in H1, H2. cbn [to_Q] in H1, H2. unfold x in *.
    split; lra.
Qed.

(** The product of that quotient with [HaoPerBitcoin]: a positive float
    less than 3/8 away from [n]. *)
Lemma ToOMC_mul_pos (n : Z) :
  0 < n < 2 ^ 51 ->
  exists (my : positive) (ey : Z),
    Float64.mul (ToOMC n) HaoPerBitcoin = S754_finite false my ey
    /\ (inject_Z n - (3 # 8) < inject_Z (Z.pos my) * pow2 ey)%Q
    /\ (inject_Z (Z.pos my) * pow2 ey < inject_Z n + (3 # 8))%Q.
Proof.
  intros Hn.
  destruct (ToOMC_pos n Hn) as [mq [eq [HQ [Heq [Q1 Q2]]]]].
  rewrite HQ, HaoPerBitcoin_value.
  assert (N1 : (1 <= inject_Z n)%Q) by (rewrite <- (Zle_Qle 1); lia).
  assert (N2 : (inject_Z n <= 2251799813685247)%Q)
    by (change 2251799813685247%Q with (inject_Z 2251799813685247); rewrite <- Zle_Qle; lia).
  set (vq := (inject_Z (Z.pos mq) * pow2 eq)%Q) in *.
  set (x := (vq * 100000000)%Q).
  assert (Hx : (x == vq * (inject_Z 6710886400000000 * pow2 (-26)))%Q)
    by (rewrite ten8_Q; reflexivity).
  assert (Hlt : (x < pow2 (-2 + 53))%Q).
  { change (-2 + 53) with 51. rewrite pow2_51. unfold x. lra. }
  destruct (mul_Q_bound false false mq 6710886400000000 eq (-26) x (-2) Hx
              ltac:(lia) ltac:(lia) Hlt) as [e1 [He1 HR]].
  cbn [xorb] in HR. apply rounds_to_nonneg in HR.
  destruct HR as [H1 [H2 [_ HY]]].
  assert (P : (pow2 (e1 - 1) <= 1 # 8)%Q).
  { rewrite <- pow2_m3. apply pow2_le. lia. }
  set (Y := Float64.mul (S754_finite false mq eq)
              (S754_finite false 6710886400000000 (-26))) in *.
  destruct HY as [H0|[my [ey [HY Hey]]]].
  - exfalso. rewrite H0 in H1. cbn [to_Q] in H1. unfold x in *. lra.
  - exists my, ey. split; [exact HY|].
    rewrite HY in H1, H2. cbn [to_Q] in H1, H2. unfold x in *.
    split; lra.
Qed.

(** Rounding that product gives [n] back. *)
Lemma round_ToOMC_pos (U : float64 -> Z) (n : Z) :
  0 < n < 2 ^ 51 ->
  round U (Float64.mul (ToOMC n) HaoPerBitcoin) = n
  /\ round U (SFopp (Float64.mul (ToOMC n) HaoPerBitcoin)) = - n.
Proof.
  intros Hn.
  destruct (ToOMC_mul_pos n Hn) as [my [ey [HY [Y1 Y2]]]].
  rewrite HY. unfold round. rewrite !ltb_zero_negative, half_value.
  cbn [SFopp negative negb].
  change (Float64.sub (S754_finite true my ey))
    with (Float64.sub (SFopp (S754_finite false my ey))).
  rewrite sub_opp_pos.
  assert (N1 : (1 <= inject_Z n)%Q) by (rewrite <- (Zle_Qle 1); lia).
  assert (N2 : (inject_Z n <= 2251799813685247)%Q)
    by (change 2251799813685247%Q with (inject_Z 2251799813685247); rewrite <- Zle_Qle; lia).
  set (vy := (inject_Z (Z.pos my) * pow2 ey)%Q) in *.
  set (x := (vy + (1 # 2))%Q).
  assert (Hx : (x == vy + inject_Z 4503599627370496 * pow2 (-53))%Q)
    by (rewrite half_Q; reflexivity).
  assert (Hlt : (x < pow2 (-2 + 53))%Q).
  { change (-2 + 53) with 51. rewrite pow2_51. unfold x. lra. }
  destruct (add_pos_Q my 4503599627370496 ey (-53) x (-2) Hx ltac:(lia) Hlt)
    as [e1 [He1 HR]].
  pose proof (rounds_to_finite _ _ _ _ HR) as HF.
  apply rounds_to_nonneg in HR. destruct HR as [H1 [H2 _]].
  assert (P : (pow2 (e1 - 1) <= 1 # 8)%Q).
  { rewrite <- pow2_m3. apply pow2_le. lia. }
  set (Z' := Float64.add (S754_finite false my ey)
               (S754_finite false 4503599627370496 (-53))) in *.
  assert (L : (inject_Z n <= to_Q Z')%Q) by (unfold x in *; lra).
  assert (R : (to_Q Z' < inject_Z (n + 1))%Q).
  { rewrite inject_Z_plus. change (inject_Z 1) with 1%Q. unfold x in *. lra. }
  split.
  - apply to_int64_between; try assumption. lia.
  - apply to_int64_opp_between; try assumption. lia.
Qed.

Lemma ToOMC_opp (n : Z) : 0 < n < 2 ^ 51 -> ToOMC (- n) = SFopp (ToOMC n).
Proof.
  intros Hn. unfold ToOMC, ToUnit. rewrite Pow10_8, of_int_opp by lia.
  destruct (of_int_exact n ltac:(lia)) as [_ [mx [ex ->]]].
  apply div_opp_l.
Qed.

(** C9.  Every amount [n] with [|n| < 2^51] Hao -- which covers the
    2.1e15 Hao of 21 million coins -- converted to coins by [ToOMC] and
    back by [NewAmount] with token type 0 is recovered exactly, with a
    nil error. *)
Theorem round_trip (U : float64 -> Z) (n : Z) :
  - 2 ^ 51 < n < 2 ^ 51 -> NewAmount U (ToOMC n) 0 = (n, None).
Proof.
  intros Hn.
  destruct (Z.lt_trichotomy n 0) as [Hneg|[->|Hpos]].
  - assert (Hp : 0 < - n < 2 ^ 51) by lia.
    replace n with (- - n) at 1 by lia. rewrite (ToOMC_opp _ Hp).
    destruct (ToOMC_pos _ Hp) as [mq [eq [HQ [Heq _]]]].
    destruct (round_ToOMC_pos U _ Hp) as [_ R].
    rewrite HQ in *. cbn [SFopp negb].
    rewrite NewAmount_finite_small by lia. cbn [Z.eqb].
    change (S754_finite true mq eq) with (SFopp (S754_finite false mq eq)).
    rewrite HaoPerBitcoin_value in *. rewrite mul_opp_l, R. f_equal. lia.
  - reflexivity.
  - assert (Hp : 0 < n < 2 ^ 51) by lia.
    destruct (ToOMC_pos _ Hp) as [mq [eq [HQ [Heq _]]]].
    destruct (round_ToOMC_pos U _ Hp) as [R _].
    rewrite HQ in *. rewrite NewAmount_finite_small by lia. cbn [Z.eqb].
    now rewrite R.
Qed.

Lemma round_trip_witness :
  NewAmount amd64_unrepresentable (ToOMC 2100000000000000) 0
  = (2100000000000000, None).
Proof. apply (round_trip amd64_unrepresentable 2100000000000000). lia. Defined.

(** Past [2^51] the round trip can miss by one Hao. *)
Example round_trip_boundary (U : float64 -> Z) :
  3355461512608425 < 2 ^ 52
  /\ NewAmount U (ToOMC 3355461512608425) 0 = (3355461512608426, None).
Proof. split; reflexivity. Qed.

(** * Further properties

    What follows adds to the properties above: the labels of the units,
    the exact behaviour of [round], the accuracy and the symmetries of
    the conversions, the special values of [ToUnit]; then, with these
    facts, the value of [ToUnit] and the text of [Format] in every unit,
    and the numerals [Format] writes. *)

(** ** Distinct units have distinct labels *)

Lemma append_inj_r (a b c : string) : append a c = append b c -> a = b.
Proof.
  assert (L : forall s t, String.length (append s t) = (String.length s + String.length t)%nat).
  { induction s as [|x s IH]; intros t; cbn; [reflexivity|]. now rewrite IH. }
  revert b. induction a as [|x a IH]; intros [|y b] H; cbn in H.
  - reflexivity.
  - exfalso. apply (f_equal String.length) in H. cbn in H. rewrite L in H. lia.
  - exfalso. apply (f_equal String.length) in H. cbn in H. rewrite L in H. lia.
  - injection H as -> H. f_equal. now apply IH.
Qed.

Lemma FormatInt_inj (n k : Z) : strconv.FormatInt n = strconv.FormatInt k -> n = k.
Proof.
  intros H. pose proof (read_FormatInt n) as A. rewrite H, read_FormatInt in A. congruence.
Qed.

Lemma AmountUnit_String_default (u : AmountUnit) :
  (u = 6 \/ u = 3 \/ u = 0 \/ u = -3 \/ u = -6 \/ u = -8)
  \/ AmountUnit_String u = append "1e" (append (strconv.FormatInt u) " OMC").
Proof.
  unfold AmountUnit_String, AmountMegaOMC, AmountKiloOMC, AmountOMC, AmountMilliOMC,
    AmountMicroOMC, AmountHao.
  repeat (match goal with |- context [?a =? ?b] => destruct (Z.eqb_spec a b) end;
          [left; lia|]).
  now right.
Qed.

Lemma AmountUnit_String_inj (u1 u2 : AmountUnit) :
  AmountUnit_String u1 = AmountUnit_String u2 -> u1 = u2.
Proof.
  intros E.
  destruct (AmountUnit_String_default u1) as [H1|H1], (AmountUnit_String_default u2) as [H2|H2].
  - destruct H1 as [->|[->|[->|[->|[->| ->]]]]], H2 as [->|[->|[->|[->|[->| ->]]]]];
      first [reflexivity | discriminate E].
  - rewrite H2 in E. destruct H1 as [->|[->|[->|[->|[->| ->]]]]]; discriminate E.
  - rewrite H1 in E. destruct H2 as [->|[->|[->|[->|[->| ->]]]]]; discriminate E.
  - rewrite H1, H2 in E. cbn [append] in E. injection E as E.
    apply append_inj_r in E. now apply FormatInt_inj.
Qed.

(** X1.  Two different units never have the same label:
    [AmountUnit.String] is injective, on the six named units and on the
    others, whose label spells the exponent out. *)
Theorem AmountUnit_String_injective (u1 u2 : AmountUnit) :
  u1 <> u2 -> AmountUnit_String u1 <> AmountUnit_String u2.
Proof. intros Hne E. apply Hne. now apply AmountUnit_String_inj. Qed.

Lemma AmountUnit_String_injective_witness :
  AmountUnit_String AmountMilliOMC <> AmountUnit_String (-4).
Proof. apply (AmountUnit_String_injective AmountMilliOMC (-4)). unfold AmountMilliOMC. lia. Defined.

(** ** Mantissas of the results

    Every operation ends on [binary_round_aux], whose results have a
    mantissa below [2^53]. *)

Lemma binary_round_aux_fits (s : bool) (m e r d : Z) :
  0 <= m -> 0 <= r < d -> fits (binary_round_aux prec emax s m e (loc_of r d)).
Proof.
  intros Hm Hr.
  pose proof (shift_of_nonneg m e) as Hn.
  destruct (shift_of_fits m e Hm) as [Hfit He1].
  set (n1 := shift_of m e) in *.
  assert (HP : 0 < 2 ^ n1) by (apply Z.pow_pos_nonneg; lia).
  pose proof (shift_range m r d (2 ^ n1) Hm Hr HP) as R1.
  pose proof (round_nearest_even_error (m / 2 ^ n1) _ _ R1) as [Hm2 _].
  cbv zeta in Hm2.
  set (m2 := round_nearest_even (m / 2 ^ n1)
               (loc_of (m mod 2 ^ n1 * d + r) (2 ^ n1 * d))) in *.
  assert (Hm1 : 0 <= m / 2 ^ n1) by (apply Z.div_pos; lia).
  unfold binary_round_aux.
  rewrite shr_fexp_loc by assumption. fold n1.
  rewrite shr_m_record_of_loc, loc_of_shr_record_of_loc. fold m2.
  change loc_Exact with (loc_of 0 1).
  rewrite shr_fexp_loc by lia.
  rewrite shr_m_record_of_loc.
  destruct (Z.eq_dec m2 (2 ^ 53)) as [E|NE].
  - assert (S2 : shift_of m2 (e + n1) = 1).
    { rewrite E. unfold shift_of, fexp, emin, prec, emax.
      change (Zdigits2 (2 ^ 53)) with 54. lia. }
    rewrite S2. rewrite E. change (2 ^ 53 / 2 ^ 1) with (Z.pos (2 ^ 52)).
    cbv iota beta. unfold emax, prec.
    destruct (Z.leb (e + n1 + 1) (1024 - 53)) eqn:L; cbn [fits]; [|exact I].
    apply Z.leb_le in L. split; [reflexivity|lia].
  - assert (S2 : shift_of m2 (e + n1) = 0).
    { unfold shift_of, fexp, emin, prec, emax.
      pose proof (Zdigits2_le m2 53 ltac:(lia) ltac:(lia)). lia. }
    rewrite S2, Z.pow_0_r, Z.div_1_r, Z.add_0_r.
    destruct m2 as [|p|p] eqn:Ep; [exact I| |exact I].
    unfold emax, prec.
    destruct (Z.leb (e + n1) (1024 - 53)) eqn:L; cbn [fits]; [|exact I].
    apply Z.leb_le in L. split; lia.
Qed.

Lemma valid_fits (f : float64) : valid f = true -> fits f.
Proof.
  destruct f as [s|s| |s m e]; try (intros; exact I).
  unfold valid, valid_binary, bounded, canonical_mantissa, fexp, emin, prec, emax.
  intros H. apply andb_true_iff in H. destruct H as [Hc He].
  apply Z.eqb_eq in Hc. apply Z.leb_le in He. cbn [fits].
  assert (Zpos (digits2_pos m) <= 53) by lia.
  pose proof (digits2_pos_lt m).
  assert (2 ^ Zpos (digits2_pos m) <= 2 ^ 53) by (apply Z.pow_le_mono_r; lia).
  lia.
Qed.

Lemma mul_fits (x y : float64) : fits (Float64.mul x y).
Proof.
  destruct x as [sx|sx| |sx mx ex], y as [sy|sy| |sy my ey];
    unfold Float64.mul, SFmul; try exact I; try (destruct (Bool.eqb _ _); exact I).
  change loc_Exact with (loc_of 0 1). apply binary_round_aux_fits; lia.
Qed.

Lemma div_fits (x y : float64) : fits (Float64.div x y).
Proof.
  destruct x as [sx|sx| |sx mx ex], y as [sy|sy| |sy my ey];
    unfold Float64.div, SFdiv; try exact I.
  rewrite SFdiv_core_binary_loc.
  pose proof (div_numerator_pos mx my ex ey) as [Hn _].
  apply binary_round_aux_fits.
  - apply Z.div_pos; lia.
  - apply Z.mod_pos_bound. lia.
Qed.

Lemma binary_round_fits (s : bool) (m : positive) (e : Z) : fits (binary_round prec emax s m e).
Proof.
  unfold binary_round. destruct (shl_align m e _) as [mz ez].
  change loc_Exact with (loc_of 0 1). apply binary_round_aux_fits; lia.
Qed.

Lemma binary_normalize_fits (m e : Z) (s : bool) : fits (binary_normalize prec emax m e s).
Proof.
  unfold binary_normalize. destruct m; [exact I| |]; apply binary_round_fits.
Qed.

Lemma of_int_fits (n : Z) : fits (Float64.of_int n).
Proof. apply binary_normalize_fits. Qed.

Lemma add_fits (x y : float64) : fits x -> fits y -> fits (Float64.add x y).
Proof.
  intros Hx Hy.
  destruct x as [sx|sx| |sx mx ex], y as [sy|sy| |sy my ey];
    unfold Float64.add, SFadd; try exact I; try assumption;
    try (destruct (Bool.eqb _ _); exact I);
    try (destruct sx, sy; exact I).
  apply binary_normalize_fits.
Qed.

(** ** [round] as rounding to the nearest integer *)

Lemma Qtruncate_comp (q q' : Q) : (q == q')%Q -> Qtruncate q = Qtruncate q'.
Proof.
  intros H. unfold Qtruncate, Qceiling.
  rewrite (Qfloor_comp q q' H).
  rewrite (Qfloor_comp (- q) (- q')) by (now rewrite H).
  assert (E : Qle_bool 0 q = Qle_bool 0 q').
  { destruct (Qle_bool 0 q) eqn:A, (Qle_bool 0 q') eqn:B; try reflexivity.
    - apply Qle_bool_iff in A. rewrite H in A. apply Qle_bool_iff in A. congruence.
    - apply Qle_bool_iff in B. rewrite <- H in B. apply Qle_bool_iff in B. congruence. }
  now rewrite E.
Qed.

Lemma Qtruncate_opp (q : Q) : Qtruncate (- q) = - Qtruncate q.
Proof.
  unfold Qtruncate, Qceiling.
  destruct (Qle_bool 0 q) eqn:A, (Qle_bool 0 (- q)) eqn:B.
  - apply Qle_bool_iff in A, B.
    assert (E : (q == 0)%Q) by lra.
    rewrite (Qfloor_comp (- q) 0) by (rewrite E; reflexivity).
    rewrite (Qfloor_comp q 0) by exact E. reflexivity.
  - f_equal. apply Qfloor_comp. apply Qopp_involutive.
  - now rewrite Z.opp_involutive.
  - exfalso.
    assert (N1 : ~ (0 <= q)%Q) by (intros H; apply Qle_bool_iff in H; congruence).
    assert (N2 : ~ (0 <= - q)%Q) by (intros H'; apply Qle_bool_iff in H'; congruence).
    destruct (Qlt_le_dec q 0); [apply N2; lra|contradiction].
Qed.

Lemma to_int64_opp (U : float64 -> Z) (g : float64) :
  is_finite g = true -> - 2 ^ 63 < Qtruncate (to_Q g) < 2 ^ 63 ->
  to_int64 U (SFopp g) = - to_int64 U g.
Proof.
  intros Hg Hr.
  assert (T : Qtruncate (to_Q (SFopp g)) = - Qtruncate (to_Q g)).
  { rewrite <- Qtruncate_opp. apply Qtruncate_comp, to_Q_opp. }
  rewrite !to_int64_truncate; rewrite ?is_finite_opp, ?T; try assumption; try reflexivity;
  unfold Int64.in_range, Int64.min_int, Int64.max_int;
  apply andb_true_iff; split; apply Z.leb_le; lia.
Qed.

Lemma int_on_grid (n e1 : Z) :
  e1 <= 0 -> (inject_Z n == inject_Z (n * 2 ^ (- e1)) * pow2 e1)%Q.
Proof.
  intros H. rewrite inject_Z_mult, <- pow2_nonneg_Z by lia.
  rewrite <- Qmult_assoc, <- pow2_add.
  replace (- e1 + e1) with 0 by lia. change (pow2 0) with 1%Q. ring.
Qed.

(** A nearest point of a grid that holds the integers lies between the
    integers around the number. *)
Lemma nearest_between_integers (v x : Q) (e1 K n : Z) :
  e1 <= 0 -> (v == inject_Z K * pow2 e1)%Q ->
  (- pow2 (e1 - 1) <= v - x)%Q -> (v - x <= pow2 (e1 - 1))%Q ->
  (inject_Z n <= x)%Q -> (x < inject_Z (n + 1))%Q ->
  (inject_Z n <= v)%Q /\ (v <= inject_Z (n + 1))%Q.
Proof.
  intros He Hv H1 H2 Hl Hu.
  pose proof (pow2_pos e1) as P. rewrite pow2_pred in H1, H2.
  pose proof (int_on_grid n e1 He) as En.
  pose proof (int_on_grid (n + 1) e1 He) as En1.
  set (J := n * 2 ^ (- e1)) in *. set (J1 := (n + 1) * 2 ^ (- e1)) in *.
  split.
  - destruct (Z.le_gt_cases J K) as [C|C].
    + rewrite En, Hv. apply Qmult_le_compat_r; [now rewrite <- Zle_Qle|lra].
    + exfalso. assert (C' : K + 1 <= J) by lia.
      rewrite Zle_Qle, inject_Z_plus in C'. change (inject_Z 1) with 1%Q in C'.
      rewrite En in Hl. rewrite Hv in H1.
      remember (inject_Z K) as k. remember (inject_Z J) as j. remember (pow2 e1) as p.
      clear - C' Hl H1 P. nra.
  - destruct (Z.le_gt_cases K J1) as [C|C].
    + rewrite En1, Hv. apply Qmult_le_compat_r; [now rewrite <- Zle_Qle|lra].
    + exfalso. assert (C' : J1 + 1 <= K) by lia.
      rewrite Zle_Qle, inject_Z_plus in C'. change (inject_Z 1) with 1%Q in C'.
      rewrite En1 in Hu. rewrite Hv in H2.
      remember (inject_Z K) as k. remember (inject_Z J1) as j. remember (pow2 e1) as p.
      clear - C' Hu H2 P. nra.
Qed.

Lemma pow2_52 : (pow2 52 == 4503599627370496)%Q.
Proof. reflexivity. Qed.

Lemma pow2_m54 : (pow2 (-54) == 1 # 18014398509481984)%Q.
Proof. reflexivity. Qed.

Lemma pow2_m1 : (pow2 (-1) == 1 # 2)%Q.
Proof. reflexivity. Qed.

Lemma mantissa_below (m : positive) (e : Z) :
  Z.pos m < 2 ^ 53 -> (inject_Z (Z.pos m) * pow2 e < pow2 (53 + e))%Q.
Proof.
  intros H. rewrite pow2_add. apply Qmult_lt_compat_r; [apply pow2_pos|].
  rewrite pow2_nonneg_Z by lia. now rewrite <- Zlt_Qlt.
Qed.

Lemma round_pos_floor (U : float64 -> Z) (m : positive) (e : Z) :
  Z.pos m < 2 ^ 53 ->
  (inject_Z (Z.pos m) * pow2 e < pow2 52)%Q ->
  ((inject_Z (Z.pos m) * pow2 e <= (1 # 2) - pow2 (-53))%Q
   \/ (1 # 2 <= inject_Z (Z.pos m) * pow2 e)%Q) ->
  round U (S754_finite false m e) = Qfloor (inject_Z (Z.pos m) * pow2 e + (1 # 2))
  /\ round U (S754_finite true m e) = - Qfloor (inject_Z (Z.pos m) * pow2 e + (1 # 2)).
Proof.
  intros Hm Hlt Hex.
  set (q := (inject_Z (Z.pos m) * pow2 e)%Q) in *.
  assert (Hq : (0 < q)%Q) by (apply Qmult_lt_0_compat; [reflexivity|apply pow2_pos]).
  set (x := (q + (1 # 2))%Q).
  set (n := Qfloor x).
  pose proof (Qfloor_le x) as Nl. pose proof (Qlt_floor x) as Nu. fold n in Nl, Nu.
  rewrite pow2_52 in Hlt.
  assert (N0 : 0 <= n).
  { assert (A : (inject_Z 0 < inject_Z (n + 1))%Q).
    { eapply Qlt_trans; [|exact Nu]. unfold x. change (inject_Z 0) with 0%Q. lra. }
    rewrite <- Zlt_Qlt in A. lia. }
  assert (N1 : n <= 2 ^ 52).
  { assert (A : (inject_Z n < inject_Z (2 ^ 52 + 1))%Q).
    { eapply Qle_lt_trans; [exact Nl|]. unfold x.
      change (inject_Z (2 ^ 52 + 1)) with 4503599627370497%Q. lra. }
    rewrite <- Zlt_Qlt in A. lia. }
  unfold round. rewrite !ltb_zero_negative, half_value. cbn [negative].
  change (Float64.sub (S754_finite true m e))
    with (Float64.sub (SFopp (S754_finite false m e))).
  rewrite sub_opp_pos.
  assert (Hx : (x == inject_Z (Z.pos m) * pow2 e
                     + inject_Z 4503599627370496 * pow2 (-53))%Q).
  { rewrite half_Q. reflexivity. }
  set (R := Float64.add (S754_finite false m e)
              (S754_finite false 4503599627370496 (-53))).
  assert (G : is_finite R = true
              /\ (inject_Z n <= to_Q R)%Q /\ (to_Q R < inject_Z (n + 1))%Q).
  { destruct (Z.eq_dec n 0) as [Z0|NZ].
    - (* below one half *)
      rewrite Z0 in Nu. change (inject_Z (0 + 1)) with 1%Q in Nu.
      assert (Hs : (q <= (1 # 2) - pow2 (-53))%Q).
      { destruct Hex as [A|A]; [exact A|]. exfalso. unfold x in Nu. lra. }
      assert (Hl1 : (x < pow2 (-53 + 53))%Q) by (change (pow2 (-53 + 53)) with 1%Q; exact Nu).
      destruct (add_pos_Q m 4503599627370496 e (-53) x (-53) Hx ltac:(lia) Hl1)
        as [e1 [He1 HR]].
      fold R in HR. pose proof (rounds_to_finite _ _ _ _ HR) as HF.
      apply rounds_to_nonneg in HR. destruct HR as [H1 [H2 [[K [HK Hg]] _]]].
      split; [exact HF|]. rewrite Z0. change (inject_Z 0) with 0%Q.
      change (inject_Z (0 + 1)) with 1%Q. split.
      + rewrite Hg. apply Qmult_le_0_compat; [now rewrite <- (Zle_Qle 0)|].
        apply Qlt_le_weak, pow2_pos.
      + assert (P : (pow2 (e1 - 1) <= pow2 (-54))%Q) by (apply pow2_le; lia).
        rewrite pow2_m54 in P. rewrite pow2_m53 in Hs. unfold x in H2. lra.
    - (* from one half on *)
      assert (Npos : 0 < n) by lia.
      pose proof (Zdigits2_bounds n Npos) as [Dl Du].
      assert (Dk : 1 <= Zdigits2 n <= 53).
      { split.
        - destruct n; cbn in *; lia.
        - apply Zdigits2_le; lia. }
      set (k := Zdigits2 n) in *. set (c := k - 53).
      assert (Hl1 : (x < pow2 (c + 53))%Q).
      { eapply Qlt_le_trans; [exact Nu|]. unfold c.
        replace (k - 53 + 53) with k by lia.
        rewrite pow2_nonneg_Z by lia. rewrite <- Zle_Qle. lia. }
      destruct (add_pos_Q m 4503599627370496 e (-53) x c Hx ltac:(lia) Hl1)
        as [e1 [He1 HR]].
      fold R in HR. pose proof (rounds_to_finite _ _ _ _ HR) as HF.
      pose proof HR as HR'.
      apply rounds_to_nonneg in HR. destruct HR as [H1 [H2 [[K [HK Hg]] _]]].
      destruct (nearest_between_integers (to_Q R) x e1 K n ltac:(lia) Hg H1 H2 Nl Nu)
        as [B1 B2].
      split; [exact HF|]. split; [exact B1|].
      destruct (Z.le_gt_cases e1 e) as [Ce|Ce].
      + destruct (Z.le_gt_cases e1 (-1)) as [C1|C1].
        * (* the sum is on the grid *)
          assert (E : (to_Q R == x)%Q).
          { apply (rounds_to_exact _ _ e1
                     (Z.pos m * 2 ^ (e - e1) + 2 ^ (-1 - e1)) HR').
            rewrite inject_Z_plus, inject_Z_mult, <- !pow2_nonneg_Z by lia.
            rewrite Qmult_plus_distr_l, <- Qmult_assoc, <- !pow2_add.
            replace (e - e1 + e1) with e by lia.
            replace (-1 - e1 + e1) with (-1) by lia.
            rewrite pow2_m1. reflexivity. }
          rewrite E. exact Nu.
        * (* an integer float below 2^52 *)
          exfalso. assert (k = 53) by lia.
          assert (Hn52 : 2 ^ 52 <= n) by (replace 52 with (k - 1) by lia; exact Dl).
          assert (Qi : (q == inject_Z (Z.pos m * 2 ^ e))%Q).
          { unfold q. rewrite inject_Z_mult, <- pow2_nonneg_Z by lia. reflexivity. }
          assert (Zi : Z.pos m * 2 ^ e < 2 ^ 52).
          { rewrite Zlt_Qlt, <- Qi. exact Hlt. }
          assert (Zj : (inject_Z (Z.pos m * 2 ^ e) <= inject_Z (2 ^ 52 - 1))%Q)
            by (rewrite <- Zle_Qle; lia).
          assert (Zn : (inject_Z (2 ^ 52) <= inject_Z n)%Q) by (rewrite <- Zle_Qle; lia).
          change (inject_Z (2 ^ 52 - 1)) with 4503599627370495%Q in Zj.
          change (inject_Z (2 ^ 52)) with 4503599627370496%Q in Zn.
          unfold x in Nl. rewrite Qi in Nl. lra.
      + (* the float is below the integer *)
        pose proof (mantissa_below m e Hm) as Mb. fold q in Mb.
        assert (Pb : (pow2 (53 + e) <= inject_Z n)%Q).
        { apply Qle_trans with (pow2 (k - 1)); [apply pow2_le; lia|].
          rewrite pow2_nonneg_Z by lia. now rewrite <- Zle_Qle. }
        assert (Ph : (pow2 (e1 - 1) <= pow2 (-1))%Q) by (apply pow2_le; lia).
        rewrite pow2_m1 in Ph. rewrite inject_Z_plus. change (inject_Z 1) with 1%Q.
        unfold x in H2. lra. }
  destruct G as [HF [GL GU]].
  split.
  - apply to_int64_between; try assumption. lia.
  - destruct (Z.eq_dec n 0) as [Z0|NZ].
    + rewrite to_int64_opp;
        rewrite ?(to_int64_between U R n) by (try assumption; lia); try assumption.
      * reflexivity.
      * rewrite <- (to_int64_truncate U R HF).
        -- rewrite (to_int64_between U R n) by (try assumption; lia). lia.
        -- assert (T : Qtruncate (to_Q R) = n).
           { unfold Qtruncate.
             assert (P : Qle_bool 0 (to_Q R) = true).
             { apply Qle_bool_iff. eapply Qle_trans; [|exact GL]. rewrite <- (Zle_Qle 0). lia. }
             rewrite P. now apply Qfloor_eq. }
           rewrite T. unfold Int64.in_range, Int64.min_int, Int64.max_int.
           apply andb_true_iff; split; apply Z.leb_le; lia.
    + apply to_int64_opp_between; try assumption. lia.
Qed.

Lemma round_half_away_neg (q : Q) :
  (0 < q)%Q -> round_half_away (- q) = - Qfloor (q + (1 # 2)).
Proof.
  intros Hq. unfold round_half_away.
  assert (B : Qle_bool 0 (- q) = false).
  { destruct (Qle_bool 0 (- q)) eqn:E; [|reflexivity]. apply Qle_bool_iff in E. lra. }
  rewrite B. unfold Qceiling. f_equal. apply Qfloor_comp. ring.
Qed.

Lemma round_half_away_pos (q : Q) :
  (0 <= q)%Q -> round_half_away q = Qfloor (q + (1 # 2)).
Proof.
  intros Hq. unfold round_half_away.
  now rewrite (proj2 (Qle_bool_iff 0 q) Hq).
Qed.

(** [round] on a float whose mantissa fits in 53 bits. *)
Lemma round_fits (U : float64 -> Z) (f : float64) :
  fits f -> is_finite f = true -> (Qabs (to_Q f) < pow2 52)%Q ->
  ((Qabs (to_Q f) <= (1 # 2) - pow2 (-53))%Q \/ (1 # 2 <= Qabs (to_Q f))%Q) ->
  round U f = round_half_away (to_Q f).
Proof.
  intros Hfit Hf Hlt Hex. destruct f as [s|s| |s m e]; try discriminate.
  - destruct s; reflexivity.
  - cbn [fits] in Hfit. destruct Hfit as [Hm _].
    set (q := (inject_Z (Z.pos m) * pow2 e)%Q) in *.
    assert (Hq : (0 < q)%Q) by (apply Qmult_lt_0_compat; [reflexivity|apply pow2_pos]).
    assert (A : (Qabs (to_Q (S754_finite s m e)) == q)%Q).
    { destruct s; cbn [to_Q]; fold q.
      - rewrite Qabs_opp. apply Qabs_pos. lra.
      - apply Qabs_pos. lra. }
    rewrite A in Hlt, Hex.
    destruct (round_pos_floor U m e Hm Hlt Hex) as [R1 R2].
    destruct s; cbn [to_Q]; fold q.
    + rewrite R2. symmetry. now apply round_half_away_neg.
    + rewrite R1. symmetry. apply round_half_away_pos. apply Qlt_le_weak. exact Hq.
Qed.

Lemma valid_canonical (s : bool) (m : positive) (e : Z) :
  valid (S754_finite s m e) = true ->
  Z.pos m < 2 ^ 53 /\ -1074 <= e <= 971
  /\ (e = -1074 \/ 2 ^ 52 <= Z.pos m).
Proof.
  unfold valid, valid_binary, bounded, canonical_mantissa, fexp, emin, prec, emax.
  intros H. apply andb_true_iff in H. destruct H as [Hc He].
  apply Z.eqb_eq in Hc. apply Z.leb_le in He.
  pose proof (digits2_pos_lt m) as Hu. pose proof (digits2_pos_ge m) as Hl.
  assert (Hd : Zpos (digits2_pos m) <= 53) by lia.
  assert (2 ^ Zpos (digits2_pos m) <= 2 ^ 53) by (apply Z.pow_le_mono_r; lia).
  split; [lia|]. split; [lia|].
  destruct (Z.eq_dec e (-1074)) as [|Hne]; [now left|right].
  assert (Zpos (digits2_pos m) = 53) by lia.
  replace 52 with (Zpos (digits2_pos m) - 1) by lia. exact Hl.
Qed.

(** The only float64 strictly between [1/2 - 2^-53] and [1/2] is the one
    just below one half. *)
Lemma valid_near_half (s : bool) (m : positive) (e : Z) :
  valid (S754_finite s m e) = true ->
  ((1 # 2) - pow2 (-53) < inject_Z (Z.pos m) * pow2 e)%Q ->
  (inject_Z (Z.pos m) * pow2 e < 1 # 2)%Q ->
  m = (2 ^ 53 - 1)%positive /\ e = -54.
Proof.
  intros Hv Hl Hu. destruct (valid_canonical s m e Hv) as [Hm [He Hn]].
  pose proof (mantissa_below m e Hm) as Mb.
  assert (E1 : -2 < 53 + e).
  { apply pow2_lt_inv. eapply Qle_lt_trans; [|exact Mb].
    apply Qlt_le_weak. eapply Qle_lt_trans; [|exact Hl]. vm_compute. discriminate. }
  destruct Hn as [Hn|Hn]; [lia|].
  assert (E2 : 52 + e < -1).
  { apply pow2_lt_inv. eapply Qle_lt_trans; [|rewrite pow2_m1; exact Hu].
    rewrite pow2_add. apply Qmult_le_compat_r; [|apply Qlt_le_weak, pow2_pos].
    rewrite pow2_nonneg_Z by lia. now rewrite <- Zle_Qle. }
  assert (e = -54) by lia. subst e. split; [|reflexivity].
  rewrite pow2_m54 in Hl. rewrite pow2_m53 in Hl.
  assert (A : (inject_Z (2 ^ 53 - 2) < inject_Z (Z.pos m))%Q).
  { change (inject_Z (2 ^ 53 - 2)) with 9007199254740990%Q. lra. }
  rewrite <- Zlt_Qlt in A. lia.
Qed.

Section RoundNearest.

Variable U : float64 -> Z.

(** X2.  [round] rounds to the nearest integer, ties away from zero, on
    every valid finite float64 below [2^52] in magnitude but two: the
    float just below one half and its opposite, which it takes to 1 and
    to -1 although the nearest integer is 0 (adding 0.5 rounds up to 1).
    Past [2^52] the sum with 0.5 is rounded as well: [2^52 + 1] goes to
    [2^52 + 2]. *)
Theorem round_nearest (f : float64) :
  (valid f = true -> is_finite f = true -> (Qabs (to_Q f) < pow2 52)%Q ->
   f <> pred_half -> f <> SFopp pred_half ->
   round U f = round_half_away (to_Q f))
  /\ (to_Q pred_half == (1 # 2) - pow2 (-54))%Q
  /\ round_half_away (to_Q pred_half) = 0
  /\ round U pred_half = 1
  /\ round U (SFopp pred_half) = -1
  /\ round U (Float64.of_int (2 ^ 52 + 1)) = 2 ^ 52 + 2.
Proof.
  split; [|repeat split].
  intros Hv Hf Hlt N1 N2.
  apply round_fits; try assumption; [now apply valid_fits|].
  destruct f as [s|s| |s m e]; try discriminate.
  - left. vm_compute. discriminate.
  - set (q := (inject_Z (Z.pos m) * pow2 e)%Q) in *.
    assert (Hq : (0 < q)%Q) by (apply Qmult_lt_0_compat; [reflexivity|apply pow2_pos]).
    assert (A : (Qabs (to_Q (S754_finite s m e)) == q)%Q).
    { destruct s; cbn [to_Q]; fold q.
      - rewrite Qabs_opp. apply Qabs_pos. lra.
      - apply Qabs_pos. lra. }
    rewrite A.
    destruct (Qlt_le_dec q (1 # 2)) as [C1|C1]; [|now right].
    destruct (Qlt_le_dec ((1 # 2) - pow2 (-53)) q) as [C2|C2]; [|now left].
    exfalso. destruct (valid_near_half s m e Hv C2 C1) as [-> ->].
    destruct s; [now apply N2|now apply N1].
Qed.

End RoundNearest.

Lemma round_nearest_witness :
  round amd64_unrepresentable (of_ratio (-7) 4)
  = round_half_away (to_Q (of_ratio (-7) 4)).
Proof.
  apply (round_nearest amd64_unrepresentable (of_ratio (-7) 4)).
  - vm_compute. reflexivity.
  - vm_compute. reflexivity.
  - vm_compute. reflexivity.
  - vm_compute. discriminate.
  - vm_compute. discriminate.
Defined.

(** ** Validity of the results

    The operations return valid float64 numbers: the mantissa has 53
    bits, or fewer at the smallest exponent. *)

Lemma Zdigits2_div_pow2 (m n : Z) :
  0 < m -> 0 <= n < Zdigits2 m -> Zdigits2 (m / 2 ^ n) = Zdigits2 m - n.
Proof.
  intros Hm Hn.
  pose proof (Zdigits2_bounds m Hm) as [Hl Hu].
  assert (HP : 0 < 2 ^ n) by (apply Z.pow_pos_nonneg; lia).
  assert (L : 2 ^ (Zdigits2 m - n - 1) <= m / 2 ^ n).
  { apply Z.div_le_lower_bound; [lia|].
    rewrite <- Z.pow_add_r by lia. replace (n + (Zdigits2 m - n - 1)) with (Zdigits2 m - 1) by lia.
    exact Hl. }
  assert (Up : m / 2 ^ n < 2 ^ (Zdigits2 m - n)).
  { apply Z.div_lt_upper_bound; [lia|].
    rewrite <- Z.pow_add_r by lia. replace (n + (Zdigits2 m - n)) with (Zdigits2 m) by lia.
    exact Hu. }
  apply Z.le_antisymm.
  - apply Zdigits2_le; [lia|]. split; [apply Z.div_pos; lia|exact Up].
  - apply Zdigits2_ge. exact L.
Qed.

(** [binary_round_aux] returns a valid float when it is given at least
    the digits the format keeps. *)
Lemma binary_round_aux_valid (s : bool) (m e r d : Z) :
  0 <= m -> 0 <= r < d -> e <= fexp prec emax (Zdigits2 m + e) ->
  valid (binary_round_aux prec emax s m e (loc_of r d)) = true.
Proof.
  intros Hm Hr Hprec.
  pose proof (shift_of_nonneg m e) as Hn.
  destruct (shift_of_fits m e Hm) as [Hfit He1].
  assert (Hs : shift_of m e = fexp prec emax (Zdigits2 m + e) - e) by (unfold shift_of; lia).
  set (n1 := shift_of m e) in *.
  assert (HP : 0 < 2 ^ n1) by (apply Z.pow_pos_nonneg; lia).
  pose proof (shift_range m r d (2 ^ n1) Hm Hr HP) as R1.
  pose proof (round_nearest_even_error (m / 2 ^ n1) _ _ R1) as [Hm2 _].
  cbv zeta in Hm2.
  set (m2 := round_nearest_even (m / 2 ^ n1)
               (loc_of (m mod 2 ^ n1 * d + r) (2 ^ n1 * d))) in *.
  assert (Hm1 : 0 <= m / 2 ^ n1) by (apply Z.div_pos; lia).
  (* above the smallest exponent the mantissa kept has 53 bits *)
  assert (Hnorm : -1074 < e + n1 -> 2 ^ 52 <= m / 2 ^ n1).
  { intros Hgt.
    assert (Hd : n1 = Zdigits2 m - 53) by (unfold fexp, emin, prec, emax in Hs; lia).
    assert (Hm0 : 0 < m).
    { destruct (Z.eq_dec m 0) as [->|]; [|lia]. cbn in Hd. lia. }
    pose proof (Zdigits2_bounds m Hm0) as [Hl _].
    apply Z.div_le_lower_bound; [lia|].
    rewrite <- Z.pow_add_r by lia. replace (n1 + 52) with (Zdigits2 m - 1) by lia.
    exact Hl. }
  unfold binary_round_aux.
  rewrite shr_fexp_loc by assumption. fold n1.
  rewrite shr_m_record_of_loc, loc_of_shr_record_of_loc. fold m2.
  change loc_Exact with (loc_of 0 1).
  rewrite shr_fexp_loc by lia.
  rewrite shr_m_record_of_loc.
  destruct (Z.eq_dec m2 (2 ^ 53)) as [E|NE].
  - assert (S2 : shift_of m2 (e + n1) = 1).
    { rewrite E. unfold shift_of, fexp, emin, prec, emax.
      change (Zdigits2 (2 ^ 53)) with 54. lia. }
    rewrite S2. rewrite E. change (2 ^ 53 / 2 ^ 1) with (Z.pos (2 ^ 52)).
    cbv iota beta.
    destruct (Z.leb (e + n1 + 1) (emax - prec)) eqn:L; [|reflexivity].
    unfold valid, valid_binary, bounded. rewrite L, andb_true_r.
    unfold canonical_mantissa. apply Z.eqb_eq.
    change (Z.pos (digits2_pos (2 ^ 52))) with 53.
    unfold fexp, emin, prec, emax. lia.
  - assert (D53 : Zdigits2 m2 <= 53) by (apply Zdigits2_le; lia).
    assert (S2 : shift_of m2 (e + n1) = 0).
    { unfold shift_of, fexp, emin, prec, emax. lia. }
    rewrite S2, Z.pow_0_r, Z.div_1_r, Z.add_0_r.
    destruct m2 as [|p|p] eqn:Ep; [reflexivity| |reflexivity].
    destruct (Z.leb (e + n1) (emax - prec)) eqn:L; [|reflexivity].
    unfold valid, valid_binary, bounded. rewrite L, andb_true_r.
    unfold canonical_mantissa. apply Z.eqb_eq.
    change (Z.pos (digits2_pos p)) with (Zdigits2 (Z.pos p)).
    destruct (Z.eq_dec (e + n1) (-1074)) as [Emin|Ngt].
    + unfold fexp, emin, prec, emax. lia.
    + assert (2 ^ 52 <= Z.pos p) by (specialize (Hnorm ltac:(lia)); lia).
      assert (53 <= Zdigits2 (Z.pos p)) by (apply Zdigits2_ge; exact H).
      unfold fexp, emin, prec, emax. lia.
Qed.

Lemma div_valid (x y : float64) : valid (Float64.div x y) = true.
Proof.
  destruct x as [sx|sx| |sx mx ex], y as [sy|sy| |sy my ey];
    unfold Float64.div, SFdiv; try reflexivity.
  rewrite SFdiv_core_binary_loc.
  pose proof (div_numerator_pos mx my ex ey) as [Hn _].
  apply binary_round_aux_valid.
  - apply Z.div_pos; lia.
  - apply Z.mod_pos_bound. lia.
  - apply div_quotient_digits.
Qed.

Lemma binary_round_valid (s : bool) (m : positive) (e : Z) :
  valid (binary_round prec emax s m e) = true.
Proof.
  unfold binary_round.
  change (Z.pos (digits2_pos m)) with (Zdigits2 (Z.pos m)).
  set (t := fexp prec emax (Zdigits2 (Z.pos m) + e)).
  pose proof (shl_align_spec m e t) as A.
  destruct (shl_align m e t) as [mz ez]. destruct A as [Ez Em].
  assert (Hd : Zdigits2 (Z.pos mz) + ez = Zdigits2 (Z.pos m) + e).
  { rewrite Em, Zdigits2_mul_pow2 by lia. lia. }
  change loc_Exact with (loc_of 0 1).
  apply binary_round_aux_valid; try lia.
  rewrite Hd. fold t. lia.
Qed.

Lemma binary_normalize_valid (m e : Z) (s : bool) :
  valid (binary_normalize prec emax m e s) = true.
Proof. destruct m; [reflexivity| |]; apply binary_round_valid. Qed.

Lemma of_int_valid (n : Z) : valid (Float64.of_int n) = true.
Proof. apply binary_normalize_valid. Qed.

Lemma add_valid (x y : float64) :
  valid x = true -> valid y = true -> valid (Float64.add x y) = true.
Proof.
  intros Hx Hy.
  destruct x as [sx|sx| |sx mx ex], y as [sy|sy| |sy my ey];
    unfold Float64.add, SFadd; try reflexivity; try assumption;
    try (destruct sx, sy; reflexivity).
  apply binary_normalize_valid.
Qed.

Lemma mul_valid (x y : float64) :
  valid x = true -> valid y = true -> valid (Float64.mul x y) = true.
Proof.
  intros Hx Hy.
  destruct x as [sx|sx| |sx mx ex], y as [sy|sy| |sy my ey];
    unfold Float64.mul, SFmul; try reflexivity.
  destruct (valid_canonical _ _ _ Hx) as [Hmx [Hex Hnx]].
  destruct (valid_canonical _ _ _ Hy) as [Hmy [Hey Hny]].
  change loc_Exact with (loc_of 0 1).
  apply binary_round_aux_valid; try lia.
  assert (Hd : Zdigits2 (Z.pos mx) + Zdigits2 (Z.pos my) - 1 <= Zdigits2 (Z.pos (mx * my))).
  { apply Zdigits2_ge.
    pose proof (Zdigits2_bounds (Z.pos mx) ltac:(lia)) as [Lx _].
    pose proof (Zdigits2_bounds (Z.pos my) ltac:(lia)) as [Ly _].
    assert (Dx : 0 < Zdigits2 (Z.pos mx)) by (cbn; lia).
    assert (Dy : 0 < Zdigits2 (Z.pos my)) by (cbn; lia).
    replace (Zdigits2 (Z.pos mx) + Zdigits2 (Z.pos my) - 1 - 1)
      with ((Zdigits2 (Z.pos mx) - 1) + (Zdigits2 (Z.pos my) - 1)) by lia.
    rewrite Z.pow_add_r by lia. rewrite Pos2Z.inj_mul.
    apply Z.mul_le_mono_nonneg; try lia;
      apply Z.pow_nonneg; lia. }
  assert (Dx : 1 <= Zdigits2 (Z.pos mx)) by (cbn; lia).
  assert (Dy : 1 <= Zdigits2 (Z.pos my)) by (cbn; lia).
  assert (Nx : ex = -1074 \/ 53 <= Zdigits2 (Z.pos mx)).
  { destruct Hnx as [|H]; [now left|right]. now apply Zdigits2_ge. }
  assert (Ny : ey = -1074 \/ 53 <= Zdigits2 (Z.pos my)).
  { destruct Hny as [|H]; [now left|right]. now apply Zdigits2_ge. }
  unfold fexp, emin, prec, emax. lia.
Qed.

(** ** Ties away from zero, as a function on the rationals *)

Lemma round_half_away_comp (q q' : Q) : (q == q')%Q -> round_half_away q = round_half_away q'.
Proof.
  intros H. unfold round_half_away, Qceiling.
  rewrite (Qfloor_comp (q + (1 # 2)) (q' + (1 # 2))) by (now rewrite H).
  rewrite (Qfloor_comp (- (q - (1 # 2))) (- (q' - (1 # 2)))) by (now rewrite H).
  assert (E : Qle_bool 0 q = Qle_bool 0 q').
  { destruct (Qle_bool 0 q) eqn:A, (Qle_bool 0 q') eqn:B; try reflexivity.
    - apply Qle_bool_iff in A. rewrite H in A. apply Qle_bool_iff in A. congruence.
    - apply Qle_bool_iff in B. rewrite <- H in B. apply Qle_bool_iff in B. congruence. }
  now rewrite E.
Qed.

Lemma round_half_away_opp (q : Q) : round_half_away (- q) = - round_half_away q.
Proof.
  destruct (Qlt_le_dec 0 q) as [P|N].
  - rewrite round_half_away_neg by assumption.
    rewrite round_half_away_pos by (now apply Qlt_le_weak). reflexivity.
  - destruct (Qlt_le_dec q 0) as [P'|N'].
    + assert (Hq : (0 < - q)%Q) by lra.
      rewrite (round_half_away_comp q (- - q)) by (symmetry; apply Qopp_involutive).
      rewrite (round_half_away_neg (- q) Hq).
      rewrite round_half_away_pos by (now apply Qlt_le_weak). lia.
    + assert (E : (q == 0)%Q) by lra.
      rewrite (round_half_away_comp (- q) 0) by (rewrite E; reflexivity).
      rewrite (round_half_away_comp q 0) by exact E. reflexivity.
Qed.

(** The integer nearest to [q], ties away from zero, is within one half
    of [q]. *)
Lemma round_half_away_error (q : Q) :
  (Qabs (inject_Z (round_half_away q) - q) <= 1 # 2)%Q.
Proof.
  assert (P : forall y, (0 <= y)%Q ->
                (Qabs (inject_Z (round_half_away y) - y) <= 1 # 2)%Q).
  { intros y Hy. rewrite round_half_away_pos by assumption.
    pose proof (Qfloor_le (y + (1 # 2))) as A. pose proof (Qlt_floor (y + (1 # 2))) as B.
    rewrite inject_Z_plus in B. change (inject_Z 1) with 1%Q in B.
    apply Qabs_Qle_condition. split; lra. }
  destruct (Qlt_le_dec q 0) as [N|N]; [|now apply P].
  assert (Hn : (0 <= - q)%Q) by lra.
  specialize (P (- q)%Q Hn).
  rewrite round_half_away_opp, inject_Z_opp in P.
  rewrite <- Qabs_opp.
  setoid_replace (- (inject_Z (round_half_away q) - q))%Q
    with (- inject_Z (round_half_away q) - - q)%Q by ring.
  exact P.
Qed.

Lemma Qabs_finite (s : bool) (m : positive) (e : Z) :
  (Qabs (to_Q (S754_finite s m e)) == inject_Z (Z.pos m) * pow2 e)%Q.
Proof.
  assert (Hq : (0 < inject_Z (Z.pos m) * pow2 e)%Q)
    by (apply Qmult_lt_0_compat; [reflexivity|apply pow2_pos]).
  destruct s; cbn [to_Q].
  - rewrite Qabs_opp. apply Qabs_pos. now apply Qlt_le_weak.
  - apply Qabs_pos. now apply Qlt_le_weak.
Qed.

Lemma Qabs_inject_Z (n : Z) : (Qabs (inject_Z n) == inject_Z (Z.abs n))%Q.
Proof.
  destruct (Z.le_gt_cases 0 n) as [P|N].
  - rewrite Z.abs_eq by assumption. apply Qabs_pos. now rewrite <- (Zle_Qle 0).
  - rewrite Z.abs_neq by lia. rewrite inject_Z_opp. apply Qabs_neg.
    change 0%Q with (inject_Z 0). rewrite <- Zle_Qle. lia.
Qed.

Lemma pow2_62 : (pow2 62 == 4611686018427387904)%Q.
Proof. reflexivity. Qed.

Lemma round_opp_pos (U : float64 -> Z) (m : positive) (e : Z) :
  (inject_Z (Z.pos m) * pow2 e < pow2 62)%Q ->
  round U (S754_finite true m e) = - round U (S754_finite false m e).
Proof.
  intros Hlt.
  set (q := (inject_Z (Z.pos m) * pow2 e)%Q) in *.
  assert (Hq : (0 < q)%Q) by (apply Qmult_lt_0_compat; [reflexivity|apply pow2_pos]).
  unfold round. rewrite !ltb_zero_negative, half_value. cbn [negative].
  change (Float64.sub (S754_finite true m e))
    with (Float64.sub (SFopp (S754_finite false m e))).
  rewrite sub_opp_pos.
  set (x := (q + (1 # 2))%Q).
  assert (Hx : (x == inject_Z (Z.pos m) * pow2 e
                     + inject_Z 4503599627370496 * pow2 (-53))%Q).
  { rewrite half_Q. reflexivity. }
  rewrite pow2_62 in Hlt.
  assert (Hl1 : (x < pow2 (10 + 53))%Q).
  { change (pow2 (10 + 53)) with 9223372036854775808%Q. unfold x. lra. }
  destruct (add_pos_Q m 4503599627370496 e (-53) x 10 Hx ltac:(lia) Hl1)
    as [e1 [He1 HR]].
  set (R := Float64.add (S754_finite false m e)
              (S754_finite false 4503599627370496 (-53))) in *.
  pose proof (rounds_to_finite _ _ _ _ HR) as HF.
  apply rounds_to_nonneg in HR. destruct HR as [H1 [H2 [[K [HK Hg]] _]]].
  assert (V0 : (0 <= to_Q R)%Q).
  { rewrite Hg. apply Qmult_le_0_compat; [now rewrite <- (Zle_Qle 0)|].
    apply Qlt_le_weak, pow2_pos. }
  assert (V1 : (to_Q R < inject_Z (2 ^ 63))%Q).
  { assert (P : (pow2 (e1 - 1) <= pow2 9)%Q) by (apply pow2_le; lia).
    change (pow2 9) with 512%Q in P.
    change (inject_Z (2 ^ 63)) with 9223372036854775808%Q. unfold x in H2. lra. }
  apply to_int64_opp; [exact HF|].
  unfold Qtruncate. rewrite (proj2 (Qle_bool_iff _ _) V0).
  pose proof (Qfloor_le (to_Q R)) as F1. pose proof (Qlt_floor (to_Q R)) as F2.
  assert (A : (inject_Z (-1) < inject_Z (Qfloor (to_Q R) + 1 - 1))%Q).
  { replace (Qfloor (to_Q R) + 1 - 1) with (Qfloor (to_Q R) + 1 + -1) by lia.
    rewrite (inject_Z_plus _ (-1)). change (inject_Z (-1)) with (-1)%Q. lra. }
  assert (B : (inject_Z (Qfloor (to_Q R)) < inject_Z (2 ^ 63))%Q) by lra.
  rewrite <- Zlt_Qlt in A, B. lia.
Qed.

(** ** [NewAmount] near a multiple of [10^-8] *)

Lemma fits_opp (f : float64) : fits f -> fits (SFopp f).
Proof. destruct f; cbn; auto. Qed.

Lemma valid_opp (f : float64) : valid (SFopp f) = valid f.
Proof. destruct f; reflexivity. Qed.

(** [round] on a float with a 53-bit mantissa and on its opposite, from
    bounds on the magnitude. *)
Lemma round_fits_between (U : float64 -> Z) (R : float64) (n : Z) :
  fits R -> is_finite R = true -> 0 <= n < 2 ^ 52 ->
  (inject_Z n - (1 # 2) <= to_Q R)%Q -> (to_Q R < inject_Z n + (1 # 2))%Q ->
  (n = 0 -> (to_Q R <= (1 # 2) - pow2 (-53))%Q) ->
  (0 <= to_Q R)%Q ->
  round U R = n /\ round U (SFopp R) = - n.
Proof.
  intros Hfit HF Hn L Up Hz V0.
  assert (N2 : (inject_Z n <= 4503599627370495)%Q)
    by (change 4503599627370495%Q with (inject_Z (2 ^ 52 - 1)); rewrite <- Zle_Qle; lia).
  assert (A : (Qabs (to_Q R) == to_Q R)%Q) by (now apply Qabs_pos).
  assert (Hlt : (Qabs (to_Q R) < pow2 52)%Q) by (rewrite A, pow2_52; lra).
  assert (Hex : (Qabs (to_Q R) <= (1 # 2) - pow2 (-53))%Q \/ (1 # 2 <= Qabs (to_Q R))%Q).
  { rewrite A. destruct (Z.eq_dec n 0) as [E|NE]; [left; now apply Hz|right].
    assert (N1 : (1 <= inject_Z n)%Q) by (rewrite <- (Zle_Qle 1); lia). lra. }
  assert (F : Qfloor (to_Q R + (1 # 2)) = n).
  { apply Qfloor_eq; [lra|]. rewrite inject_Z_plus. change (inject_Z 1) with 1%Q. lra. }
  split.
  - rewrite (round_fits U R Hfit HF Hlt Hex).
    rewrite round_half_away_pos by assumption. exact F.
  - rewrite (round_fits U (SFopp R)).
    + rewrite (round_half_away_comp _ _ (to_Q_opp R)), round_half_away_opp.
      rewrite round_half_away_pos by assumption. now rewrite F.
    + now apply fits_opp.
    + now rewrite is_finite_opp.
    + rewrite to_Q_opp, Qabs_opp. exact Hlt.
    + rewrite to_Q_opp, Qabs_opp. exact Hex.
Qed.

Lemma round_mul_near_pos (U : float64 -> Z) (m : positive) (e n : Z) :
  e <= 24 -> 0 <= n < 2 ^ 51 ->
  (inject_Z n - (1 # 4) <= inject_Z (Z.pos m) * pow2 e * 100000000)%Q ->
  (inject_Z (Z.pos m) * pow2 e * 100000000 <= inject_Z n + (1 # 4))%Q ->
  round U (Float64.mul (S754_finite false m e) HaoPerBitcoin) = n
  /\ round U (Float64.mul (S754_finite true m e) HaoPerBitcoin) = - n.
Proof.
  intros He Hn L Up. rewrite HaoPerBitcoin_value.
  change (S754_finite true m e) with (SFopp (S754_finite false m e)).
  rewrite mul_opp_l.
  assert (N2 : (inject_Z n <= 2251799813685247)%Q)
    by (change 2251799813685247%Q with (inject_Z (2 ^ 51 - 1)); rewrite <- Zle_Qle; lia).
  set (q := (inject_Z (Z.pos m) * pow2 e)%Q) in *.
  set (x := (q * 100000000)%Q) in *.
  assert (Hx : (x == q * (inject_Z 6710886400000000 * pow2 (-26)))%Q)
    by (rewrite ten8_Q; reflexivity).
  assert (Hlt : (x < pow2 (-2 + 53))%Q).
  { change (-2 + 53) with 51. rewrite pow2_51. lra. }
  destruct (mul_Q_bound false false m 6710886400000000 e (-26) x (-2) Hx
              ltac:(lia) ltac:(lia) Hlt) as [e1 [He1 HR]].
  cbn [xorb] in HR.
  pose proof (mul_fits (S754_finite false m e) (S754_finite false 6710886400000000 (-26)))
    as Hfit.
  set (R := Float64.mul (S754_finite false m e)
              (S754_finite false 6710886400000000 (-26))) in *.
  pose proof (rounds_to_finite _ _ _ _ HR) as HF.
  apply rounds_to_nonneg in HR. destruct HR as [H1 [H2 [[K [HK Hg]] _]]].
  assert (V0 : (0 <= to_Q R)%Q).
  { rewrite Hg. apply Qmult_le_0_compat; [now rewrite <- (Zle_Qle 0)|].
    apply Qlt_le_weak, pow2_pos. }
  assert (P : (pow2 (e1 - 1) <= 1 # 8)%Q).
  { rewrite <- pow2_m3. apply pow2_le. lia. }
  apply round_fits_between; try assumption; try lia; try lra.
  intros ->. change (inject_Z 0) with 0%Q in *. rewrite pow2_m53. lra.
Qed.

Lemma pow2_26 : (pow2 26 == 67108864)%Q.
Proof. reflexivity. Qed.

Section NewAmountNear.

Variable U : float64 -> Z.

Lemma NewAmount_near_fits (f : float64) (n : Z) :
  is_finite f = true ->
  (forall s m e, f = S754_finite s m e -> e <= 24) ->
  - 2 ^ 51 < n < 2 ^ 51 ->
  (Qabs (to_Q f * 100000000 - inject_Z n) <= 1 # 4)%Q ->
  NewAmount U f 0 = (n, None).
Proof.
  intros Hf He Hn Hnear. apply Qabs_Qle_condition in Hnear. destruct Hnear as [L Up].
  destruct f as [s|s| |s m e]; try discriminate.
  - cbn [to_Q] in L, Up.
    assert (A : (inject_Z (-1) < inject_Z n)%Q) by (change (inject_Z (-1)) with (-1)%Q; lra).
    assert (B : (inject_Z n < inject_Z 1)%Q) by (change (inject_Z 1) with 1%Q; lra).
    rewrite <- Zlt_Qlt in A, B. assert (n = 0) by lia. subst n.
    destruct s; reflexivity.
  - specialize (He s m e eq_refl).
    rewrite NewAmount_finite_small by lia. cbn [Z.eqb]. f_equal.
    assert (Hq : (0 < inject_Z (Z.pos m) * pow2 e)%Q)
      by (apply Qmult_lt_0_compat; [reflexivity|apply pow2_pos]).
    destruct s; cbn [to_Q] in L, Up.
    + assert (A : (inject_Z n < inject_Z 1)%Q) by (change (inject_Z 1) with 1%Q; lra).
      rewrite <- Zlt_Qlt in A.
      destruct (round_mul_near_pos U m e (- n) He ltac:(lia)) as [_ R].
      * rewrite inject_Z_opp. lra.
      * rewrite inject_Z_opp. lra.
      * rewrite R. lia.
    + assert (A : (inject_Z (-1) < inject_Z n)%Q) by (change (inject_Z (-1)) with (-1)%Q; lra).
      rewrite <- Zlt_Qlt in A.
      destruct (round_mul_near_pos U m e n He ltac:(lia)) as [R _]; try lra.
      exact R.
Qed.

Lemma valid_small_exponent (s : bool) (m : positive) (e c : Z) :
  valid (S754_finite s m e) = true -> -1074 <= c ->
  (inject_Z (Z.pos m) * pow2 e < pow2 (c + 53))%Q -> e <= c.
Proof.
  intros Hv Hc Hlt. destruct (valid_canonical s m e Hv) as [Hm [He [Hn|Hn]]]; [lia|].
  assert (A : (pow2 (52 + e) < pow2 (c + 53))%Q).
  { eapply Qle_lt_trans; [|exact Hlt]. rewrite pow2_add.
    apply Qmult_le_compat_r; [|apply Qlt_le_weak, pow2_pos].
    rewrite pow2_nonneg_Z by lia. now rewrite <- Zle_Qle. }
  apply pow2_lt_inv in A. lia.
Qed.

(** X3.  With token type 0, a valid finite float within a quarter of a
    Hao of [n * 10^-8] coins, for [|n| < 2^51], is converted to exactly
    [n] Hao, with a nil error. *)
Theorem NewAmount_near (f : float64) (n : Z) :
  valid f = true -> is_finite f = true -> - 2 ^ 51 < n < 2 ^ 51 ->
  (Qabs (to_Q f * inject_Z (10 ^ 8) - inject_Z n) <= 1 # 4)%Q ->
  NewAmount U f 0 = (n, None).
Proof.
  intros Hv Hf Hn Hnear. change (inject_Z (10 ^ 8)) with 100000000%Q in Hnear.
  apply NewAmount_near_fits; try assumption.
  intros s m e ->.
  apply (valid_small_exponent s m e 24 Hv); [lia|].
  rewrite <- (Qabs_finite s m e).
  assert (N2 : (Qabs (inject_Z n) <= 2251799813685247)%Q).
  { apply Qabs_Qle_condition.
    change 2251799813685247%Q with (inject_Z (2 ^ 51 - 1)).
    rewrite <- inject_Z_opp, <- !Zle_Qle. lia. }
  set (v := to_Q (S754_finite s m e)) in *.
  assert (T : (Qabs (v * 100000000) <= Qabs (v * 100000000 - inject_Z n) + Qabs (inject_Z n))%Q).
  { setoid_replace (v * 100000000)%Q with ((v * 100000000 - inject_Z n) + inject_Z n)%Q at 1
      by ring.
    apply Qabs_triangle. }
  rewrite Qabs_Qmult in T. change (Qabs 100000000) with 100000000%Q in T.
  change (pow2 (24 + 53)) with 151115727451828646838272%Q.
  pose proof (Qabs_nonneg v). lra.
Qed.

End NewAmountNear.

(** ** Decimal constants and whole coins *)

Lemma of_int_Q (k : Z) :
  - 2 ^ 53 < k < 2 ^ 53 ->
  is_finite (Float64.of_int k) = true /\ (to_Q (Float64.of_int k) == inject_Z k)%Q.
Proof.
  intros Hk. destruct (Z.lt_trichotomy k 0) as [N|[->|P]].
  - replace k with (- - k) by lia. rewrite of_int_opp by lia.
    destruct (of_int_exact (- k) ltac:(lia)) as [E [m [e F]]].
    rewrite is_finite_opp, to_Q_opp, E, F. split; [reflexivity|].
    rewrite !inject_Z_opp. ring.
  - split; reflexivity.
  - destruct (of_int_exact k ltac:(lia)) as [E [m [e F]]]. rewrite F in *.
    split; [reflexivity|exact E].
Qed.

Lemma of_ratio_div (p d : positive) (s : bool) :
  (if s then of_ratio (Z.neg p) d else of_ratio (Z.pos p) d)
  = Float64.div (S754_finite s p 0) (S754_finite false d 0).
Proof. destruct s; reflexivity. Qed.

Lemma of_ratio_opp (p d : positive) :
  of_ratio (Z.neg p) d = SFopp (of_ratio (Z.pos p) d).
Proof.
  rewrite (of_ratio_div p d true), (of_ratio_div p d false).
  apply (div_opp_l false).
Qed.

(** The constant [n / 10^8], written as any fraction, is a float within
    a quarter of a Hao of it. *)
Lemma of_ratio_pos_near (p d : positive) (n : Z) :
  0 < n < 2 ^ 51 -> Z.pos p * 10 ^ 8 = n * Z.pos d ->
  exists (m : positive) (e : Z),
    of_ratio (Z.pos p) d = S754_finite false m e /\ e <= -27
    /\ (Qabs (inject_Z (Z.pos m) * pow2 e * 100000000 - inject_Z n) <= 1 # 4)%Q.
Proof.
  intros Hn Heq.
  rewrite (of_ratio_div p d false).
  assert (N1 : (1 <= inject_Z n)%Q) by (rewrite <- (Zle_Qle 1); lia).
  assert (N2 : (inject_Z n <= 2251799813685247)%Q)
    by (change 2251799813685247%Q with (inject_Z (2 ^ 51 - 1)); rewrite <- Zle_Qle; lia).
  set (x := (inject_Z n * (1 # 100000000))%Q).
  assert (D : (0 < inject_Z (Z.pos d))%Q) by reflexivity.
  assert (Hx : (x * (inject_Z (Z.pos d) * pow2 0) == inject_Z (Z.pos p) * pow2 0)%Q).
  { change (pow2 0) with 1%Q. rewrite !Qmult_1_r. unfold x.
    setoid_replace (inject_Z n * (1 # 100000000) * inject_Z (Z.pos d))%Q
      with (inject_Z (n * Z.pos d) * (1 # 100000000))%Q by (rewrite inject_Z_mult; ring).
    rewrite <- Heq, inject_Z_mult. change (inject_Z (10 ^ 8)) with 100000000%Q.
    field. }
  assert (Hlt : (x < pow2 (-28 + 53))%Q).
  { change (-28 + 53) with 25. rewrite pow2_25. unfold x. lra. }
  destruct (div_Q false false p d 0 0 x (-28) Hx ltac:(lia) Hlt)
    as [e1 [He1 [HR Hrel]]].
  assert (Hnorm : (pow2 (-1022) <= x)%Q).
  { eapply Qle_trans; [apply pow2_m1022_small|]. unfold x. lra. }
  specialize (Hrel Hnorm). rewrite pow2_m53 in Hrel.
  cbn [xorb] in HR. apply rounds_to_nonneg in HR.
  destruct HR as [H1 [H2 [_ HQ]]].
  set (R := Float64.div (S754_finite false p 0) (S754_finite false d 0)) in *.
  destruct HQ as [H0|[m [e [HQ He]]]].
  - exfalso. rewrite H0 in H1. cbn [to_Q] in H1. unfold x in *. lra.
  - exists m, e. split; [exact HQ|]. split; [lia|].
    rewrite HQ in H1, H2. cbn [to_Q] in H1, H2. unfold x in *.
    apply Qabs_Qle_condition. split; lra.
Qed.

Section NewAmountDecimal.

Variable U : float64 -> Z.

(** X4.  A constant whose exact value [num / den] is [n * 10^-8] coins,
    [|n| < 2^51], rounded to float64 as constants (and parsed decimals)
    are, is converted with token type 0 to exactly [n] Hao. *)
Theorem NewAmount_decimal (num : Z) (den : positive) (n : Z) :
  - 2 ^ 51 < n < 2 ^ 51 -> num * 10 ^ 8 = n * Z.pos den ->
  NewAmount U (of_ratio num den) 0 = (n, None).
Proof.
  intros Hn Heq. destruct num as [|p|p].
  - assert (n = 0) by nia. subst n. reflexivity.
  - assert (Hp : 0 < n < 2 ^ 51) by nia.
    destruct (of_ratio_pos_near p den n Hp Heq) as [m [e [E [He Hnear]]]].
    rewrite E. apply NewAmount_near_fits; try assumption; try reflexivity.
    intros s' m' e' H. injection H as <- <- <-. lia.
  - assert (Hp : 0 < - n < 2 ^ 51) by nia.
    assert (Heq' : Z.pos p * 10 ^ 8 = - n * Z.pos den) by lia.
    destruct (of_ratio_pos_near p den (- n) Hp Heq') as [m [e [E [He Hnear]]]].
    rewrite of_ratio_opp, E. cbn [SFopp negb].
    apply NewAmount_near_fits; try assumption; try reflexivity.
    + intros s' m' e' H. injection H as <- <- <-. lia.
    + cbn [to_Q]. rewrite inject_Z_opp in Hnear.
      rewrite <- Qabs_opp.
      setoid_replace (- (- (inject_Z (Z.pos m) * pow2 e) * 100000000 - inject_Z n))%Q
        with (inject_Z (Z.pos m) * pow2 e * 100000000 - - inject_Z n)%Q by ring.
      exact Hnear.
Qed.

(** X5.  A whole number [k] of coins, converted to float64, is converted
    with token type 0 to exactly [k * 10^8] Hao, as long as that is below
    [2^51] in magnitude. *)
Theorem NewAmount_whole_coins (k : Z) :
  - 2 ^ 51 < k * 10 ^ 8 < 2 ^ 51 ->
  NewAmount U (Float64.of_int k) 0 = (k * 10 ^ 8, None).
Proof.
  intros Hk. destruct (of_int_Q k ltac:(lia)) as [Hf Hq].
  apply NewAmount_near_fits; try assumption.
  - intros s m e E. pose proof (of_int_valid k) as V. rewrite E in V.
    apply Z.le_trans with 0; [|lia].
    apply (valid_small_exponent s m e 0 V); [lia|].
    rewrite <- (Qabs_finite s m e), <- E, Hq, Qabs_inject_Z.
    change (0 + 53) with 53. rewrite pow2_nonneg_Z by lia. rewrite <- Zlt_Qlt. lia.
  - rewrite Hq. change 100000000%Q with (inject_Z (10 ^ 8)). rewrite <- inject_Z_mult.
  setoid_replace (inject_Z (k * 10 ^ 8) - inject_Z (k * 10 ^ 8))%Q with 0%Q by ring.
  discriminate.
Qed.

End NewAmountDecimal.

Lemma NewAmount_near_witness :
  NewAmount amd64_unrepresentable (of_ratio 123456789 100000000) 0 = (123456789, None).
Proof.
  apply (NewAmount_near amd64_unrepresentable (of_ratio 123456789 100000000) 123456789).
  - vm_compute. reflexivity.
  - vm_compute. reflexivity.
  - lia.
  - vm_compute. discriminate.
Defined.

Lemma NewAmount_decimal_witness :
  NewAmount amd64_unrepresentable (of_ratio 21 20) 0 = (105000000, None).
Proof.
  apply (NewAmount_decimal amd64_unrepresentable 21 20 105000000); [lia|reflexivity].
Defined.

Lemma NewAmount_whole_coins_witness :
  NewAmount amd64_unrepresentable (Float64.of_int (-21000000)) 0
  = (-2100000000000000, None).
Proof.
  apply (NewAmount_whole_coins amd64_unrepresentable (-21000000)). lia.
Defined.

(** ** The special values of [ToUnit] *)

Lemma Pow10_above (n : Z) : 308 < n -> math.Pow10 n = Float64.Inf.
Proof.
  intros H. unfold math.Pow10.
  destruct (Z.leb_spec 0 n), (Z.leb_spec n 308), (Z.leb_spec (-323) n),
    (Z.leb_spec n 0), (Z.ltb_spec 0 n); cbn; try reflexivity; lia.
Qed.

Lemma Pow10_below (n : Z) : n < -323 -> math.Pow10 n = Float64.zero.
Proof.
  intros H. unfold math.Pow10.
  destruct (Z.leb_spec 0 n), (Z.leb_spec n 308), (Z.leb_spec (-323) n),
    (Z.leb_spec n 0), (Z.ltb_spec 0 n); cbn; try reflexivity; lia.
Qed.

Lemma pow10_pos (n : Z) : (0 < pow10 n)%Q.
Proof. apply Qpower_0_lt. reflexivity. Qed.

Lemma pow10_le (a b : Z) : a <= b -> (pow10 a <= pow10 b)%Q.
Proof. intros H. apply Qpower_le_compat_l; [assumption|discriminate]. Qed.

(** [10^n] and [2^e] as quotients of integers. *)
Lemma pow10_ratio (n : Z) :
  (pow10 n * inject_Z (10 ^ Z.max (- n) 0) == inject_Z (10 ^ Z.max n 0))%Q.
Proof.
  rewrite !Zpower_Qpower by lia. change (inject_Z 10) with 10%Q. fold (pow10 (Z.max (- n) 0)).
  fold (pow10 (Z.max n 0)). unfold pow10. rewrite <- Qpower_plus by discriminate.
  now replace (n + Z.max (- n) 0) with (Z.max n 0) by lia.
Qed.

Lemma pow2_ratio (e : Z) :
  (pow2 e * inject_Z (2 ^ Z.max (- e) 0) == inject_Z (2 ^ Z.max e 0))%Q.
Proof.
  rewrite <- !pow2_nonneg_Z by lia. rewrite <- pow2_add.
  now replace (e + Z.max (- e) 0) with (Z.max e 0) by lia.
Qed.

Lemma close_to_pow10_spec (n : Z) (m : positive) (e : Z) :
  close_to_pow10 n (S754_finite false m e) = true ->
  (Qabs (inject_Z (Z.pos m) * pow2 e - pow10 n) <= pow10 n * pow2 (-51))%Q.
Proof.
  unfold close_to_pow10. cbv zeta. intros H. apply Z.leb_le in H.
  pose proof (pow10_ratio n) as HT. pose proof (pow2_ratio e) as HP.
  set (N := 10 ^ Z.max n 0) in *. set (D := 10 ^ Z.max (- n) 0) in *.
  set (E := 2 ^ Z.max (- e) 0) in *. set (B := 2 ^ Z.max e 0) in *.
  assert (D0 : (0 < inject_Z D)%Q).
  { rewrite <- (Zlt_Qlt 0). apply Z.pow_pos_nonneg; lia. }
  assert (E0 : (0 < inject_Z E)%Q).
  { rewrite <- (Zlt_Qlt 0). apply Z.pow_pos_nonneg; lia. }
  rewrite Zle_Qle in H.
  rewrite !inject_Z_mult, <- Qabs_inject_Z in H.
  unfold Z.sub in H. rewrite inject_Z_plus, inject_Z_opp, !inject_Z_mult in H.
  rewrite <- HT, <- HP in H.
  set (T := pow10 n) in *. set (P := pow2 e) in *. set (mq := inject_Z (Z.pos m)) in *.
  set (Dq := inject_Z D) in *. set (Eq := inject_Z E) in *.
  assert (K : (P * Eq * mq * Dq + - (Eq * (T * Dq)) == (mq * P - T) * (Eq * Dq))%Q) by ring.
  rewrite K, Qabs_Qmult in H.
  assert (ED : (0 < Eq * Dq)%Q) by (apply Qmult_lt_0_compat; assumption).
  rewrite (Qabs_pos (Eq * Dq)) in H by (now apply Qlt_le_weak).
  change (inject_Z (2 ^ 51)) with 2251799813685248%Q in H.
  assert (G : (2251799813685248 * Qabs (mq * P - T) <= T)%Q).
  { apply (Qmult_le_r _ _ (Eq * Dq) ED).
    setoid_replace (2251799813685248 * Qabs (mq * P - T) * (Eq * Dq))%Q
      with (2251799813685248 * (Qabs (mq * P - T) * (Eq * Dq)))%Q by ring.
    setoid_replace (T * (Eq * Dq))%Q with (Eq * (T * Dq))%Q by ring.
    exact H. }
  change (pow2 (-51)) with (1 # 2251799813685248)%Q.
  remember (Qabs (mq * P - T)) as A. clear - G. lra.
Qed.

(** From [1e-308] to [1e308] [Pow10] is within [2^-51] (relative) of the
    power of ten. *)
Lemma Pow10_accuracy (n : Z) :
  -308 <= n <= 308 ->
  exists (mk : positive) (ek : Z),
    math.Pow10 n = S754_finite false mk ek
    /\ (Qabs (inject_Z (Z.pos mk) * pow2 ek - pow10 n) <= pow10 n * pow2 (-51))%Q.
Proof.
  intros Hn.
  assert (C : check_range 617 (-308) (fun k => close_to_pow10 k (math.Pow10 k)) = true)
    by (vm_compute; reflexivity).
  pose proof (check_range_spec _ _ _ C n) as E. cbv beta in E.
  specialize (E ltac:(lia)). clear C.
  destruct (math.Pow10 n) as [s|s| |[] m e]; try discriminate E.
  exists m, e. split; [reflexivity|]. now apply close_to_pow10_spec.
Qed.

(** From [1e-323] to [1e-309] [Pow10] is a positive float of at most
    [2^-1025]. *)
Lemma Pow10_tiny (n : Z) :
  -323 <= n <= -309 ->
  exists (mk : positive) (ek : Z),
    math.Pow10 n = S754_finite false mk ek
    /\ (inject_Z (Z.pos mk) * pow2 ek <= pow2 (-1025))%Q.
Proof.
  intros Hn.
  assert (C : check_range 15 (-323) (fun k => at_most (pow2 (-1025)) (math.Pow10 k)) = true)
    by (vm_compute; reflexivity).
  pose proof (check_range_spec _ _ _ C n) as E. cbv beta in E.
  specialize (E ltac:(lia)). clear C.
  destruct (math.Pow10 n) as [s|s| |[] m e]; try discriminate E.
  exists m, e. split; [reflexivity|]. now apply Qle_bool_iff.
Qed.

(** From [1e-323] to [1e308] [Pow10] is a positive float. *)
Lemma Pow10_range (n : Z) :
  -323 <= n <= 308 -> exists (m : positive) (e : Z), math.Pow10 n = S754_finite false m e.
Proof.
  intros Hn. destruct (Z.le_gt_cases n (-309)) as [Lo|Hi].
  - destruct (Pow10_tiny n ltac:(lia)) as [m [e [E _]]]. now exists m, e.
  - destruct (Pow10_accuracy n ltac:(lia)) as [m [e [E _]]]. now exists m, e.
Qed.

Lemma of_int_nonzero (a : Z) :
  a <> 0 -> - 2 ^ 64 < a < 2 ^ 64 ->
  exists (m : positive) (e : Z), Float64.of_int a = S754_finite (a <? 0) m e.
Proof.
  intros Hne Ha. destruct (Z.lt_trichotomy a 0) as [N|[E|P]]; [|lia|].
  - destruct (of_int_pos_form (- a) ltac:(lia)) as [m [e [E _]]].
    assert (F : Float64.of_int a = SFopp (Float64.of_int (- a))).
    { rewrite <- of_int_opp by lia. f_equal. lia. }
    rewrite F, E. exists m, e. cbn [SFopp negb]. now rewrite (proj2 (Z.ltb_lt a 0) N).
  - destruct (of_int_pos_form a ltac:(lia)) as [m [e [E _]]].
    exists m, e. rewrite E. now rewrite (proj2 (Z.ltb_ge a 0)) by lia.
Qed.

Lemma div_finite_not_nan (sx sy : bool) (mx my : positive) (ex ey : Z) :
  Float64.div (S754_finite sx mx ex) (S754_finite sy my ey) <> S754_nan.
Proof.
  unfold Float64.div, SFdiv. rewrite SFdiv_core_binary_loc.
  pose proof (div_numerator_pos mx my ex ey) as [Hn _].
  destruct (binary_round_aux_cases (xorb sx sy)
              (div_numerator mx my ex ey / Z.pos my) (div_exponent mx my ex ey)
              (div_numerator mx my ex ey mod Z.pos my) (Z.pos my))
    as [m2 [_ [_ [[_ ->]|[m3 [e3 [_ [_ ->]]]]]]]].
  - apply Z.div_pos; lia.
  - apply Z.mod_pos_bound. lia.
  - discriminate.
  - destruct (e3 <=? 971); discriminate.
Qed.

Lemma in_range_bounds (a : Z) : Int64.in_range a = true -> - 2 ^ 63 <= a <= 2 ^ 63 - 1.
Proof.
  unfold Int64.in_range, Int64.min_int, Int64.max_int. intros H.
  apply andb_true_iff in H. destruct H as [H1 H2]. apply Z.leb_le in H1, H2. lia.
Qed.

(** [ToUnit] is NaN only as 0/0: for the zero amount and a unit whose
    power of ten underflows to 0.  Dividing by that 0 otherwise gives an
    infinity, and dividing by the [+Inf] of an overflowing power gives a
    zero. *)
(** X6.  [ToUnit] is NaN only as 0/0: for the zero amount and a unit
    whose power of ten [Pow10] gives as 0 (exponent below -323).  For
    another amount that division by 0 gives the infinity of the amount's
    sign; a power of ten past 1e308, which [Pow10] gives as [+Inf], gives
    the zero of the amount's sign; and the zero amount is [+0] in every
    other unit. *)
Theorem ToUnit_special_values (a : Amount) (u : AmountUnit) :
  Int64.in_range a = true ->
  (ToUnit a u = S754_nan <-> a = 0 /\ Int64.add u 8 < -323)
  /\ (a <> 0 -> Int64.add u 8 < -323 -> ToUnit a u = S754_infinity (a <? 0))
  /\ (308 < Int64.add u 8 -> ToUnit a u = S754_zero (a <? 0))
  /\ (a = 0 -> -323 <= Int64.add u 8 -> ToUnit a u = S754_zero false).
Proof.
  intros Hr. apply in_range_bounds in Hr. unfold ToUnit.
  set (n := Int64.add u 8).
  assert (A0 : a = 0 -> Float64.of_int a = S754_zero false) by (intros ->; reflexivity).
  assert (A1 : a <> 0 -> exists m e, Float64.of_int a = S754_finite (a <? 0) m e)
    by (intros H; apply of_int_nonzero; lia).
  split; [|split; [|split]].
  - split.
    + intros H.
      destruct (Z.lt_ge_cases n (-323)) as [Lo|NLo].
      * split; [|exact Lo]. destruct (Z.eq_dec a 0) as [|Hne]; [assumption|exfalso].
        destruct (A1 Hne) as [m [e E]]. rewrite E, Pow10_below in H by assumption.
        discriminate H.
      * exfalso. destruct (Z.le_gt_cases n 308) as [Hi|Hi].
        -- destruct (Pow10_range n ltac:(lia)) as [mk [ek EK]]. rewrite EK in H.
           destruct (Z.eq_dec a 0) as [E0|Hne].
           ++ rewrite (A0 E0) in H. discriminate H.
           ++ destruct (A1 Hne) as [m [e E]]. rewrite E in H.
              exact (div_finite_not_nan _ _ _ _ _ _ H).
        -- rewrite Pow10_above in H by assumption.
           destruct (Z.eq_dec a 0) as [E0|Hne].
           ++ rewrite (A0 E0) in H. discriminate H.
           ++ destruct (A1 Hne) as [m [e E]]. rewrite E in H. discriminate H.
    + intros [E0 Lo]. rewrite (A0 E0), Pow10_below by assumption. reflexivity.
  - intros Hne Lo. destruct (A1 Hne) as [m [e E]].
    rewrite E, Pow10_below by assumption. cbn. now rewrite xorb_false_r.
  - intros Hi. rewrite Pow10_above by assumption.
    destruct (Z.eq_dec a 0) as [E0|Hne].
    + rewrite (A0 E0). subst a. reflexivity.
    + destruct (A1 Hne) as [m [e E]]. rewrite E. cbn. now rewrite xorb_false_r.
  - intros E0 Lo. rewrite (A0 E0).
    destruct (Z.le_gt_cases n 308) as [Hi|Hi].
    + destruct (Pow10_range n ltac:(lia)) as [mk [ek ->]]. reflexivity.
    + rewrite Pow10_above by assumption. reflexivity.
Qed.

Lemma ToUnit_special_values_witness :
  ToUnit 5 (-400) = S754_infinity false /\ ToUnit (-5) 400 = S754_zero true.
Proof.
  split.
  - destruct (ToUnit_special_values 5 (-400)) as [_ [H _]]; [reflexivity|].
    apply H; [lia|reflexivity].
  - destruct (ToUnit_special_values (-5) 400) as [_ [_ [H _]]]; [reflexivity|].
    apply H. reflexivity.
Defined.

Lemma div_opp_l_any (x y : float64) :
  (forall s, x <> S754_zero s) ->
  Float64.div (SFopp x) y = SFopp (Float64.div x y).
Proof.
  intros Hx.
  destruct x as [s|s| |s m e]; [exfalso; now apply (Hx s)| | |].
  - destruct y as [s'|s'| |s' m' e']; cbn; try reflexivity; now destruct s, s'.
  - now destruct y.
  - destruct y as [s'|s'| |s' m' e']; try reflexivity.
    + cbn. now destruct s, s'.
    + cbn. now destruct s, s'.
    + apply div_opp_l.
Qed.

Lemma ToUnit_neg_all (a : Amount) (u : AmountUnit) :
  a <> 0 -> Int64.min_int < a <= Int64.max_int ->
  ToUnit (Int64.neg a) u = SFopp (ToUnit a u).
Proof.
  intros Hne Hr. unfold Int64.neg.
  rewrite wrap_id by (unfold Int64.min_int, Int64.max_int in *; lia).
  unfold Int64.min_int, Int64.max_int in Hr.
  unfold ToUnit.
  destruct (of_int_nonzero a Hne ltac:(lia)) as [m [e E]].
  destruct (of_int_nonzero (- a) ltac:(lia) ltac:(lia)) as [m' [e' E']].
  assert (F : Float64.of_int (- a) = SFopp (Float64.of_int a)).
  { destruct (Z.lt_trichotomy a 0) as [N|[E0|P]]; [|lia|].
    - assert (G : Float64.of_int a = SFopp (Float64.of_int (- a))).
      { rewrite <- of_int_opp by lia. f_equal. lia. }
      rewrite G, E'. cbn [SFopp]. now rewrite negb_involutive.
    - now apply of_int_opp. }
  rewrite F, E. apply div_opp_l_any. intros s. discriminate.
Qed.

(** X7.  [ToUnit] is odd: for an amount other than 0 and than the
    least int64 (whose opposite wraps around), and for every unit, the
    opposite amount gives the opposite float. *)
Theorem ToUnit_neg (a : Amount) (u : AmountUnit) :
  a <> 0 -> Int64.min_int < a <= Int64.max_int ->
  ToUnit (Int64.neg a) u = SFopp (ToUnit a u).
Proof. apply ToUnit_neg_all. Qed.

Lemma ToUnit_neg_witness :
  ToUnit (Int64.neg 12345) AmountMilliOMC = SFopp (ToUnit 12345 AmountMilliOMC).
Proof.
  apply (ToUnit_neg 12345 AmountMilliOMC); [lia|].
  unfold Int64.min_int, Int64.max_int. lia.
Defined.

(** ** Exact quotients *)

Lemma round_half_away_int (n : Z) : round_half_away (inject_Z n) = n.
Proof.
  assert (P : forall k, 0 <= k -> round_half_away (inject_Z k) = k).
  { intros k Hk. rewrite round_half_away_pos by (now rewrite <- (Zle_Qle 0)).
    apply Qfloor_eq.
    - lra.
    - rewrite inject_Z_plus. change (inject_Z 1) with 1%Q. lra. }
  destruct (Z.le_gt_cases 0 n) as [H|H]; [now apply P|].
  replace n with (- - n) at 1 by lia.
  rewrite inject_Z_opp, round_half_away_opp, P by lia. lia.
Qed.

(** [round] leaves a float that is an integer below [2^52] as it is. *)
Lemma round_int (U : float64 -> Z) (f : float64) (n : Z) :
  fits f -> is_finite f = true -> (to_Q f == inject_Z n)%Q -> - 2 ^ 52 < n < 2 ^ 52 ->
  round U f = n.
Proof.
  intros Hfit Hf Hv Hn.
  rewrite (round_fits U f Hfit Hf).
  - rewrite (round_half_away_comp _ _ Hv). apply round_half_away_int.
  - rewrite Hv, pow2_52, Qabs_inject_Z.
    change 4503599627370496%Q with (inject_Z (2 ^ 52)). rewrite <- Zlt_Qlt. lia.
  - rewrite Hv, Qabs_inject_Z. destruct (Z.eq_dec n 0) as [->|Hne].
    + left. vm_compute. discriminate.
    + right. apply Qle_trans with (inject_Z 1); [vm_compute; discriminate|].
      rewrite <- Zle_Qle. lia.
Qed.

Lemma ToUnit_valid (a : Amount) (u : AmountUnit) : valid (ToUnit a u) = true.
Proof.
  apply div_valid.
Qed.

Lemma ToUnit_exact_pos (a : Amount) (u : AmountUnit) (k : Z) :
  -8 <= u <= 14 -> 0 < a < 2 ^ 53 -> a = k * 10 ^ (u + 8) ->
  is_finite (ToUnit a u) = true /\ (to_Q (ToUnit a u) == inject_Z k)%Q.
Proof.
  intros Hu Ha Hk.
  assert (T0 : 0 < 10 ^ (u + 8)) by (apply Z.pow_pos_nonneg; lia).
  assert (K0 : 0 < k <= a) by nia.
  destruct (of_int_exact a Ha) as [HX [ma [ea EX]]].
  rewrite EX in HX. cbn [to_Q] in HX.
  unfold ToUnit, Int64.add.
  rewrite wrap_id by (unfold Int64.min_int, Int64.max_int; lia).
  destruct (Pow10_form (u + 8) ltac:(lia)) as [mk [ek [EK HK]]].
  rewrite EX, EK.
  set (x := inject_Z k).
  assert (Hx : (x * (inject_Z (Z.pos mk) * pow2 ek) == inject_Z (Z.pos ma) * pow2 ea)%Q).
  { rewrite HK, HX. unfold x. rewrite <- inject_Z_mult. now rewrite <- Hk. }
  assert (Hlt : (x < pow2 (0 + 53))%Q).
  { change (0 + 53) with 53. rewrite pow2_nonneg_Z by lia. unfold x.
    rewrite <- Zlt_Qlt. lia. }
  destruct (div_Q false false ma mk ea ek x 0 Hx ltac:(lia) Hlt) as [e1 [He1 [HR _]]].
  cbn [xorb] in HR. split; [exact (rounds_to_finite _ _ _ _ HR)|].
  apply (rounds_to_exact _ _ e1 (k * 2 ^ (- e1)) HR).
  unfold x. now apply int_on_grid.
Qed.

Lemma ToUnit_exact_all (a : Amount) (u : AmountUnit) (k : Z) :
  -8 <= u <= 14 -> - 2 ^ 53 < a < 2 ^ 53 -> a = k * 10 ^ (u + 8) ->
  is_finite (ToUnit a u) = true /\ (to_Q (ToUnit a u) == inject_Z k)%Q.
Proof.
  intros Hu Ha Hk.
  destruct (Z.lt_trichotomy a 0) as [N|[E0|P]].
  - assert (Hp : 0 < - a < 2 ^ 53) by lia.
    destruct (ToUnit_exact_pos (- a) u (- k) Hu Hp ltac:(lia)) as [F V].
    destruct (of_int_exact (- a) Hp) as [_ [ma [ea EA]]].
    replace a with (- - a) by lia.
    rewrite ToUnit_opp by (try lia; rewrite EA; reflexivity).
    rewrite is_finite_opp, to_Q_opp, V, inject_Z_opp. split; [exact F|ring].
  - assert (T0 : 0 < 10 ^ (u + 8)) by (apply Z.pow_pos_nonneg; lia).
    assert (K : k = 0) by nia. rewrite E0, K.
    destruct (ToUnit_zero u ltac:(lia)) as [s ->]. split; reflexivity.
  - apply ToUnit_exact_pos; try assumption. lia.
Qed.

(** X8.  [ToUnit] is exact on multiples of the unit: for a unit from
    [AmountHao] up to exponent 14 and an amount [a = k * 10^(u+8)] below
    [2^53] in magnitude the result is the float64 [k].  So [ToOMC] of a
    whole number of coins is that number, and [ToUnit] for [AmountHao]
    is the amount itself. *)
Theorem ToUnit_exact (a : Amount) (u : AmountUnit) (k : Z) :
  (-8 <= u <= 14 -> - 2 ^ 53 < a < 2 ^ 53 -> a = k * 10 ^ (u + 8) ->
   is_finite (ToUnit a u) = true /\ (to_Q (ToUnit a u) == inject_Z k)%Q)
  /\ (- 2 ^ 53 < k * 10 ^ 8 < 2 ^ 53 -> (to_Q (ToOMC (k * 10 ^ 8)%Z) == inject_Z k)%Q)
  /\ (- 2 ^ 53 < a < 2 ^ 53 -> (to_Q (ToUnit a AmountHao) == inject_Z a)%Q).
Proof.
  split; [apply ToUnit_exact_all|]. split.
  - intros Hk. apply (ToUnit_exact_all (k * 10 ^ 8) AmountOMC k);
      unfold AmountOMC; [lia|exact Hk|reflexivity].
  - intros Ha. apply (ToUnit_exact_all a AmountHao a);
      unfold AmountHao; [lia|exact Ha|cbn; lia].
Qed.

Lemma ToUnit_exact_witness :
  is_finite (ToUnit 2100000000000000 AmountOMC) = true
  /\ (to_Q (ToUnit 2100000000000000%Z AmountOMC) == inject_Z 21000000)%Q.
Proof.
  destruct (ToUnit_exact 2100000000000000 AmountOMC 21000000) as [H _].
  apply H; unfold AmountOMC; [lia|lia|reflexivity].
Defined.

(** X9.  For a unit from [AmountHao] up to exponent 14, [ToUnit] is
    strictly increasing on the amounts below [2^52] in magnitude: two
    different amounts never give the same float. *)
Theorem ToUnit_increasing (a b : Amount) (u : AmountUnit) :
  -8 <= u <= 14 -> - 2 ^ 52 < a -> a < b -> b < 2 ^ 52 ->
  is_finite (ToUnit a u) = true /\ is_finite (ToUnit b u) = true
  /\ (to_Q (ToUnit a u) < to_Q (ToUnit b u))%Q.
Proof.
  intros Hu Ha Hab Hb.
  destruct (ToUnit_accuracy a u ltac:(lia) Hu) as [Fa Aa].
  destruct (ToUnit_accuracy b u ltac:(lia) Hu) as [Fb Ab].
  split; [exact Fa|]. split; [exact Fb|].
  set (T := inject_Z (10 ^ (u + 8))) in *.
  assert (T0 : (0 < T)%Q).
  { unfold T. rewrite <- (Zlt_Qlt 0). apply Z.pow_pos_nonneg; lia. }
  assert (B : forall c, - 2 ^ 52 < c < 2 ^ 52 -> (Qabs (inject_Z c) * pow2 (-53) < 1 # 2)%Q).
  { intros c Hc. rewrite pow2_m53.
    assert (Qabs (inject_Z c) < 4503599627370496)%Q; [|lra].
    change 4503599627370496%Q with (inject_Z (2 ^ 52)).
    apply Qabs_case; intros _; [|rewrite <- inject_Z_opp]; rewrite <- Zlt_Qlt; lia. }
  pose proof (B a ltac:(lia)) as Ba. pose proof (B b ltac:(lia)) as Bb.
  apply Qabs_Qle_condition in Aa, Ab. destruct Aa as [_ Aa], Ab as [Ab _].
  assert (D : (inject_Z a + 1 <= inject_Z b)%Q).
  { change 1%Q with (inject_Z 1). rewrite <- inject_Z_plus, <- Zle_Qle. lia. }
  apply (Qmult_lt_r _ _ T T0). lra.
Qed.

Lemma ToUnit_increasing_witness :
  (to_Q (ToUnit 2099999999999999%Z AmountMegaOMC)
   < to_Q (ToUnit 2100000000000000%Z AmountMegaOMC))%Q.
Proof.
  apply (ToUnit_increasing 2099999999999999 2100000000000000 AmountMegaOMC);
    unfold AmountMegaOMC; lia.
Defined.

Section HaoRoundTrip.

Variable U : float64 -> Z.

(** X10.  With a nonzero token type [NewAmount] reads an amount in Hao:
    an amount [n] with [|n| < 2^52], written by [ToUnit] for [AmountHao],
    is read back as [n]. *)
Theorem Hao_round_trip (n : Amount) (t : Z) :
  t <> 0 -> - 2 ^ 52 < n < 2 ^ 52 ->
  NewAmount U (ToUnit n AmountHao) t = (n, None).
Proof.
  intros Ht Hn.
  destruct (ToUnit_exact_all n AmountHao n) as [F V];
    [unfold AmountHao; lia|lia|unfold AmountHao; cbn; lia|].
  pose proof (ToUnit_valid n AmountHao) as Hv.
  rewrite (NewAmount_finite U _ t Hv F).
  apply Z.eqb_neq in Ht. rewrite Ht. f_equal.
  apply round_int; try assumption. now apply valid_fits.
Qed.

End HaoRoundTrip.

Lemma Hao_round_trip_witness :
  NewAmount amd64_unrepresentable (ToUnit (-4503599627370495) AmountHao) 1
  = (-4503599627370495, None).
Proof.
  apply (Hao_round_trip amd64_unrepresentable (-4503599627370495) 1); lia.
Defined.

(** ** The relative error of a product *)

(** Every positive rational lies between two consecutive powers of two. *)
Lemma Qlog2 (x : Q) : (0 < x)%Q -> exists k : Z, (pow2 k <= x)%Q /\ (x < pow2 (k + 1))%Q.
Proof.
  intros Hx. destruct x as [n d].
  assert (Hn : 0 < n) by (unfold Qlt in Hx; cbn in Hx; lia).
  pose proof (Zdigits2_bounds n Hn) as [Nl Nu].
  pose proof (Zdigits2_bounds (Z.pos d) ltac:(lia)) as [Dl Du].
  assert (Da : 1 <= Zdigits2 n) by (destruct n; cbn in *; lia).
  assert (Db : 1 <= Zdigits2 (Z.pos d)) by (cbn; lia).
  set (a := Zdigits2 n) in *. set (b := Zdigits2 (Z.pos d)) in *.
  assert (E : ((n # d) * inject_Z (Z.pos d) == inject_Z n)%Q).
  { unfold Qeq, Qmult, inject_Z. cbn. lia. }
  assert (D0 : (0 < inject_Z (Z.pos d))%Q) by reflexivity.
  assert (QNl : (pow2 (a - 1) <= inject_Z n)%Q)
    by (rewrite pow2_nonneg_Z by lia; now rewrite <- Zle_Qle).
  assert (QNu : (inject_Z n < pow2 a)%Q)
    by (rewrite pow2_nonneg_Z by lia; now rewrite <- Zlt_Qlt).
  assert (QDl : (pow2 (b - 1) <= inject_Z (Z.pos d))%Q)
    by (rewrite pow2_nonneg_Z by lia; now rewrite <- Zle_Qle).
  assert (QDu : (inject_Z (Z.pos d) < pow2 b)%Q)
    by (rewrite pow2_nonneg_Z by lia; now rewrite <- Zlt_Qlt).
  assert (L : (pow2 (a - b - 1) < n # d)%Q).
  { apply (Qmult_lt_r _ _ _ D0). rewrite E.
    eapply Qlt_le_trans; [|exact QNl].
    replace (a - 1) with (a - b - 1 + b) by lia. rewrite pow2_add.
    apply Qmult_lt_l; [apply pow2_pos|exact QDu]. }
  assert (Up : (n # d < pow2 (a - b + 1))%Q).
  { apply (Qmult_lt_r _ _ _ D0). rewrite E.
    eapply Qlt_le_trans; [exact QNu|].
    replace a with (a - b + 1 + (b - 1)) at 1 by lia. rewrite pow2_add.
    apply Qmult_le_l; [apply pow2_pos|exact QDl]. }
  destruct (Qlt_le_dec (n # d) (pow2 (a - b))) as [C|C].
  - exists (a - b - 1). split; [now apply Qlt_le_weak|].
    now replace (a - b - 1 + 1) with (a - b) by lia.
  - exists (a - b). split; assumption.
Qed.

(** The float a rounding gives, with its sign: finite and within half a
    step of the signed number. *)
Lemma rounds_to_signed (R : float64) (s : bool) (x : Q) (e1 : Z) :
  rounds_to R s x e1 ->
  is_finite R = true
  /\ (Qabs (to_Q R - (if s then - x else x)) <= pow2 (e1 - 1))%Q
  /\ (forall j, (x == inject_Z j * pow2 e1)%Q -> (to_Q R == (if s then - x else x))%Q).
Proof.
  intros H. pose proof (rounds_to_finite _ _ _ _ H) as HF.
  destruct H as [v [H1 [H2 [[k [Hk Hg]] H]]]].
  assert (E : (to_Q R == (if s then - v else v))%Q).
  { destruct H as [[H0 ->]|[m3 [e3 [-> [_ Hv]]]]]; cbn [to_Q].
    - destruct s; rewrite H0; reflexivity.
    - destruct s; rewrite <- Hv; reflexivity. }
  split; [exact HF|]. split.
  - apply Qabs_Qle_condition. destruct s; rewrite E; split; lra.
  - intros j Hj. rewrite E.
    pose proof (grid_exact v x e1 k j Hg Hj H1 H2) as G. destruct s; rewrite G; reflexivity.
Qed.

(** A product, one factor of which has a full mantissa, is rounded with
    a relative error of at most [2^-53], or an absolute one of at most
    [2^-1075] where the result is subnormal. *)
Lemma mul_relative (sx sy : bool) (mx my : positive) (ex ey : Z) (x : Q) :
  (x == inject_Z (Z.pos mx) * pow2 ex * (inject_Z (Z.pos my) * pow2 ey))%Q ->
  2 ^ 52 <= Z.pos mx \/ 2 ^ 52 <= Z.pos my ->
  (x < pow2 1023)%Q ->
  exists e1 : Z,
    rounds_to (Float64.mul (S754_finite sx mx ex) (S754_finite sy my ey))
      (xorb sx sy) x e1
    /\ (pow2 (e1 - 1) <= x * pow2 (-53) + pow2 (-1075))%Q.
Proof.
  intros Hx Hnorm Hlt.
  assert (X0 : (0 < x)%Q).
  { rewrite Hx. apply Qmult_lt_0_compat;
      (apply Qmult_lt_0_compat; [reflexivity|apply pow2_pos]). }
  destruct (Qlog2 x X0) as [k [Kl Ku]].
  assert (K1 : k < 1023).
  { apply pow2_lt_inv. eapply Qle_lt_trans; eassumption. }
  assert (L : (pow2 (52 + (ex + ey)) <= x)%Q).
  { rewrite Hx, !pow2_add.
    setoid_replace (inject_Z (Z.pos mx) * pow2 ex * (inject_Z (Z.pos my) * pow2 ey))%Q
      with (inject_Z (Z.pos mx) * inject_Z (Z.pos my) * (pow2 ex * pow2 ey))%Q by ring.
    apply Qmult_le_compat_r;
      [|apply Qlt_le_weak, Qmult_lt_0_compat; apply pow2_pos].
    rewrite pow2_nonneg_Z, <- inject_Z_mult by lia. rewrite <- Zle_Qle.
    destruct Hnorm; nia. }
  assert (K2 : ex + ey <= k - 52).
  { assert (A : (pow2 (52 + (ex + ey)) < pow2 (k + 1))%Q)
      by (eapply Qle_lt_trans; eassumption).
    apply pow2_lt_inv in A. lia. }
  set (c := Z.max (k - 52) (-1074)).
  assert (Hc : (x < pow2 (c + 53))%Q).
  { eapply Qlt_le_trans; [exact Ku|]. apply pow2_le. lia. }
  destruct (mul_Q_bound sx sy mx my ex ey x c Hx ltac:(lia) ltac:(lia) Hc)
    as [e1 [He1 HR]].
  exists e1. split; [exact HR|].
  pose proof (pow2_pos (-1075)) as P1.
  assert (P2 : (0 < x * pow2 (-53))%Q) by (apply Qmult_lt_0_compat; [exact X0|apply pow2_pos]).
  destruct (Z.le_gt_cases (-1074) (k - 52)) as [N|S].
  - apply Qle_trans with (pow2 (k - 53)); [apply pow2_le; lia|].
    apply Qle_trans with (x * pow2 (-53))%Q; [|lra].
    replace (k - 53) with (k + -53) by lia. rewrite pow2_add.
    apply Qmult_le_compat_r; [exact Kl|apply Qlt_le_weak, pow2_pos].
  - apply Qle_trans with (pow2 (-1075)); [apply pow2_le; lia|lra].
Qed.

(** ** The accuracy of [MulF64] and [NewAmount] *)

Lemma round_zero (U : float64 -> Z) (s : bool) : round U (S754_zero s) = 0.
Proof. destruct s; reflexivity. Qed.

(** [round] is within [1/2 + 2^-54] of its argument. *)
Lemma round_error (U : float64 -> Z) (f : float64) :
  valid f = true -> is_finite f = true -> (Qabs (to_Q f) < pow2 52)%Q ->
  (Qabs (inject_Z (round U f) - to_Q f) <= (1 # 2) + pow2 (-54))%Q.
Proof.
  intros Hv Hf Hlt.
  assert (G : forall g, fits g -> is_finite g = true -> (Qabs (to_Q g) < pow2 52)%Q ->
                ((Qabs (to_Q g) <= (1 # 2) - pow2 (-53))%Q \/ (1 # 2 <= Qabs (to_Q g))%Q) ->
                (Qabs (inject_Z (round U g) - to_Q g) <= (1 # 2) + pow2 (-54))%Q).
  { intros g G1 G2 G3 G4. rewrite (round_fits U g G1 G2 G3 G4).
    eapply Qle_trans; [apply round_half_away_error|]. vm_compute. discriminate. }
  destruct f as [s|s| |s m e]; try discriminate Hf.
  - rewrite round_zero. vm_compute. discriminate.
  - destruct (Qlt_le_dec (inject_Z (Z.pos m) * pow2 e) (1 # 2)) as [C1|C1].
    + destruct (Qlt_le_dec ((1 # 2) - pow2 (-53)) (inject_Z (Z.pos m) * pow2 e)) as [C2|C2].
      * destruct (valid_near_half s m e Hv C2 C1) as [-> ->].
        destruct s; vm_compute; discriminate.
      * apply G; try assumption; [now apply valid_fits|].
        left. now rewrite Qabs_finite.
    + apply G; try assumption; [now apply valid_fits|].
      right. now rewrite Qabs_finite.
Qed.

Lemma pow2_rounding_slack : (pow2 (-54) + pow2 (-1075) <= pow2 (-53))%Q.
Proof. vm_compute. discriminate. Qed.

Lemma round_mul_accuracy (U : float64 -> Z) (sx sy : bool) (mx my : positive) (ex ey : Z) :
  valid (S754_finite sx mx ex) = true -> valid (S754_finite sy my ey) = true ->
  2 ^ 52 <= Z.pos mx \/ 2 ^ 52 <= Z.pos my ->
  (Qabs (to_Q (S754_finite sx mx ex) * to_Q (S754_finite sy my ey)) < pow2 51)%Q ->
  (Qabs (inject_Z (round U (Float64.mul (S754_finite sx mx ex) (S754_finite sy my ey)))
         - to_Q (S754_finite sx mx ex) * to_Q (S754_finite sy my ey))
   <= (1 # 2)
      + (1 + Qabs (to_Q (S754_finite sx mx ex) * to_Q (S754_finite sy my ey)))
        * pow2 (-53))%Q.
Proof.
  intros Vx Vy Hnorm Hlt.
  set (x := (inject_Z (Z.pos mx) * pow2 ex * (inject_Z (Z.pos my) * pow2 ey))%Q).
  assert (X0 : (0 < x)%Q).
  { apply Qmult_lt_0_compat; (apply Qmult_lt_0_compat; [reflexivity|apply pow2_pos]). }
  assert (P : (to_Q (S754_finite sx mx ex) * to_Q (S754_finite sy my ey)
               == (if xorb sx sy then - x else x))%Q).
  { unfold x. destruct sx, sy; cbn [to_Q xorb]; ring. }
  assert (A : (Qabs (to_Q (S754_finite sx mx ex) * to_Q (S754_finite sy my ey)) == x)%Q).
  { rewrite P. destruct (xorb sx sy).
    - rewrite Qabs_opp. apply Qabs_pos. now apply Qlt_le_weak.
    - apply Qabs_pos. now apply Qlt_le_weak. }
  rewrite A in *. rewrite P. rewrite pow2_51 in Hlt.
  assert (Hl2 : (x < pow2 1023)%Q).
  { eapply Qlt_trans; [exact Hlt|]. vm_compute. reflexivity. }
  destruct (mul_relative sx sy mx my ex ey x (Qeq_refl _) Hnorm Hl2) as [e1 [HR Hb]].
  pose proof (mul_valid _ _ Vx Vy) as VR.
  set (R := Float64.mul (S754_finite sx mx ex) (S754_finite sy my ey)) in *.
  destruct (rounds_to_signed R _ x e1 HR) as [HF [Hd _]].
  set (p := (if xorb sx sy then - x else x)%Q) in *.
  assert (Ap : (Qabs p == x)%Q).
  { unfold p. destruct (xorb sx sy).
    - rewrite Qabs_opp. apply Qabs_pos. now apply Qlt_le_weak.
    - apply Qabs_pos. now apply Qlt_le_weak. }
  pose proof pow2_rounding_slack as Sl.
  pose proof (pow2_pos (-54)) as P54. pose proof (pow2_pos (-1075)) as P1075.
  rewrite pow2_m53 in *.
  assert (Hd' : (Qabs (to_Q R - p) <= x * (1 # 9007199254740992) + pow2 (-1075))%Q)
    by (eapply Qle_trans; eassumption).
  assert (RB : (Qabs (to_Q R) < pow2 52)%Q).
  { rewrite pow2_52.
    assert (T : (Qabs (to_Q R) <= Qabs (to_Q R - p) + Qabs p)%Q).
    { setoid_replace (to_Q R) with ((to_Q R - p) + p)%Q at 1 by ring.
      apply Qabs_triangle. }
    rewrite Ap in T. lra. }
  pose proof (round_error U R VR HF RB) as RE.
  set (n := inject_Z (round U R)) in *.
  assert (T : (Qabs (n - p) <= Qabs (n - to_Q R) + Qabs (to_Q R - p))%Q).
  { setoid_replace (n - p)%Q with ((n - to_Q R) + (to_Q R - p))%Q at 1 by ring.
    apply Qabs_triangle. }
  lra.
Qed.

Lemma of_int_full_mantissa (a : Z) (s : bool) (m : positive) (e : Z) :
  a <> 0 -> - 2 ^ 53 < a < 2 ^ 53 -> Float64.of_int a = S754_finite s m e ->
  2 ^ 52 <= Z.pos m.
Proof.
  intros Hne Ha E.
  pose proof (of_int_valid a) as V. rewrite E in V.
  destruct (valid_canonical s m e V) as [Hm [He [Hmin|Hn]]]; [exfalso|exact Hn].
  destruct (of_int_Q a Ha) as [_ Hq]. rewrite E in Hq.
  assert (A : (Qabs (to_Q (S754_finite s m e)) == Qabs (inject_Z a))%Q) by (now rewrite Hq).
  rewrite Qabs_finite, Qabs_inject_Z in A.
  pose proof (mantissa_below m e Hm) as Mb. rewrite A in Mb. subst e.
  assert (B : (inject_Z 1 <= inject_Z (Z.abs a))%Q) by (rewrite <- Zle_Qle; lia).
  assert (C : (pow2 (53 + -1074) < inject_Z 1)%Q) by (vm_compute; reflexivity).
  lra.
Qed.

Section Accuracy.

Variable U : float64 -> Z.

(** X11.  [MulF64] is within [1/2 + (1 + |a * f|) * 2^-53] of the exact
    product, for an amount below [2^53] in magnitude, a valid finite
    factor and a product below [2^51] in magnitude. *)
Theorem MulF64_accuracy (a : Amount) (f : float64) :
  - 2 ^ 53 < a < 2 ^ 53 -> valid f = true -> is_finite f = true ->
  (Qabs (inject_Z a * to_Q f) < pow2 51)%Q ->
  (Qabs (inject_Z (MulF64 U a f) - inject_Z a * to_Q f)
   <= (1 # 2) + (1 + Qabs (inject_Z a * to_Q f)) * pow2 (-53))%Q.
Proof.
  intros Ha Hv Hf Hlt. unfold MulF64.
  assert (Z0 : forall q, (q == 0)%Q ->
                 (Qabs (inject_Z 0 - q) <= (1 # 2) + (1 + Qabs q) * pow2 (-53))%Q).
  { intros q Hq. rewrite Hq. vm_compute. discriminate. }
  destruct (Z.eq_dec a 0) as [->|Hne].
  - destruct f as [s|s| |s m e]; try discriminate Hf;
      change (Float64.of_int 0) with (S754_zero false); cbn [Float64.mul SFmul];
      rewrite round_zero; apply Z0; change (inject_Z 0) with 0%Q; ring.
  - destruct (of_int_nonzero a Hne ltac:(lia)) as [ma [ea E]].
    destruct (of_int_Q a Ha) as [_ Hq].
    pose proof (of_int_valid a) as Va.
    pose proof (of_int_full_mantissa a _ ma ea Hne Ha E) as Hn.
    rewrite E in *.
    destruct f as [s|s| |s m e]; try discriminate Hf.
    + cbn [Float64.mul SFmul]. rewrite round_zero. apply Z0. cbn [to_Q]. ring.
    + rewrite <- Hq in *.
      apply round_mul_accuracy; try assumption. now left.
Qed.

(** X12.  With token type 0 and a valid finite float [f] with
    [|f| * 10^8 < 2^51], [NewAmount] has a nil error and an amount within
    [1/2 + (1 + |f| * 10^8) * 2^-53] of [f * 10^8]. *)
Theorem NewAmount_accuracy (f : float64) :
  valid f = true -> is_finite f = true ->
  (Qabs (to_Q f * inject_Z (10 ^ 8)) < pow2 51)%Q ->
  snd (NewAmount U f 0) = None
  /\ (Qabs (inject_Z (fst (NewAmount U f 0)) - to_Q f * inject_Z (10 ^ 8))
      <= (1 # 2) + (1 + Qabs (to_Q f * inject_Z (10 ^ 8))) * pow2 (-53))%Q.
Proof.
  intros Hv Hf Hlt. rewrite (NewAmount_finite U f 0 Hv Hf). cbn [Z.eqb fst snd].
  split; [reflexivity|].
  destruct f as [s|s| |s m e]; try discriminate Hf.
  - rewrite HaoPerBitcoin_value. cbn [Float64.mul SFmul]. rewrite round_zero.
    cbn [to_Q]. vm_compute. discriminate.
  - assert (EH : (to_Q HaoPerBitcoin == inject_Z (10 ^ 8))%Q).
    { rewrite HaoPerBitcoin_value. cbn [to_Q]. rewrite ten8_Q. reflexivity. }
    rewrite <- EH in *. rewrite HaoPerBitcoin_value in *.
    apply round_mul_accuracy; try assumption.
    right. lia.
Qed.

(** X13.  [MulF64] by a factor that is an integer, converted to
    float64, is the integer product, as long as the amount and the
    factor are below [2^53] and the product below [2^52] in magnitude. *)
Theorem MulF64_integer (a k : Z) :
  - 2 ^ 53 < a < 2 ^ 53 -> - 2 ^ 53 < k < 2 ^ 53 -> - 2 ^ 52 < a * k < 2 ^ 52 ->
  MulF64 U a (Float64.of_int k) = a * k.
Proof.
  intros Ha Hk Hak. unfold MulF64.
  destruct (Z.eq_dec a 0) as [->|Na].
  - destruct (Z.eq_dec k 0) as [->|Nk]; [reflexivity|].
    destruct (of_int_nonzero k Nk ltac:(lia)) as [mk [ek ->]].
    change (Float64.of_int 0) with (S754_zero false). cbn [Float64.mul SFmul].
    now rewrite round_zero.
  - destruct (of_int_nonzero a Na ltac:(lia)) as [ma [ea Ea]].
    destruct (Z.eq_dec k 0) as [->|Nk].
    + rewrite Ea. change (Float64.of_int 0) with (S754_zero false).
      cbn [Float64.mul SFmul]. rewrite round_zero. lia.
    + destruct (of_int_nonzero k Nk ltac:(lia)) as [mk [ek Ek]].
      destruct (of_int_Q a Ha) as [_ Qa]. destruct (of_int_Q k Hk) as [_ Qk].
      pose proof (of_int_valid a) as Va. pose proof (of_int_valid k) as Vk.
      rewrite Ea in *. rewrite Ek in *.
      assert (Aa : (inject_Z (Z.pos ma) * pow2 ea == inject_Z (Z.abs a))%Q).
      { rewrite <- Qabs_finite with (s := (a <? 0)). now rewrite Qa, Qabs_inject_Z. }
      assert (Ak : (inject_Z (Z.pos mk) * pow2 ek == inject_Z (Z.abs k))%Q).
      { rewrite <- Qabs_finite with (s := (k <? 0)). now rewrite Qk, Qabs_inject_Z. }
      assert (Hea : ea <= -1).
      { apply (valid_small_exponent _ ma ea (-1) Va); [lia|].
        rewrite Aa. change (-1 + 53) with 52. rewrite pow2_nonneg_Z by lia.
        rewrite <- Zlt_Qlt. nia. }
      assert (Hek : ek <= 0).
      { apply (valid_small_exponent _ mk ek 0 Vk); [lia|].
        rewrite Ak. change (0 + 53) with 53. rewrite pow2_nonneg_Z by lia.
        rewrite <- Zlt_Qlt. lia. }
      set (x := inject_Z (Z.abs a * Z.abs k)).
      assert (Hx : (x == inject_Z (Z.pos ma) * pow2 ea * (inject_Z (Z.pos mk) * pow2 ek))%Q).
      { rewrite Aa, Ak. unfold x. now rewrite inject_Z_mult. }
      assert (Hlt : (x < pow2 (-1 + 53))%Q).
      { change (-1 + 53) with 52. rewrite pow2_nonneg_Z by lia. unfold x.
        rewrite <- Zlt_Qlt. nia. }
      destruct (mul_Q_bound (a <? 0) (k <? 0) ma mk ea ek x (-1) Hx ltac:(lia) ltac:(lia) Hlt)
        as [e1 [He1 HR]].
      pose proof (mul_fits (S754_finite (a <? 0) ma ea) (S754_finite (k <? 0) mk ek)) as Hfit.
      set (R := Float64.mul (S754_finite (a <? 0) ma ea) (S754_finite (k <? 0) mk ek)) in *.
      destruct (rounds_to_signed R _ x e1 HR) as [HF [_ Hex]].
      specialize (Hex (Z.abs a * Z.abs k * 2 ^ (- e1)) (int_on_grid _ e1 ltac:(lia))).
      apply round_int; try assumption.
      rewrite Hex. unfold x.
      destruct (Z.ltb_spec a 0), (Z.ltb_spec k 0); cbn [xorb];
        rewrite <- ?inject_Z_opp; apply inject_Z_injective || idtac;
        (replace (a * k) with (Z.abs a * Z.abs k) by nia)
        || (replace (a * k) with (- (Z.abs a * Z.abs k)) by nia); reflexivity.
Qed.

End Accuracy.

Lemma MulF64_accuracy_witness :
  (Qabs (inject_Z (MulF64 amd64_unrepresentable 12345%Z (of_ratio 1 3))
         - inject_Z 12345 * to_Q (of_ratio 1 3))
   <= (1 # 2) + (1 + Qabs (inject_Z 12345 * to_Q (of_ratio 1 3))) * pow2 (-53))%Q.
Proof.
  apply (MulF64_accuracy amd64_unrepresentable 12345 (of_ratio 1 3)).
  - lia.
  - vm_compute. reflexivity.
  - vm_compute. reflexivity.
  - vm_compute. reflexivity.
Defined.

Lemma NewAmount_accuracy_witness :
  snd (NewAmount amd64_unrepresentable (of_ratio 1 3) 0%Z) = None
  /\ (Qabs (inject_Z (fst (NewAmount amd64_unrepresentable (of_ratio 1 3) 0%Z))
            - to_Q (of_ratio 1 3) * inject_Z (10 ^ 8))
      <= (1 # 2) + (1 + Qabs (to_Q (of_ratio 1 3) * inject_Z (10 ^ 8))) * pow2 (-53))%Q.
Proof.
  apply (NewAmount_accuracy amd64_unrepresentable (of_ratio 1 3)).
  - vm_compute. reflexivity.
  - vm_compute. reflexivity.
  - vm_compute. reflexivity.
Defined.

Lemma MulF64_integer_witness :
  MulF64 amd64_unrepresentable 2100000000000000 (Float64.of_int (-2))
  = 2100000000000000 * -2.
Proof. apply (MulF64_integer amd64_unrepresentable 2100000000000000 (-2)); lia. Defined.

(** ** [round] keeps the order *)

Lemma round_half_away_monotone (q q' : Q) :
  (q <= q')%Q -> round_half_away q <= round_half_away q'.
Proof.
  intros H. unfold round_half_away.
  destruct (Qle_bool 0 q) eqn:A, (Qle_bool 0 q') eqn:B.
  - apply Qfloor_resp_le. lra.
  - exfalso. apply Qle_bool_iff in A.
    assert (0 <= q')%Q by lra. apply Qle_bool_iff in H0. congruence.
  - assert (Nq : (q < 0)%Q).
    { destruct (Qlt_le_dec q 0) as [|C]; [assumption|].
      apply Qle_bool_iff in C. congruence. }
    apply Qle_bool_iff in B.
    apply Z.le_trans with 0.
    + change 0 with (Qceiling 0). apply Qceiling_resp_le. lra.
    + change 0 with (Qfloor 0). apply Qfloor_resp_le. lra.
  - apply Qceiling_resp_le. lra.
Qed.

Lemma round_half_away_ge_1 (q : Q) : (1 # 2 <= q)%Q -> 1 <= round_half_away q.
Proof.
  intros H. change 1 with (round_half_away (1 # 2)). now apply round_half_away_monotone.
Qed.

Lemma round_half_away_le_m1 (q : Q) : (q <= - (1 # 2))%Q -> round_half_away q <= -1.
Proof.
  intros H. change (-1) with (round_half_away (- (1 # 2))).
  now apply round_half_away_monotone.
Qed.

Lemma round_half_away_le_0 (q : Q) : (q < 1 # 2)%Q -> round_half_away q <= 0.
Proof.
  intros H. unfold round_half_away. destruct (Qle_bool 0 q) eqn:A.
  - assert (Qfloor (q + (1 # 2)) < 1); [|lia].
    pose proof (Qfloor_le (q + (1 # 2))) as F.
    assert (B : (inject_Z (Qfloor (q + (1 # 2))) < inject_Z 1)%Q)
      by (change (inject_Z 1) with 1%Q; lra).
    now rewrite <- Zlt_Qlt in B.
  - assert (Nq : (q < 0)%Q).
    { destruct (Qlt_le_dec q 0) as [|C]; [assumption|].
      apply Qle_bool_iff in C. congruence. }
    change 0 with (Qceiling 0). apply Qceiling_resp_le. lra.
Qed.

Lemma round_half_away_ge_0 (q : Q) : (- (1 # 2) < q)%Q -> 0 <= round_half_away q.
Proof.
  intros H.
  assert (A : round_half_away (- q) <= 0) by (apply round_half_away_le_0; lra).
  rewrite round_half_away_opp in A. lia.
Qed.

(** [round] on a valid float below [2^52]: the nearest integer, except
    just below one half, where it is 1 (or -1) and not 0. *)
Lemma round_cases (U : float64 -> Z) (f : float64) :
  valid f = true -> is_finite f = true -> (Qabs (to_Q f) < pow2 52)%Q ->
  (round U f = round_half_away (to_Q f)
   /\ ((Qabs (to_Q f) <= (1 # 2) - pow2 (-53))%Q \/ (1 # 2 <= Qabs (to_Q f))%Q))
  \/ (round U f = 1 /\ ((1 # 2) - pow2 (-53) < to_Q f)%Q /\ (to_Q f < 1 # 2)%Q)
  \/ (round U f = -1 /\ (to_Q f < - ((1 # 2) - pow2 (-53)))%Q /\ (- (1 # 2) < to_Q f)%Q).
Proof.
  intros Hv Hf Hlt.
  destruct (Qlt_le_dec (Qabs (to_Q f)) (1 # 2)) as [C1|C1].
  - destruct (Qlt_le_dec ((1 # 2) - pow2 (-53)) (Qabs (to_Q f))) as [C2|C2].
    + right. destruct f as [s|s| |s m e]; try discriminate Hf.
      * exfalso. cbn in C2. discriminate C2.
      * rewrite Qabs_finite in C1, C2.
        destruct (valid_near_half s m e Hv C2 C1) as [-> ->].
        destruct s; [right|left]; repeat split.
    + left. split; [|now left].
      apply round_fits; try assumption; [now apply valid_fits|now left].
  - left. split; [|now right].
    apply round_fits; try assumption; [now apply valid_fits|now right].
Qed.

Section RoundMonotone.

Variable U : float64 -> Z.

(** X14.  [round] keeps the order: of two valid finite floats below
    [2^52] in magnitude the smaller one is never rounded to a larger
    integer. *)
Theorem round_monotone (f g : float64) :
  valid f = true -> is_finite f = true -> (Qabs (to_Q f) < pow2 52)%Q ->
  valid g = true -> is_finite g = true -> (Qabs (to_Q g) < pow2 52)%Q ->
  (to_Q f <= to_Q g)%Q -> round U f <= round U g.
Proof.
  intros Vf Ff Lf Vg Fg Lg H.
  pose proof pow2_m53 as P.
  assert (Ab : forall q, (Qabs q <= (1 # 2) - pow2 (-53))%Q \/ (1 # 2 <= Qabs q)%Q ->
                 (- ((1 # 2) - pow2 (-53)) <= q /\ q <= (1 # 2) - pow2 (-53))%Q
                 \/ (1 # 2 <= q)%Q \/ (q <= - (1 # 2))%Q).
  { intros q [A|A].
    - left. now apply Qabs_Qle_condition.
    - right. revert A. apply Qabs_case; intros; [left|right]; lra. }
  destruct (round_cases U f Vf Ff Lf) as [[-> Zf]|[[-> [F1 F2]]|[-> [F1 F2]]]];
    destruct (round_cases U g Vg Fg Lg) as [[-> Zg]|[[-> [G1 G2]]|[-> [G1 G2]]]].
  - now apply round_half_away_monotone.
  - apply Z.le_trans with 0; [apply round_half_away_le_0; lra|lia].
  - apply round_half_away_le_m1. destruct (Ab _ Zf) as [[A B]|[A|A]]; lra.
  - apply round_half_away_ge_1. destruct (Ab _ Zg) as [[A B]|[A|A]]; lra.
  - lia.
  - exfalso. rewrite P in *. lra.
  - apply Z.le_trans with 0; [lia|apply round_half_away_ge_0; lra].
  - lia.
  - lia.
Qed.

End RoundMonotone.

Lemma round_monotone_witness :
  round amd64_unrepresentable (of_ratio 5 2) <= round amd64_unrepresentable (of_ratio 7 2).
Proof.
  apply (round_monotone amd64_unrepresentable (of_ratio 5 2) (of_ratio 7 2));
    vm_compute; (reflexivity || discriminate).
Defined.

(** ** Finite quotients, and the conversions of opposites *)

Lemma pow10_m288_slack :
  (pow2 (-957) <= pow10 (-288) * (1 - (1 # 2251799813685248)))%Q.
Proof. vm_compute. discriminate. Qed.

(** From [1e-288] on the powers of ten are at least [2^-957]. *)
Lemma Pow10_lower (n : Z) :
  -288 <= n <= 308 ->
  exists (mk : positive) (ek : Z),
    math.Pow10 n = S754_finite false mk ek
    /\ (pow2 (-957) <= inject_Z (Z.pos mk) * pow2 ek)%Q.
Proof.
  intros Hn. destruct (Pow10_accuracy n ltac:(lia)) as [m [e [E B]]].
  exists m, e. split; [exact E|].
  pose proof (pow10_le (-288) n ltac:(lia)) as T.
  pose proof pow10_m288_slack as S.
  change (pow2 (-51)) with (1 # 2251799813685248)%Q in B.
  apply Qabs_Qle_condition in B. lra.
Qed.

Lemma div_finite_bound (sx sy : bool) (mx my : positive) (ex ey : Z) :
  (inject_Z (Z.pos mx) * pow2 ex < pow2 65)%Q ->
  (pow2 (-957) <= inject_Z (Z.pos my) * pow2 ey)%Q ->
  is_finite (Float64.div (S754_finite sx mx ex) (S754_finite sy my ey)) = true.
Proof.
  intros BX BK.
  set (X := (inject_Z (Z.pos mx) * pow2 ex)%Q) in *.
  set (Y := (inject_Z (Z.pos my) * pow2 ey)%Q) in *.
  pose proof (pow2_pos (-957)) as PY.
  assert (X0 : (0 < X)%Q) by (apply Qmult_lt_0_compat; [reflexivity|apply pow2_pos]).
  set (x := (X / Y)%Q).
  assert (Hx : (x * Y == X)%Q).
  { unfold x. field. intros E. rewrite E in BK. lra. }
  assert (Hlt : (x < pow2 (969 + 53))%Q).
  { destruct (Qlt_le_dec x (pow2 (969 + 53))) as [|Hn]; [assumption|exfalso].
    assert (K : (pow2 (969 + 53) * pow2 (-957) == pow2 65)%Q)
      by (rewrite <- pow2_add; reflexivity).
    assert (pow2 (969 + 53) * pow2 (-957) <= x * Y)%Q.
    { apply Qle_trans with (x * pow2 (-957))%Q.
      - apply Qmult_le_compat_r; [exact Hn|apply Qlt_le_weak, PY].
      - apply Qmult_le_l; [|exact BK].
        apply Qlt_le_trans with (pow2 (969 + 53)); [apply pow2_pos|exact Hn]. }
    lra. }
  destruct (div_Q sx sy mx my ex ey x 969 Hx ltac:(lia) Hlt) as [e1 [_ [HR _]]].
  exact (rounds_to_finite _ _ _ _ HR).
Qed.

(** For every int64 amount the quotient is finite from the exponent
    -288 of the power of ten on. *)
Lemma ToUnit_finite_wide (a : Amount) (u : AmountUnit) :
  Int64.in_range a = true -> -288 <= Int64.add u 8 -> is_finite (ToUnit a u) = true.
Proof.
  intros Hr Hn. apply in_range_bounds in Hr. unfold ToUnit.
  set (n := Int64.add u 8) in *.
  assert (A : Float64.of_int a = S754_zero false
              \/ exists s m e, Float64.of_int a = S754_finite s m e
                               /\ (inject_Z (Z.pos m) * pow2 e < pow2 65)%Q).
  { destruct (Z.lt_trichotomy a 0) as [N|[->|P]].
    - right. destruct (of_int_pos_form (- a) ltac:(lia)) as [m [e [E B]]].
      exists true, m, e. split; [|exact B].
      replace a with (- - a) by lia. rewrite of_int_opp, E by lia. reflexivity.
    - now left.
    - right. destruct (of_int_pos_form a ltac:(lia)) as [m [e [E B]]].
      now exists false, m, e. }
  destruct (Z.le_gt_cases n 308) as [Hi|Hi].
  - destruct (Pow10_lower n ltac:(lia)) as [mk [ek [-> BK]]].
    destruct A as [->|[s [m [e [-> B]]]]]; [reflexivity|].
    now apply div_finite_bound.
  - rewrite Pow10_above by assumption.
    destruct A as [->|[s [m [e [-> B]]]]]; reflexivity.
Qed.

(** X15.  For every int64 amount [ToUnit] is finite as soon as the
    exponent of the power of ten is at least -288 (units from -296 on);
    at -290 the largest amount already overflows to [+Inf]. *)
Theorem ToUnit_finite_from (a : Amount) (u : AmountUnit) :
  (Int64.in_range a = true -> -288 <= Int64.add u 8 -> is_finite (ToUnit a u) = true)
  /\ ToUnit Int64.max_int (-298) = S754_infinity false.
Proof.
  split; [apply ToUnit_finite_wide|]. vm_compute. reflexivity.
Qed.

Lemma ToUnit_finite_from_witness : is_finite (ToUnit Int64.min_int (-296)) = true.
Proof.
  destruct (ToUnit_finite_from Int64.min_int (-296)) as [H _].
  apply H; [reflexivity|]. vm_compute. discriminate.
Defined.

Lemma of_int_opp_nonzero (a : Z) :
  a <> 0 -> - 2 ^ 64 < a < 2 ^ 64 -> Float64.of_int (- a) = SFopp (Float64.of_int a).
Proof.
  intros Hne Ha. destruct (Z.lt_trichotomy a 0) as [N|[E0|P]]; [|lia|].
  - destruct (of_int_nonzero (- a) ltac:(lia) ltac:(lia)) as [m' [e' E']].
    assert (G : Float64.of_int a = SFopp (Float64.of_int (- a))).
    { rewrite <- of_int_opp by lia. f_equal. lia. }
    rewrite G, E'. cbn [SFopp]. now rewrite negb_involutive.
  - now apply of_int_opp.
Qed.

Lemma mul_opp_r (s : bool) (m : positive) (e : Z) (s' : bool) (m' : positive) (e' : Z) :
  Float64.mul (S754_finite s m e) (SFopp (S754_finite s' m' e'))
  = SFopp (Float64.mul (S754_finite s m e) (S754_finite s' m' e')).
Proof.
  unfold Float64.mul, SFmul. cbn [SFopp].
  rewrite <- binary_round_aux_opp. f_equal. now destruct s, s'.
Qed.

Lemma mul_opp_l_finite (x y : float64) :
  is_finite x = true -> is_finite y = true ->
  Float64.mul (SFopp x) y = SFopp (Float64.mul x y).
Proof.
  intros Hx Hy.
  destruct x as [s|s| |s m e], y as [s'|s'| |s' m' e']; try discriminate;
    try (cbn; now destruct s, s').
  apply mul_opp_l.
Qed.

Lemma mul_opp_r_finite (x y : float64) :
  is_finite x = true -> is_finite y = true ->
  Float64.mul x (SFopp y) = SFopp (Float64.mul x y).
Proof.
  intros Hx Hy.
  destruct x as [s|s| |s m e], y as [s'|s'| |s' m' e']; try discriminate;
    try (cbn; now destruct s, s').
  apply mul_opp_r.
Qed.

Lemma round_opp_finite (U : float64 -> Z) (f : float64) :
  is_finite f = true -> (Qabs (to_Q f) < pow2 62)%Q ->
  round U (SFopp f) = - round U f.
Proof.
  intros Hf Hlt. destruct f as [s|s| |s m e]; try discriminate.
  - destruct s; reflexivity.
  - rewrite Qabs_finite in Hlt. pose proof (round_opp_pos U m e Hlt) as H.
    destruct s; cbn [SFopp negb]; rewrite H; lia.
Qed.

(** A product below [2^61], one factor of which has a full mantissa, is
    a finite float below [2^62]. *)
Lemma mul_below (x y : float64) :
  valid x = true -> valid y = true -> is_finite x = true -> is_finite y = true ->
  (exists s m e, (x = S754_finite s m e \/ y = S754_finite s m e) /\ 2 ^ 52 <= Z.pos m) ->
  (Qabs (to_Q x * to_Q y) < pow2 61)%Q ->
  is_finite (Float64.mul x y) = true /\ (Qabs (to_Q (Float64.mul x y)) < pow2 62)%Q.
Proof.
  intros Vx Vy Fx Fy Hn Hlt.
  destruct x as [sx|sx| |sx mx ex]; try discriminate Fx;
    destruct y as [sy|sy| |sy my ey]; try discriminate Fy;
    try (split; [reflexivity|cbn; reflexivity]).
  set (x := (inject_Z (Z.pos mx) * pow2 ex * (inject_Z (Z.pos my) * pow2 ey))%Q).
  assert (X0 : (0 < x)%Q).
  { apply Qmult_lt_0_compat; (apply Qmult_lt_0_compat; [reflexivity|apply pow2_pos]). }
  assert (P : (to_Q (S754_finite sx mx ex) * to_Q (S754_finite sy my ey)
               == (if xorb sx sy then - x else x))%Q).
  { unfold x. destruct sx, sy; cbn [to_Q xorb]; ring. }
  assert (A : (Qabs (to_Q (S754_finite sx mx ex) * to_Q (S754_finite sy my ey)) == x)%Q).
  { rewrite P. destruct (xorb sx sy).
    - rewrite Qabs_opp. apply Qabs_pos. now apply Qlt_le_weak.
    - apply Qabs_pos. now apply Qlt_le_weak. }
  rewrite A in Hlt. change (pow2 61) with 2305843009213693952%Q in Hlt.
  assert (Hnorm : 2 ^ 52 <= Z.pos mx \/ 2 ^ 52 <= Z.pos my).
  { destruct Hn as [s [m [e [[E|E] H]]]]; injection E as -> -> ->; [now left|now right]. }
  assert (Hl2 : (x < pow2 1023)%Q).
  { eapply Qlt_trans; [exact Hlt|]. vm_compute. reflexivity. }
  destruct (mul_relative sx sy mx my ex ey x (Qeq_refl _) Hnorm Hl2) as [e1 [HR Hb]].
  set (R := Float64.mul (S754_finite sx mx ex) (S754_finite sy my ey)) in *.
  destruct (rounds_to_signed R _ x e1 HR) as [HF [Hd _]].
  split; [exact HF|].
  set (p := (if xorb sx sy then - x else x)%Q) in *.
  assert (Ap : (Qabs p == x)%Q).
  { unfold p. destruct (xorb sx sy).
    - rewrite Qabs_opp. apply Qabs_pos. now apply Qlt_le_weak.
    - apply Qabs_pos. now apply Qlt_le_weak. }
  assert (T : (Qabs (to_Q R) <= Qabs (to_Q R - p) + Qabs p)%Q).
  { setoid_replace (to_Q R) with ((to_Q R - p) + p)%Q at 1 by ring.
    apply Qabs_triangle. }
  rewrite Ap in T. rewrite pow2_m53 in Hb.
  assert (S : (pow2 (-1075) <= 1)%Q) by (vm_compute; discriminate).
  change (pow2 62) with 4611686018427387904%Q. lra.
Qed.

Section Odd.

Variable U : float64 -> Z.

(** X16.  [round] is odd: for a finite float below [2^62] in magnitude
    the opposite float is rounded to the opposite integer. *)
Theorem round_opp (f : float64) :
  is_finite f = true -> (Qabs (to_Q f) < pow2 62)%Q ->
  round U (SFopp f) = - round U f.
Proof. apply round_opp_finite. Qed.

(** X17.  [NewAmount] is odd: for a valid finite float with
    [|f| * 10^8 < 2^61] and any token type, the opposite float gives the
    opposite amount. *)
Theorem NewAmount_opp (f : float64) (t : Z) :
  valid f = true -> is_finite f = true ->
  (Qabs (to_Q f * inject_Z (10 ^ 8)) < pow2 61)%Q ->
  NewAmount U (SFopp f) t = (- fst (NewAmount U f t), None).
Proof.
  intros Hv Hf Hlt.
  rewrite (NewAmount_finite U f t Hv Hf).
  rewrite (NewAmount_finite U (SFopp f) t) by (now rewrite ?valid_opp, ?is_finite_opp).
  assert (EH : (to_Q HaoPerBitcoin == inject_Z (10 ^ 8))%Q).
  { rewrite HaoPerBitcoin_value. cbn [to_Q]. rewrite ten8_Q. reflexivity. }
  destruct (t =? 0); cbn [fst]; f_equal.
  - rewrite mul_opp_l_finite by (try assumption; reflexivity).
    destruct (mul_below f HaoPerBitcoin Hv) as [F B]; try assumption; try reflexivity.
    + exists false, 6710886400000000%positive, (-26). split; [right; reflexivity|lia].
    + now rewrite EH.
    + now apply round_opp_finite.
  - apply round_opp_finite; [assumption|].
    eapply Qle_lt_trans; [|apply Qlt_trans with (pow2 61); [exact Hlt|reflexivity]].
    rewrite Qabs_Qmult. change (Qabs (inject_Z (10 ^ 8))) with 100000000%Q.
    pose proof (Qabs_nonneg (to_Q f)). lra.
Qed.

(** X18.  [MulF64] is odd in the amount and in the factor, for an
    amount below [2^53] in magnitude, a valid finite factor and a
    product below [2^61] in magnitude. *)
Theorem MulF64_opp (a : Amount) (f : float64) :
  - 2 ^ 53 < a < 2 ^ 53 -> valid f = true -> is_finite f = true ->
  (Qabs (inject_Z a * to_Q f) < pow2 61)%Q ->
  MulF64 U (Int64.neg a) f = - MulF64 U a f
  /\ MulF64 U a (SFopp f) = - MulF64 U a f.
Proof.
  intros Ha Hv Hf Hlt. unfold MulF64, Int64.neg.
  rewrite wrap_id by (unfold Int64.min_int, Int64.max_int; lia).
  destruct (Z.eq_dec a 0) as [->|Hne].
  - change (Float64.of_int (- 0)) with (S754_zero false).
    change (Float64.of_int 0) with (S754_zero false).
    destruct f as [s|s| |s m e]; try discriminate Hf;
      cbn [SFopp Float64.mul SFmul]; rewrite !round_zero; split; reflexivity.
  - destruct (of_int_Q a Ha) as [Fa Qa].
    pose proof (of_int_valid a) as Va.
    destruct (of_int_nonzero a Hne ltac:(lia)) as [ma [ea Ea]].
    pose proof (of_int_full_mantissa a _ ma ea Hne Ha Ea) as Hn.
    rewrite (of_int_opp_nonzero a Hne ltac:(lia)).
    rewrite mul_opp_l_finite, mul_opp_r_finite by assumption.
    destruct (mul_below (Float64.of_int a) f Va Hv Fa Hf) as [F B].
    + exists (a <? 0), ma, ea. split; [now left|exact Hn].
    + now rewrite Qa.
    + split; now apply round_opp_finite.
Qed.

End Odd.

Lemma round_opp_witness :
  round amd64_unrepresentable (SFopp (of_ratio 5 2))
  = - round amd64_unrepresentable (of_ratio 5 2).
Proof.
  apply (round_opp amd64_unrepresentable (of_ratio 5 2)).
  - vm_compute. reflexivity.
  - vm_compute. reflexivity.
Defined.

Lemma NewAmount_opp_witness :
  NewAmount amd64_unrepresentable (SFopp (of_ratio 21 20)) 0
  = (- fst (NewAmount amd64_unrepresentable (of_ratio 21 20) 0), None).
Proof.
  apply (NewAmount_opp amd64_unrepresentable (of_ratio 21 20) 0).
  - vm_compute. reflexivity.
  - vm_compute. reflexivity.
  - vm_compute. reflexivity.
Defined.

Lemma MulF64_opp_witness :
  MulF64 amd64_unrepresentable (Int64.neg 1000) (of_ratio 1 3)
  = - MulF64 amd64_unrepresentable 1000 (of_ratio 1 3)
  /\ MulF64 amd64_unrepresentable 1000 (SFopp (of_ratio 1 3))
     = - MulF64 amd64_unrepresentable 1000 (of_ratio 1 3).
Proof.
  apply (MulF64_opp amd64_unrepresentable 1000 (of_ratio 1 3)).
  - lia.
  - vm_compute. reflexivity.
  - vm_compute. reflexivity.
  - vm_compute. reflexivity.
Defined.

(** ** The value of [ToUnit] in every unit *)

Lemma exact_quotient_spec (a n : Z) : (exact_quotient a n * pow10 n == inject_Z a)%Q.
Proof.
  unfold exact_quotient. field. intros E. pose proof (pow10_pos n) as P.
  rewrite E in P. discriminate P.
Qed.

Lemma exact_quotient_opp (a n : Z) : (exact_quotient (- a) n == - exact_quotient a n)%Q.
Proof.
  unfold exact_quotient. rewrite inject_Z_opp. field. intros E.
  pose proof (pow10_pos n) as P. rewrite E in P. discriminate P.
Qed.

Lemma exact_quotient_pos (a n : Z) : 0 < a -> (0 < exact_quotient a n)%Q.
Proof.
  intros Ha. unfold exact_quotient. apply Qlt_shift_div_l; [apply pow10_pos|].
  rewrite Qmult_0_l. now rewrite <- (Zlt_Qlt 0).
Qed.

(** The conversion of a positive integer below [2^64] is within [2^-53]
    (relative) of it. *)
Lemma of_int_relative (a : Z) :
  0 < a < 2 ^ 64 ->
  exists (m : positive) (e : Z),
    Float64.of_int a = S754_finite false m e
    /\ (Qabs (inject_Z (Z.pos m) * pow2 e - inject_Z a) <= inject_Z a * pow2 (-53))%Q.
Proof.
  intros Ha. destruct a as [|p|p]; try lia.
  unfold Float64.of_int. cbn [binary_normalize].
  assert (V : (inject_Z (Z.pos p) == inject_Z (Z.pos p) * pow2 0)%Q)
    by (change (pow2 0) with 1%Q; ring).
  pose proof (Zdigits2_le (Z.pos p) 64 ltac:(lia) ltac:(lia)) as Hd.
  pose proof (Zdigits2_bounds (Z.pos p) ltac:(lia)) as [Hl _].
  assert (Hd0 : 0 < Zdigits2 (Z.pos p)) by (cbn; lia).
  assert (F : fexp prec emax (Zdigits2 (Z.pos p) + 0) = Zdigits2 (Z.pos p) - 53)
    by (unfold fexp, emin, prec, emax; lia).
  pose proof (binary_round_Q false p 0 _ V ltac:(lia)) as H.
  rewrite F in H.
  destruct (rounds_to_signed _ _ _ _ H) as [HF [HE _]]. cbv iota in HE.
  assert (B : (pow2 (Zdigits2 (Z.pos p) - 53 - 1) <= inject_Z (Z.pos p) * pow2 (-53))%Q).
  { replace (Zdigits2 (Z.pos p) - 53 - 1) with (Zdigits2 (Z.pos p) - 1 + -53) by lia.
    rewrite pow2_add. apply Qmult_le_compat_r; [|apply Qlt_le_weak, pow2_pos].
    rewrite pow2_nonneg_Z by lia. now rewrite <- Zle_Qle. }
  assert (A1 : (1 <= inject_Z (Z.pos p))%Q) by (rewrite <- (Zle_Qle 1); lia).
  apply rounds_to_nonneg in H. destruct H as [H1 [_ [_ [H0|[m [e [E _]]]]]]].
  - exfalso. rewrite H0 in H1. cbn [to_Q] in H1.
    assert (U : (inject_Z (Z.pos p) * pow2 (-53) < inject_Z (Z.pos p) * 1)%Q).
    { apply Qmult_lt_l; [lra|]. reflexivity. }
    lra.
  - exists m, e. split; [exact E|]. rewrite E in HE. cbn [to_Q] in HE.
    eapply Qle_trans; [exact HE|exact B].
Qed.

Lemma pow2_m51 : (pow2 (-51) == 1 # 2251799813685248)%Q.
Proof. reflexivity. Qed.

Lemma pow2_m50 : (pow2 (-50) == 1 # 1125899906842624)%Q.
Proof. reflexivity. Qed.

(** A quotient below [2^1023] is rounded with a relative error of at
    most [2^-53], or an absolute one of at most [2^-1075] where the
    result is subnormal. *)
Lemma div_relative (sx sy : bool) (mx my : positive) (ex ey : Z) (x : Q) :
  (x * (inject_Z (Z.pos my) * pow2 ey) == inject_Z (Z.pos mx) * pow2 ex)%Q ->
  (x < pow2 1023)%Q ->
  exists e1 : Z,
    rounds_to (Float64.div (S754_finite sx mx ex) (S754_finite sy my ey))
      (xorb sx sy) x e1
    /\ (pow2 (e1 - 1) <= x * pow2 (-53) + pow2 (-1075))%Q
    /\ ((pow2 (-1022) <= x)%Q -> (pow2 (e1 - 1) <= x * pow2 (-53))%Q).
Proof.
  intros Hx Hlt.
  assert (X0 : (0 < x)%Q).
  { assert (P : (0 < inject_Z (Z.pos my) * pow2 ey)%Q)
      by (apply Qmult_lt_0_compat; [reflexivity|apply pow2_pos]).
    assert (P' : (0 < inject_Z (Z.pos mx) * pow2 ex)%Q)
      by (apply Qmult_lt_0_compat; [reflexivity|apply pow2_pos]).
    rewrite <- Hx in P'.
    destruct (Qlt_le_dec 0 x) as [|Hn]; [assumption|exfalso].
    assert (x * (inject_Z (Z.pos my) * pow2 ey) <= 0)%Q by nra. lra. }
  pose proof (pow2_pos (-1075)) as P1.
  assert (P2 : (0 < x * pow2 (-53))%Q) by (apply Qmult_lt_0_compat; [exact X0|apply pow2_pos]).
  destruct (Qlt_le_dec x (pow2 (-1074 + 53))) as [S|N].
  - destruct (div_Q sx sy mx my ex ey x (-1074) Hx ltac:(lia) S) as [e1 [He1 [HR Hrel]]].
    exists e1. split; [exact HR|]. split; [|exact Hrel].
    apply Qle_trans with (pow2 (-1075)); [apply pow2_le; lia|lra].
  - destruct (div_Q sx sy mx my ex ey x 970 Hx ltac:(lia) Hlt) as [e1 [He1 [HR Hrel]]].
    assert (Hn : (pow2 (-1022) <= x)%Q).
    { eapply Qle_trans; [|exact N]. apply pow2_le. lia. }
    specialize (Hrel Hn).
    exists e1. split; [exact HR|]. split; [lra|]. intros _. exact Hrel.
Qed.

(** A quotient of at least [2^1024] overflows. *)
Lemma div_overflow (sx sy : bool) (mx my : positive) (ex ey : Z) (x : Q) :
  (x * (inject_Z (Z.pos my) * pow2 ey) == inject_Z (Z.pos mx) * pow2 ex)%Q ->
  (pow2 1024 <= x)%Q ->
  Float64.div (S754_finite sx mx ex) (S754_finite sy my ey) = S754_infinity (xorb sx sy).
Proof.
  intros Hx Hge.
  unfold Float64.div, SFdiv. rewrite SFdiv_core_binary_loc.
  destruct (div_numerator_pos mx my ex ey) as [Hpos [He Hd]].
  pose proof (div_quotient_digits mx my ex ey) as Hq.
  set (e' := div_exponent mx my ex ey) in *.
  set (m' := div_numerator mx my ex ey) in *.
  assert (Hm' : m' = Z.pos mx * 2 ^ (ex - ey - e')) by reflexivity.
  pose proof (Z.mod_pos_bound m' (Z.pos my) ltac:(lia)) as Hr.
  assert (Hq0 : 0 <= m' / Z.pos my) by (apply Z.div_pos; lia).
  assert (Hmag : is_magnitude x (m' / Z.pos my) (m' mod Z.pos my) (Z.pos my) e').
  { unfold is_magnitude. rewrite <- Z.div_mod by lia.
    apply (Qmult_inj_r _ _ (pow2 ey)); [intros E; pose proof (pow2_pos ey) as P; rewrite E in P; discriminate|].
    rewrite <- Qmult_assoc, Hx, Hm', inject_Z_mult, <- pow2_nonneg_Z by lia.
    rewrite <- !Qmult_assoc, <- !pow2_add.
    now replace (ex - ey - e' + (e' + ey)) with ex by lia. }
  pose proof (shift_of_lower x _ _ _ e' 972 Hq0 Hr Hmag Hge) as Hlow.
  set (q := m' / Z.pos my) in *. set (r := m' mod Z.pos my) in *.
  assert (Hsh : e' + shift_of q e' = Zdigits2 q + e' - 53).
  { unfold shift_of in *. unfold fexp, emin, prec, emax in *. lia. }
  assert (Hqpos : 0 < q).
  { destruct (Z.eq_dec q 0) as [E0|]; [|lia].
    pose proof (shift_of_nonneg q e') as Hn. rewrite E0 in Hsh, Hn.
    change (Zdigits2 0) with 0 in Hsh. lia. }
  destruct (binary_round_aux_cases (xorb sx sy) q e' r (Z.pos my) Hq0 Hr)
    as [m2 [Hm2 [Herr [[E0 _]|[m3 [e3 [_ [He3 ->]]]]]]]].
  - exfalso. rewrite E0 in Herr.
    pose proof (shift_of_nonneg q e') as Hn.
    set (n1 := shift_of q e') in *.
    pose proof (Zdigits2_bounds q Hqpos) as [Hl _].
    assert (Hd53 : Zdigits2 q = n1 + 53) by lia.
    assert (HP : 0 < 2 ^ n1) by (apply Z.pow_pos_nonneg; lia).
    assert (Hq2 : 2 ^ n1 * 2 ^ 52 <= q).
    { rewrite <- Z.pow_add_r by lia. replace (n1 + 52) with (Zdigits2 q - 1) by lia. exact Hl. }
    assert (Hb : Z.pos my * (2 ^ n1 * 2 ^ 52) <= Z.pos my * q) by (apply Z.mul_le_mono_nonneg_l; lia).
    rewrite Z.abs_le in Herr. nia.
  - destruct (Z.leb_spec e3 971) as [Hle|_]; [lia|reflexivity].
Qed.

(** The quotient of two numbers known to within [2^-53] and [2^-51]
    (relative) is known to within [6 * 2^-53]. *)
Lemma quotient_perturbed (x x' A X T Y : Q) :
  (0 < A)%Q -> (0 < T)%Q -> (0 < x')%Q ->
  (x * T == A)%Q -> (x' * Y == X)%Q ->
  (Qabs (X - A) <= A * pow2 (-53))%Q -> (Qabs (Y - T) <= T * pow2 (-51))%Q ->
  (0 < x)%Q
  /\ (x * (1 - (6 # 9007199254740992)) <= x')%Q
  /\ (x' <= x * (1 + (6 # 9007199254740992)))%Q.
Proof.
  intros HA HT Hx' Hx HxY HX HY.
  rewrite pow2_m53 in HX. rewrite pow2_m51 in HY.
  apply Qabs_Qle_condition in HX. apply Qabs_Qle_condition in HY.
  destruct HX as [X1 X2]. destruct HY as [Y1 Y2].
  assert (Hx0 : (0 < x)%Q).
  { destruct (Qlt_le_dec 0 x) as [|Hn]; [assumption|exfalso].
    assert (x * T <= 0)%Q by nra. lra. }
  split; [exact Hx0|].
  assert (U1 : (0 <= x' * (Y - T * (1 - (4 # 9007199254740992))))%Q).
  { apply Qmult_le_0_compat; lra. }
  assert (U2 : (0 <= x' * (T * (1 + (4 # 9007199254740992)) - Y))%Q).
  { apply Qmult_le_0_compat; lra. }
  split.
  - apply (Qmult_le_r _ _ T HT). lra.
  - apply (Qmult_le_r _ _ T HT). lra.
Qed.

Lemma pow2_1023 : (pow2 1023 == pow2 1022 * 2)%Q.
Proof. change 1023 with (1022 + 1). apply pow2_succ. Qed.

Lemma pow2_m1021 : (pow2 (-1021) == pow2 (-1022) * 2)%Q.
Proof. change (-1021) with (-1022 + 1). apply pow2_succ. Qed.

(** The quotient of a positive amount by [Pow10 n], for [n] from -308
    to 308 and an exact quotient below [2^1022]: a finite float within
    [2^-50] (relative) of [a / 10^n], or within that and [2^-1075] where
    it is subnormal. *)
Lemma ToUnit_pos_wide (a n : Z) :
  0 < a < 2 ^ 64 -> -308 <= n <= 308 ->
  (exact_quotient a n < pow2 1022)%Q ->
  let R := Float64.div (Float64.of_int a) (math.Pow10 n) in
  is_finite R = true
  /\ (Qabs (to_Q R - exact_quotient a n)
      <= exact_quotient a n * pow2 (-50) + pow2 (-1075))%Q
  /\ ((pow2 (-1021) <= exact_quotient a n)%Q ->
      (Qabs (to_Q R - exact_quotient a n) <= exact_quotient a n * pow2 (-50))%Q).
Proof.
  intros Ha Hn Hlt. cbv zeta.
  destruct (of_int_relative a Ha) as [ma [ea [EX BX]]].
  destruct (Pow10_accuracy n Hn) as [mk [ek [EK BK]]].
  rewrite EX, EK.
  pose proof (exact_quotient_spec a n) as Hx.
  set (x := exact_quotient a n) in *.
  set (X := (inject_Z (Z.pos ma) * pow2 ea)%Q) in *.
  set (Y := (inject_Z (Z.pos mk) * pow2 ek)%Q) in *.
  assert (X0 : (0 < X)%Q) by (apply Qmult_lt_0_compat; [reflexivity|apply pow2_pos]).
  assert (Y0 : (0 < Y)%Q) by (apply Qmult_lt_0_compat; [reflexivity|apply pow2_pos]).
  assert (A0 : (0 < inject_Z a)%Q) by (rewrite <- (Zlt_Qlt 0); lia).
  set (x' := (X / Y)%Q).
  assert (Hx' : (x' * Y == X)%Q).
  { unfold x'. field. intros E. rewrite E in Y0. discriminate Y0. }
  assert (Hx'0 : (0 < x')%Q).
  { unfold x'. apply Qlt_shift_div_l; [exact Y0|]. now rewrite Qmult_0_l. }
  destruct (quotient_perturbed x x' (inject_Z a) X (pow10 n) Y A0 (pow10_pos n) Hx'0 Hx Hx' BX BK)
    as [Hx0 [L U]].
  pose proof pow2_1023 as K1. pose proof pow2_m1021 as K2.
  pose proof (pow2_pos 1022) as P1. pose proof (pow2_pos (-1022)) as P2.
  pose proof (pow2_pos (-1075)) as P3.
  assert (Hlt' : (x' < pow2 1023)%Q) by lra.
  destruct (div_relative false false ma mk ea ek x' Hx' Hlt') as [e1 [HR [Hb Hnorm]]].
  destruct (rounds_to_signed _ _ _ _ HR) as [HF [HE _]]. cbn [xorb] in HE. cbv iota in HE.
  set (R := Float64.div (S754_finite false ma ea) (S754_finite false mk ek)) in *.
  rewrite pow2_m53 in Hb, Hnorm. rewrite pow2_m50.
  apply Qabs_Qle_condition in HE. destruct HE as [E1 E2].
  split; [exact HF|]. split.
  - apply Qabs_Qle_condition. split; lra.
  - intros Hge. assert (N : (pow2 (-1022) <= x')%Q) by lra.
    specialize (Hnorm N). apply Qabs_Qle_condition. split; lra.
Qed.

Lemma quotient_opp (b n : Z) :
  0 < b < 2 ^ 64 ->
  Float64.div (Float64.of_int (- b)) (math.Pow10 n)
  = SFopp (Float64.div (Float64.of_int b) (math.Pow10 n)).
Proof.
  intros Hb. rewrite of_int_opp by lia.
  destruct (of_int_pos_form b Hb) as [m [e [E _]]]. rewrite E.
  apply div_opp_l_any. intros s. discriminate.
Qed.

Lemma quotient_zero (n : Z) :
  -323 <= n -> Float64.div (Float64.of_int 0) (math.Pow10 n) = S754_zero false.
Proof.
  intros Lo. change (Float64.of_int 0) with (S754_zero false).
  destruct (Z.le_gt_cases n 308) as [Hi|Hi].
  - destruct (Pow10_range n ltac:(lia)) as [mk [ek ->]]. reflexivity.
  - rewrite Pow10_above by assumption. reflexivity.
Qed.

Lemma exact_quotient_zero (n : Z) : (exact_quotient 0 n == 0)%Q.
Proof. unfold exact_quotient. apply Qmult_0_l. Qed.

(** For every amount below [2^64] in magnitude, every [n] from -308 to
    308 and an exact quotient below [2^1022] in magnitude, the float64
    quotient is finite and within [2^-50] (relative) of [a / 10^n], or
    within that and [2^-1075] where it is subnormal. *)
Lemma quotient_wide (a n : Z) :
  - 2 ^ 64 < a < 2 ^ 64 -> -308 <= n <= 308 ->
  (Qabs (exact_quotient a n) < pow2 1022)%Q ->
  let R := Float64.div (Float64.of_int a) (math.Pow10 n) in
  is_finite R = true
  /\ (Qabs (to_Q R - exact_quotient a n)
      <= Qabs (exact_quotient a n) * pow2 (-50) + pow2 (-1075))%Q
  /\ ((pow2 (-1021) <= Qabs (exact_quotient a n))%Q ->
      (Qabs (to_Q R - exact_quotient a n) <= Qabs (exact_quotient a n) * pow2 (-50))%Q).
Proof.
  intros Ha Hn Hlt. cbv zeta.
  destruct (Z.lt_trichotomy a 0) as [N|[->|P]].
  - remember (- a) as b eqn:Eb.
    assert (Ea : a = - b) by lia. subst a. clear Eb.
    assert (Hb : 0 < b < 2 ^ 64) by lia.
    pose proof (exact_quotient_pos b n ltac:(lia)) as Xp.
    pose proof (exact_quotient_opp b n) as Xo.
    rewrite quotient_opp by assumption.
    rewrite Xo, Qabs_opp, Qabs_pos in Hlt by lra.
    destruct (ToUnit_pos_wide b n Hb Hn Hlt) as [F [B1 B2]]. cbv zeta in F, B1, B2.
    set (R := Float64.div (Float64.of_int b) (math.Pow10 n)) in *.
    rewrite is_finite_opp. split; [exact F|].
    assert (E : (to_Q (SFopp R) - exact_quotient (- b) n == - (to_Q R - exact_quotient b n))%Q)
      by (rewrite to_Q_opp, Xo; ring).
    rewrite E, Qabs_opp, Xo, Qabs_opp, (Qabs_pos (exact_quotient b n)) by lra.
    split; assumption.
  - rewrite quotient_zero by lia. split; [reflexivity|].
    rewrite exact_quotient_zero. cbn [to_Q].
    pose proof (pow2_pos (-1075)) as P1.
    split.
    + setoid_replace (0 - 0)%Q with 0%Q by ring. change (Qabs 0) with 0%Q. lra.
    + intros _. setoid_replace (0 - 0)%Q with 0%Q by ring. change (Qabs 0) with 0%Q. lra.
  - pose proof (exact_quotient_pos a n P) as Xp.
    rewrite Qabs_pos in Hlt by lra.
    destruct (ToUnit_pos_wide a n ltac:(lia) Hn Hlt) as [F [B1 B2]]. cbv zeta in F, B1, B2.
    rewrite (Qabs_pos (exact_quotient a n)) by lra.
    split; [exact F|]. split; assumption.
Qed.

Lemma pow10_288 : (pow10 288 <= pow2 957)%Q.
Proof. vm_compute. discriminate. Qed.

Lemma pow10_m288 : (pow2 (-957) <= pow10 (-288))%Q.
Proof. vm_compute. discriminate. Qed.

(** For [n] from -288 to 288 the exact quotient of a nonzero amount
    below [2^64] in magnitude is in the range of the normal floats. *)
Lemma exact_quotient_normal (a n : Z) :
  a <> 0 -> - 2 ^ 64 < a < 2 ^ 64 -> -288 <= n <= 288 ->
  (Qabs (exact_quotient a n) < pow2 1022)%Q
  /\ (pow2 (-1021) <= Qabs (exact_quotient a n))%Q.
Proof.
  intros Hne Ha Hn.
  pose proof (exact_quotient_spec a n) as Hx.
  pose proof (pow10_pos n) as T0.
  assert (T1 : (pow2 (-957) <= pow10 n)%Q).
  { eapply Qle_trans; [exact pow10_m288|]. apply pow10_le. lia. }
  assert (T2 : (pow10 n <= pow2 957)%Q).
  { eapply Qle_trans; [|exact pow10_288]. apply pow10_le. lia. }
  assert (A : (Qabs (exact_quotient a n) * pow10 n == inject_Z (Z.abs a))%Q).
  { rewrite <- Qabs_inject_Z, <- Hx, Qabs_Qmult, (Qabs_pos (pow10 n)) by lra. reflexivity. }
  set (x := Qabs (exact_quotient a n)) in *.
  assert (X0 : (0 <= x)%Q) by apply Qabs_nonneg.
  assert (A1 : (1 <= inject_Z (Z.abs a))%Q) by (rewrite <- (Zle_Qle 1); lia).
  assert (A2 : (inject_Z (Z.abs a) < pow2 64)%Q).
  { rewrite pow2_nonneg_Z by lia. rewrite <- Zlt_Qlt. lia. }
  pose proof (pow2_pos (-957)) as P1. pose proof (pow2_pos 957) as P2.
  split.
  - destruct (Qlt_le_dec x (pow2 1022)) as [|C]; [assumption|exfalso].
    assert (K : (pow2 1022 * pow2 (-957) == pow2 65)%Q) by (rewrite <- pow2_add; reflexivity).
    assert (L : (pow2 1022 * pow2 (-957) <= x * pow10 n)%Q).
    { apply Qle_trans with (x * pow2 (-957))%Q.
      - apply Qmult_le_compat_r; [exact C|lra].
      - apply Qmult_le_l; [|exact T1].
        apply Qlt_le_trans with (pow2 1022); [apply pow2_pos|exact C]. }
    assert (pow2 64 < pow2 65)%Q by (apply pow2_lt; lia). lra.
  - destruct (Qlt_le_dec x (pow2 (-1021))) as [C|]; [exfalso|assumption].
    assert (K : (pow2 (-1021) * pow2 957 == pow2 (-64))%Q) by (rewrite <- pow2_add; reflexivity).
    assert (L : (x * pow10 n <= pow2 (-1021) * pow2 957)%Q).
    { apply Qle_trans with (x * pow2 957)%Q.
      - apply Qmult_le_l; [|exact T2].
        destruct (Qlt_le_dec 0 x) as [|Hz]; [assumption|exfalso].
        assert (x * pow10 n <= 0)%Q by nra. lra.
      - apply Qmult_le_compat_r; [now apply Qlt_le_weak|lra]. }
    assert (pow2 (-64) < 1)%Q by reflexivity. lra.
Qed.

(** A nonzero amount overflows every unit whose power of ten is below
    [1e-308]. *)
Lemma quotient_overflow (a n : Z) :
  a <> 0 -> - 2 ^ 64 < a < 2 ^ 64 -> n <= -309 ->
  Float64.div (Float64.of_int a) (math.Pow10 n) = S754_infinity (a <? 0).
Proof.
  intros Hne Ha Hn.
  assert (Pos : forall b, 0 < b < 2 ^ 64 ->
                  Float64.div (Float64.of_int b) (math.Pow10 n) = S754_infinity false).
  { intros b Hb. destruct (of_int_relative b Hb) as [mb [eb [EB BB]]]. rewrite EB.
    destruct (Z.lt_ge_cases n (-323)) as [Lo|NLo].
    - rewrite Pow10_below by assumption. reflexivity.
    - destruct (Pow10_tiny n ltac:(lia)) as [mk [ek [EK BK]]]. rewrite EK.
      set (X := (inject_Z (Z.pos mb) * pow2 eb)%Q) in *.
      set (Y := (inject_Z (Z.pos mk) * pow2 ek)%Q) in *.
      assert (Y0 : (0 < Y)%Q) by (apply Qmult_lt_0_compat; [reflexivity|apply pow2_pos]).
      assert (B1 : (1 <= inject_Z b)%Q) by (rewrite <- (Zle_Qle 1); lia).
      rewrite pow2_m53 in BB. apply Qabs_Qle_condition in BB.
      assert (X1 : (1 # 2 < X)%Q) by lra.
      set (x := (X / Y)%Q).
      assert (Hx : (x * Y == X)%Q).
      { unfold x. field. intros E. rewrite E in Y0. discriminate Y0. }
      apply (div_overflow false false mb mk eb ek x Hx).
      destruct (Qlt_le_dec x (pow2 1024)) as [C|]; [exfalso|assumption].
      assert (X0 : (0 < x)%Q).
      { unfold x. apply Qlt_shift_div_l; [exact Y0|]. rewrite Qmult_0_l. lra. }
      assert (K : (pow2 1024 * pow2 (-1025) == 1 # 2)%Q) by (rewrite <- pow2_add; reflexivity).
      pose proof (pow2_pos (-1025)) as P1.
      assert (L : (x * Y < pow2 1024 * pow2 (-1025))%Q).
      { apply Qle_lt_trans with (x * pow2 (-1025))%Q.
        - apply Qmult_le_l; assumption.
        - apply Qmult_lt_compat_r; assumption. }
      lra. }
  destruct (Z.lt_trichotomy a 0) as [N|[E0|P]]; [|lia|].
  - remember (- a) as b eqn:Eb.
    assert (Ea : a = - b) by lia. subst a. clear Eb.
    rewrite quotient_opp, Pos by lia. cbn [SFopp negb].
    now rewrite (proj2 (Z.ltb_lt (- b) 0)) by lia.
  - rewrite Pos by lia. now rewrite (proj2 (Z.ltb_ge a 0)) by lia.
Qed.

(** Past the largest [int] the sum [u + 8] wraps around to the least
    ones. *)
Lemma add_wraps (u : Z) :
  Int64.max_int - 8 < u <= Int64.max_int -> Int64.add u 8 = u + 8 - 2 ^ 64.
Proof.
  unfold Int64.add, Int64.wrap, Int64.max_int. intros H.
  replace (u + 8 + 2 ^ 63) with (u + 8 - 2 ^ 63 + 1 * 2 ^ 64) by lia.
  rewrite Z.mod_add by lia. rewrite Z.mod_small by lia. lia.
Qed.

(** C4, as the code has it.  [ToUnit] is the float64 quotient of
    [float64(a)] by [Pow10(int(u+8))] and returns for every amount and
    every unit, but the result is [a / 10^(u+8)] only up to rounding and
    only in the range of float64.  For the units from [AmountHao] to
    exponent 14 and an amount below [2^53] in magnitude the power of ten
    is exact and the result, multiplied back, is within [|a| * 2^-53] of
    the amount.  For every int64 amount and every unit from -296 to 280
    the result is finite and within [2^-50] (relative) of
    [a / 10^(u+8)]; from -316 to 300 it is so, up to [2^-1075] more, as
    long as the exact quotient is below [2^1022] in magnitude, [Pow10]
    being within [2^-51] (relative) of the power of ten from [1e-308] to
    [1e308].  Outside: a nonzero amount gives an infinity for
    [u+8 <= -309] and a zero for [u+8 > 308]; the zero amount gives NaN
    for [u+8 < -323]; and [u+8] wraps around, so that the units above
    [MaxInt64 - 8] behave as the least ones do. *)
Theorem ToUnit_quotient (a : Amount) (u : AmountUnit) :
  ToUnit a u = Float64.div (Float64.of_int a) (math.Pow10 (Int64.add u 8))
  /\ (-8 <= u <= 14 ->
      is_finite (math.Pow10 (Int64.add u 8)) = true
      /\ (to_Q (math.Pow10 (Int64.add u 8)) == inject_Z (10 ^ (u + 8)))%Q)
  /\ (-8 <= u <= 14 -> - 2 ^ 53 < a < 2 ^ 53 ->
      is_finite (ToUnit a u) = true
      /\ (Qabs (to_Q (ToUnit a u) * inject_Z (10 ^ (u + 8)) - inject_Z a)
          <= Qabs (inject_Z a) * pow2 (-53))%Q)
  /\ (Int64.in_range a = true -> -296 <= u <= 280 ->
      is_finite (ToUnit a u) = true
      /\ (Qabs (to_Q (ToUnit a u) - exact_quotient a (u + 8))
          <= Qabs (exact_quotient a (u + 8)) * pow2 (-50))%Q)
  /\ (Int64.in_range a = true -> -316 <= u <= 300 ->
      (Qabs (exact_quotient a (u + 8)) < pow2 1022)%Q ->
      is_finite (ToUnit a u) = true
      /\ (Qabs (to_Q (ToUnit a u) - exact_quotient a (u + 8))
          <= Qabs (exact_quotient a (u + 8)) * pow2 (-50) + pow2 (-1075))%Q)
  /\ (Int64.in_range a = true -> a <> 0 -> Int64.add u 8 <= -309 ->
      ToUnit a u = S754_infinity (a <? 0))
  /\ (Int64.in_range a = true -> 308 < Int64.add u 8 ->
      ToUnit a u = S754_zero (a <? 0))
  /\ (Int64.add u 8 < -323 -> ToUnit 0 u = S754_nan)
  /\ (-323 <= Int64.add u 8 -> ToUnit 0 u = S754_zero false)
  /\ (Int64.in_range a = true -> Int64.max_int - 8 < u <= Int64.max_int ->
      ToUnit a u = if a =? 0 then S754_nan else S754_infinity (a <? 0))
  /\ (forall n, -308 <= n <= 308 ->
      is_finite (math.Pow10 n) = true
      /\ (Qabs (to_Q (math.Pow10 n) - pow10 n) <= pow10 n * pow2 (-51))%Q)
  /\ (forall n, 308 < n -> math.Pow10 n = Float64.Inf)
  /\ (forall n, n < -323 -> math.Pow10 n = Float64.zero).
Proof.
  assert (R : Int64.in_range a = true -> - 2 ^ 64 < a < 2 ^ 64).
  { intros Hr. apply in_range_bounds in Hr. lia. }
  assert (W : -316 <= u <= 300 -> Int64.add u 8 = u + 8).
  { intros Hu. unfold Int64.add. apply wrap_id. unfold Int64.min_int, Int64.max_int. lia. }
  assert (Nan : forall w, Int64.add w 8 < -323 -> ToUnit 0 w = S754_nan).
  { intros w Lo. unfold ToUnit. now rewrite Pow10_below by assumption. }
  assert (Ovf : Int64.in_range a = true -> a <> 0 -> Int64.add u 8 <= -309 ->
                ToUnit a u = S754_infinity (a <? 0)).
  { intros Hr Hne Lo. unfold ToUnit. apply quotient_overflow; auto. }
  split; [reflexivity|].
  split.
  { intros H. unfold Int64.add.
    rewrite wrap_id by (unfold Int64.min_int, Int64.max_int; lia).
    apply Pow10_exact. lia. }
  split; [intros Hu Ha; now apply ToUnit_accuracy|].
  split.
  { intros Hr Hu. unfold ToUnit. rewrite W by lia.
    destruct (Z.eq_dec a 0) as [->|Hne].
    - rewrite quotient_zero by lia. split; [reflexivity|].
      rewrite exact_quotient_zero. cbn [to_Q].
      setoid_replace (0 - 0)%Q with 0%Q by ring. change (Qabs 0) with 0%Q. lra.
    - destruct (exact_quotient_normal a (u + 8) Hne (R Hr) ltac:(lia)) as [X1 X2].
      destruct (quotient_wide a (u + 8) (R Hr) ltac:(lia) X1) as [F [_ B]].
      split; [exact F|]. now apply B. }
  split.
  { intros Hr Hu Hlt. unfold ToUnit. rewrite W by lia.
    destruct (quotient_wide a (u + 8) (R Hr) ltac:(lia) Hlt) as [F [B _]].
    split; assumption. }
  split; [exact Ovf|].
  split.
  { intros Hr Hi. unfold ToUnit. rewrite Pow10_above by assumption.
    destruct (Z.eq_dec a 0) as [->|Hne]; [reflexivity|].
    destruct (of_int_nonzero a Hne (R Hr)) as [m [e ->]]. cbn. now rewrite xorb_false_r. }
  split; [apply Nan|].
  split; [intros Lo; unfold ToUnit; now apply quotient_zero|].
  split.
  { intros Hr Hu. pose proof (add_wraps u Hu) as E.
    assert (Lo : Int64.add u 8 < -323) by (unfold Int64.max_int in Hu; lia).
    destruct (Z.eqb_spec a 0) as [->|Hne]; [now apply Nan|].
    apply Ovf; [assumption|assumption|lia]. }
  split.
  { intros n Hn. destruct (Pow10_accuracy n Hn) as [mk [ek [-> B]]].
    split; [reflexivity|exact B]. }
  split; [apply Pow10_above|apply Pow10_below].
Qed.

Lemma ToUnit_quotient_witness :
  is_finite (ToUnit Int64.max_int 280) = true
  /\ (Qabs (to_Q (ToUnit Int64.max_int 280%Z) - exact_quotient Int64.max_int (280 + 8)%Z)
      <= Qabs (exact_quotient Int64.max_int (280 + 8)%Z) * pow2 (-50))%Q.
Proof.
  destruct (ToUnit_quotient Int64.max_int 280) as [_ [_ [_ [H _]]]].
  apply H; [reflexivity|lia].
Defined.

(** C4 as stated fails: for the zero amount and the unit -400 the
    quotient [0 / 10^-392] is 0, and [ToUnit] is NaN, the power of ten
    being given as 0 by [Pow10]; so [ToUnit] is not always a float near
    [a / 10^(u+8)]. *)
Lemma ToUnit_quotient_counterexample :
  ToUnit 0 (-400) = S754_nan
  /\ (exact_quotient 0%Z (-400 + 8)%Z == 0)%Q
  /\ ~ (forall (a : Amount) (u : AmountUnit),
          Int64.in_range a = true -> Int64.in_range u = true ->
          is_finite (ToUnit a u) = true
          /\ (Qabs (to_Q (ToUnit a u) - exact_quotient a (u + 8))
              <= Qabs (exact_quotient a (u + 8)) * pow2 (-50))%Q).
Proof.
  split; [reflexivity|]. split; [apply exact_quotient_zero|].
  intros H. destruct (H 0 (-400) eq_refl eq_refl) as [F _]. discriminate F.
Qed.

Example ToUnit_wraps : ToUnit 1 Int64.max_int = S754_infinity false.
Proof. reflexivity. Qed.

(** ** [Format] in every unit

    The precision [-int(u+8)] and the buffer of [FormatFloat]. *)

Lemma wrap_range (z : Z) : Int64.min_int <= Int64.wrap z <= Int64.max_int.
Proof.
  unfold Int64.wrap, Int64.min_int, Int64.max_int.
  pose proof (Z.mod_pos_bound (z + 2 ^ 63) (2 ^ 64) ltac:(lia)). lia.
Qed.

Lemma wrap_above (z : Z) :
  Int64.max_int < z <= Int64.max_int + 2 ^ 63 -> Int64.wrap z = z - 2 ^ 64.
Proof.
  unfold Int64.wrap, Int64.max_int. intros H.
  replace (z + 2 ^ 63) with (z - 2 ^ 63 + 1 * 2 ^ 64) by lia.
  rewrite Z.mod_add by lia. rewrite Z.mod_small by lia. lia.
Qed.

Lemma precision_plain (u : AmountUnit) :
  Int64.min_int <= u <= Int64.max_int - 8 -> Int64.neg (Int64.add u 8) = - (u + 8).
Proof.
  intros H. unfold Int64.neg, Int64.add.
  rewrite (wrap_id (u + 8)) by lia.
  apply wrap_id. unfold Int64.min_int, Int64.max_int in *. lia.
Qed.

(** At [MaxInt64 - 7] the sum wraps around to the least [int], which is
    its own opposite. *)
Lemma precision_least : Int64.neg (Int64.add (Int64.max_int - 7) 8) = Int64.min_int.
Proof. reflexivity. Qed.

Lemma precision_wrapped (u : AmountUnit) :
  Int64.max_int - 7 < u <= Int64.max_int ->
  Int64.neg (Int64.add u 8) = 2 ^ 64 - 8 - u.
Proof.
  intros H. rewrite add_wraps by lia. unfold Int64.neg.
  rewrite wrap_id by (unfold Int64.min_int, Int64.max_int in *; lia). lia.
Qed.

(** [FormatFloat] returns for a precision up to [maxAlloc - 4]. *)
Lemma FormatFloat_f_returns (x : float64) (prec : Z) :
  Int64.min_int <= prec <= strconv.maxAlloc - 4 ->
  strconv.FormatFloat_f x prec = Some (strconv.genericFtoa_f x prec).
Proof.
  intros H. unfold strconv.FormatFloat_f, strconv.makeslice_ok, Int64.add.
  unfold strconv.maxAlloc in *.
  rewrite wrap_id by (unfold Int64.min_int, Int64.max_int in *; lia).
  replace (0 <=? Z.max (prec + 4) 24) with true by (symmetry; apply Z.leb_le; lia).
  replace (Z.max (prec + 4) 24 <=? 2 ^ 48) with true by (symmetry; apply Z.leb_le; lia).
  reflexivity.
Qed.

(** It panics above, as long as [prec + 4] does not wrap around. *)
Lemma FormatFloat_f_panics (x : float64) (prec : Z) :
  strconv.maxAlloc - 4 < prec <= Int64.max_int - 4 ->
  strconv.FormatFloat_f x prec = None.
Proof.
  intros H. unfold strconv.FormatFloat_f, strconv.makeslice_ok, Int64.add.
  unfold strconv.maxAlloc in *.
  rewrite wrap_id by (unfold Int64.min_int, Int64.max_int in *; lia).
  replace (Z.max (prec + 4) 24 <=? 2 ^ 48) with false by (symmetry; apply Z.leb_gt; lia).
  now rewrite andb_false_r.
Qed.

(** For the four largest precisions [prec + 4] wraps around to a
    negative number, and the buffer has 24 bytes. *)
Lemma FormatFloat_f_wrapped (x : float64) (prec : Z) :
  Int64.max_int - 4 < prec <= Int64.max_int ->
  strconv.FormatFloat_f x prec = Some (strconv.genericFtoa_f x prec).
Proof.
  intros H. unfold strconv.FormatFloat_f, strconv.makeslice_ok, Int64.add.
  rewrite wrap_above by (unfold Int64.max_int in *; lia).
  rewrite Z.max_r by (unfold Int64.max_int in *; lia). reflexivity.
Qed.

(** Division by the 0 that [Pow10] gives below [1e-323] has no finite
    result. *)
Lemma finite_exponent (a : Amount) (u : AmountUnit) :
  is_finite (ToUnit a u) = true -> -323 <= Int64.add u 8.
Proof.
  intros Hf. destruct (Z.lt_ge_cases (Int64.add u 8) (-323)) as [Lo|]; [exfalso|assumption].
  unfold ToUnit in Hf. rewrite Pow10_below in Hf by assumption.
  destruct (Float64.of_int a) as [s|s| |s m e]; discriminate Hf.
Qed.

Lemma finite_precision (a : Amount) (u : AmountUnit) :
  is_finite (ToUnit a u) = true ->
  Int64.neg (Int64.add u 8) = - Int64.add u 8 /\ - Int64.max_int <= - Int64.add u 8 <= 323.
Proof.
  intros Hf. apply finite_exponent in Hf.
  pose proof (wrap_range (u + 8)) as R. fold (Int64.add u 8) in R.
  split; [|lia]. unfold Int64.neg. apply wrap_id.
  unfold Int64.min_int, Int64.max_int in *. lia.
Qed.

(** Where the quotient is finite [Format] returns. *)
Lemma Format_finite (a : Amount) (u : AmountUnit) :
  is_finite (ToUnit a u) = true ->
  Format a u
  = Some (append (strconv.genericFtoa_f (ToUnit a u) (Int64.neg (Int64.add u 8)))
            (String " " (AmountUnit_String u))).
Proof.
  intros Hf. destruct (finite_precision a u Hf) as [E B]. unfold Format.
  rewrite FormatFloat_f_returns; [reflexivity|].
  rewrite E. unfold strconv.maxAlloc, Int64.min_int, Int64.max_int in *. lia.
Qed.

(** The quotient by the 0 of [Pow10], as [genericFtoa] writes it. *)
Lemma genericFtoa_f_by_zero (a : Amount) (u : AmountUnit) (prec : Z) :
  Int64.in_range a = true -> Int64.add u 8 < -323 ->
  strconv.genericFtoa_f (ToUnit a u) prec = not_a_quotient a.
Proof.
  intros Hr Lo. unfold not_a_quotient.
  destruct (Z.eqb_spec a 0) as [->|Hne].
  - unfold ToUnit. rewrite Pow10_below by assumption. reflexivity.
  - unfold ToUnit. rewrite quotient_overflow; try assumption; try lia.
    + now destruct (a <? 0).
    + apply in_range_bounds in Hr. lia.
Qed.

(** The units for which [Format] panics: those below [-maxAlloc - 4],
    whose buffer the runtime refuses, and the three largest, for which
    [u + 8] wraps around to as large a precision. *)
Lemma Format_panics_iff (a : Amount) (u : AmountUnit) :
  Int64.in_range u = true ->
  Format a u = None <-> u < - strconv.maxAlloc - 4 \/ Int64.max_int - 2 <= u.
Proof.
  intros Hr. apply in_range_bounds in Hr.
  assert (M : strconv.maxAlloc = 2 ^ 48) by reflexivity.
  assert (Some_not : forall s, Format a u = Some s -> Format a u = None <-> False).
  { intros s E. rewrite E. split; [discriminate|contradiction]. }
  unfold Format.
  destruct (Z.le_gt_cases u (Int64.max_int - 8)) as [Plain|Wrap].
  - rewrite precision_plain by (unfold Int64.min_int, Int64.max_int in *; lia).
    destruct (Z.lt_ge_cases u (- strconv.maxAlloc - 4)) as [Lo|Hi].
    + rewrite FormatFloat_f_panics by (unfold Int64.max_int in *; lia).
      split; [intros _; now left|reflexivity].
    + rewrite FormatFloat_f_returns by (unfold Int64.min_int, Int64.max_int in *; lia).
      split; [discriminate|]. unfold Int64.max_int in *. lia.
  - destruct (Z.eq_dec u (Int64.max_int - 7)) as [->|Hne].
    + rewrite precision_least, FormatFloat_f_returns
        by (unfold Int64.min_int; rewrite M; lia).
      split; [discriminate|]. unfold Int64.max_int. rewrite M. lia.
    + rewrite precision_wrapped by (unfold Int64.max_int in *; lia).
      destruct (Z.le_gt_cases u (Int64.max_int - 3)) as [Four|Three].
      * rewrite FormatFloat_f_wrapped by (unfold Int64.max_int in *; lia).
        split; [discriminate|]. unfold Int64.max_int in *. lia.
      * rewrite FormatFloat_f_panics by (unfold Int64.max_int in *; lia).
        split; [intros _; right; lia|reflexivity].
Qed.

(** The units for which [Format] returns and the power of ten is given
    as 0: the text is that of NaN or of an infinity. *)
Lemma Format_by_zero (a : Amount) (u : AmountUnit) :
  Int64.in_range a = true ->
  - strconv.maxAlloc - 4 <= u < -331 \/ Int64.max_int - 8 < u <= Int64.max_int - 3 ->
  Format a u = Some (append (not_a_quotient a) (String " " (AmountUnit_String u))).
Proof.
  intros Hr Hu.
  assert (M : strconv.maxAlloc = 2 ^ 48) by reflexivity.
  unfold Format.
  destruct Hu as [Lo|Hi].
  - assert (A : Int64.add u 8 = u + 8).
    { unfold Int64.add. apply wrap_id. unfold Int64.min_int, Int64.max_int. lia. }
    rewrite precision_plain by (unfold Int64.min_int, Int64.max_int; lia).
    rewrite FormatFloat_f_returns by (unfold Int64.min_int; lia).
    rewrite genericFtoa_f_by_zero by (try assumption; lia). reflexivity.
  - assert (A : Int64.add u 8 < -323).
    { rewrite add_wraps by lia. unfold Int64.max_int in *. lia. }
    destruct (Z.eq_dec u (Int64.max_int - 7)) as [->|Hne].
    + rewrite precision_least, FormatFloat_f_returns
        by (unfold Int64.min_int; rewrite M; lia).
      rewrite genericFtoa_f_by_zero by assumption. reflexivity.
    + rewrite precision_wrapped by (unfold Int64.max_int in *; lia).
      rewrite FormatFloat_f_wrapped by (unfold Int64.max_int in *; lia).
      rewrite genericFtoa_f_by_zero by assumption. reflexivity.
Qed.

(** C5, as the code has it.  [Format] asks [FormatFloat] for [ToUnit]
    in 'f' format at precision [-int(u+8)] and appends a space and the
    label; [FormatFloat] first makes a buffer of [max(prec+4, 24)]
    bytes, which panics for the int64 units below [-2^48 - 4] and for
    the three largest.  For a unit [u <= -8] and a finite quotient --
    every int64 amount has one for [-30 <= u <= -8] -- the number has
    exactly [-(u+8)] digits after the point (no point for [u = -8]).
    For a unit above -8, up to [MaxInt64 - 7], the precision is
    negative, which asks [FormatFloat] for the fewest digits that
    identify the float, as precision -1 does.  Where [Pow10] gives 0
    (below -331, and from [MaxInt64 - 7] on, where [u + 8] wraps around)
    and the call returns, the number is "NaN", "+Inf" or "-Inf".
    [Amount(100000000).String()] is "1 OMC". *)
Theorem Format_precision (a : Amount) (u : AmountUnit) :
  Format a u
  = option_map (fun number => append number (String " " (AmountUnit_String u)))
      (strconv.FormatFloat_f (ToUnit a u) (Int64.neg (Int64.add u 8)))
  /\ (Int64.in_range u = true ->
      (Format a u = None <-> u < - strconv.maxAlloc - 4 \/ Int64.max_int - 2 <= u))
  /\ (Int64.min_int <= u <= -8 -> is_finite (ToUnit a u) = true ->
      exists s : string,
        Format a u = Some s
        /\ fraction_digits s = - (u + 8)
        /\ exists (neg : bool) (ip fr : string),
            number_part s
            = append (if neg then "-"%string else EmptyString)
                (append ip (if u <? -8 then String "." fr else EmptyString))
            /\ all_digits ip = true /\ all_digits fr = true
            /\ Z.of_nat (String.length fr) = - (u + 8))
  /\ (-30 <= u <= -8 -> Int64.in_range a = true ->
      is_finite (ToUnit a u) = true
      /\ exists s : string, Format a u = Some s /\ fraction_digits s = - (u + 8))
  /\ (-8 < u <= Int64.max_int - 7 ->
      Format a u
      = Some (append (strconv.genericFtoa_f (ToUnit a u) (-1))
                (String " " (AmountUnit_String u))))
  /\ (Int64.in_range a = true ->
      - strconv.maxAlloc - 4 <= u < -331 \/ Int64.max_int - 8 < u <= Int64.max_int - 3 ->
      Format a u = Some (append (not_a_quotient a) (String " " (AmountUnit_String u))))
  /\ Amount_String 100000000 = Some "1 OMC"%string.
Proof.
  assert (Fixed : Int64.min_int <= u <= -8 -> is_finite (ToUnit a u) = true ->
      exists s : string,
        Format a u = Some s
        /\ fraction_digits s = - (u + 8)
        /\ exists (neg : bool) (ip fr : string),
            number_part s
            = append (if neg then "-"%string else EmptyString)
                (append ip (if u <? -8 then String "." fr else EmptyString))
            /\ all_digits ip = true /\ all_digits fr = true
            /\ Z.of_nat (String.length fr) = - (u + 8)).
  { intros Hu Hf. rewrite (Format_finite a u Hf).
    rewrite precision_plain by (unfold Int64.max_int; lia).
    eexists. split; [reflexivity|].
    destruct (genericFtoa_f_fraction (ToUnit a u) (- (u + 8)) (AmountUnit_String u) Hf)
      as [neg [ip [fr [H1 [H2 [H3 [H4 H5]]]]]]]; [lia|].
    split; [exact H5|]. exists neg, ip, fr.
    replace (u <? -8) with (0 <? - (u + 8)).
    + repeat split; assumption.
    + destruct (Z.ltb_spec 0 (- (u + 8))), (Z.ltb_spec u (-8)); lia || reflexivity. }
  split.
  { unfold Format. cbn [append].
    now destruct (strconv.FormatFloat_f (ToUnit a u) (Int64.neg (Int64.add u 8))). }
  split; [apply Format_panics_iff|]. split; [exact Fixed|].
  split; [|split; [|split; [apply Format_by_zero|reflexivity]]].
  - intros Hu Ha. pose proof (ToUnit_finite a u Ha Hu) as Hf.
    split; [exact Hf|].
    destruct (Fixed ltac:(unfold Int64.min_int; lia) Hf) as [s [E [D _]]].
    now exists s.
  - intros Hu. unfold Format.
    assert (M : strconv.maxAlloc = 2 ^ 48) by reflexivity.
    destruct (Z.eq_dec u (Int64.max_int - 7)) as [->|Hne].
    + rewrite precision_least, FormatFloat_f_returns
        by (unfold Int64.min_int; rewrite M; lia).
      reflexivity.
    + rewrite precision_plain by (unfold Int64.min_int, Int64.max_int in *; lia).
      rewrite FormatFloat_f_returns by (unfold Int64.min_int, Int64.max_int in *; lia).
      rewrite genericFtoa_f_shortest by lia. reflexivity.
Qed.

Lemma Format_precision_witness :
  (exists s : string,
     Format 123 (-10) = Some s /\ fraction_digits s = - (-10 + 8))
  /\ Format 123 (-10) = Some "12300.00 1e-10 OMC"%string
  /\ Format 44433322211100 AmountKiloOMC = Some "444.333222111 kOMC"%string
  /\ Format 5 Int64.max_int = None.
Proof.
  destruct (Format_precision 123 (-10)) as [_ [_ [_ [H _]]]].
  destruct (Format_precision 44433322211100 AmountKiloOMC) as [_ [_ [_ [_ [H' _]]]]].
  destruct (Format_precision 5 Int64.max_int) as [_ [P _]].
  split; [apply H; [lia|reflexivity]|].
  split; [reflexivity|].
  split; [rewrite H' by (unfold AmountKiloOMC, Int64.max_int; lia); reflexivity|].
  apply P; [reflexivity|]. right. lia.
Defined.

(** C5 as stated fails: for the unit [AmountOMC] the count [-(u+8)] is
    -8, and the number written for 12345678 Hao has 8 digits after the
    point, and the one written for 100000000 Hao none. *)
Lemma Format_fraction_digits_counterexample :
  ~ (forall (a : Amount) (u : AmountUnit),
       Int64.in_range a = true -> Int64.in_range u = true ->
       exists s : string, Format a u = Some s /\ fraction_digits s = - (u + 8)).
Proof.
  intros H. destruct (H 12345678 AmountOMC eq_refl eq_refl) as [s [E F]].
  vm_compute in E. injection E as <-. vm_compute in F. discriminate F.
Qed.

Example Format_OMC_8_digits :
  Format 12345678 AmountOMC = Some "0.12345678 OMC"%string.
Proof. reflexivity. Qed.

Example Format_not_finite : Format 1 (-400) = Some "+Inf 1e-400 OMC"%string.
Proof. reflexivity. Qed.

Example Format_panics :
  Format 1 Int64.max_int = None /\ Format 1 Int64.min_int = None.
Proof. split; reflexivity. Qed.

Example Format_wrapped :
  Format 0 (Int64.max_int - 7) = Some "NaN 1e9223372036854775800 OMC"%string
  /\ Format 1 (Int64.max_int - 3) = Some "+Inf 1e9223372036854775804 OMC"%string.
Proof. split; reflexivity. Qed.

(** ** The numerals of [Format]

    At precision 0 a float that is an integer is written with the digits
    of the integer. *)

Import strconv.

Lemma uint_digits_revapp (x y : Decimal.uint) :
  uint_digits (Decimal.revapp x y) = List.rev (uint_digits x) ++ uint_digits y.
Proof.
  revert y. induction x; intros y; cbn [Decimal.revapp uint_digits List.rev];
    try reflexivity; rewrite IHx; cbn [uint_digits]; now rewrite <- app_assoc.
Qed.

Lemma uint_digits_tenfold (p : positive) :
  uint_digits (Pos.to_uint (10 * p)) = uint_digits (Pos.to_uint p) ++ [0].
Proof.
  unfold Pos.to_uint, Decimal.rev.
  pose proof (Unsigned.to_ldec_tenfold p) as H. cbn [Unsigned.to_lu N.mul] in H.
  rewrite H. cbn [Decimal.revapp]. rewrite !uint_digits_revapp. cbn [uint_digits].
  now rewrite app_nil_r.
Qed.

Lemma uint_digits_pow10 (p : positive) (k : nat) :
  uint_digits (Pos.to_uint (p * Pos.pow 10 (Pos.of_succ_nat k)))
  = uint_digits (Pos.to_uint p) ++ repeat 0 (S k).
Proof.
  induction k as [|k IH].
  - change (Pos.of_succ_nat 0) with 1%positive. rewrite Pos.pow_1_r.
    rewrite Pos.mul_comm. apply uint_digits_tenfold.
  - rewrite SuccNat2Pos.inj_succ, Pos.pow_succ_r.
    replace (p * (10 * 10 ^ Pos.of_succ_nat k))%positive
      with (10 * (p * 10 ^ Pos.of_succ_nat k))%positive by lia.
    rewrite uint_digits_tenfold, IH, <- app_assoc. f_equal.
    change [0] with (repeat 0 1). rewrite <- repeat_app. f_equal. lia.
Qed.

Lemma drop_zeros_repeat (k : nat) (r : list Z) : drop_zeros (repeat 0 k ++ r) = drop_zeros r.
Proof. induction k as [|k IH]; cbn; [reflexivity|exact IH]. Qed.

Lemma drop_zeros_split (r : list Z) :
  r = repeat 0 (List.length r - List.length (drop_zeros r)) ++ drop_zeros r.
Proof.
  induction r as [|c r IH]; [reflexivity|].
  destruct (Z.eq_dec c 0) as [->|Hc].
  - cbn [drop_zeros].
    assert (L : (List.length (drop_zeros r) <= List.length r)%nat).
    { rewrite IH at 2. rewrite length_app. lia. }
    replace (List.length (0%Z :: r) - List.length (drop_zeros r))%nat
      with (S (List.length r - List.length (drop_zeros r))) by (cbn [List.length]; lia).
    cbn [repeat app]. now rewrite <- IH.
  - assert (E : drop_zeros (c :: r) = c :: r) by (destruct c; try reflexivity; lia).
    rewrite E, Nat.sub_diag. reflexivity.
Qed.

Lemma rev_repeat_zero (k : nat) : List.rev (repeat 0 k) = repeat 0 k.
Proof.
  induction k as [|k IH]; [reflexivity|].
  cbn [repeat List.rev]. rewrite IH. symmetry. apply repeat_cons.
Qed.

(** Trailing zeros dropped and put back. *)
Lemma trim_restore (l : list Z) :
  let t := List.rev (drop_zeros (List.rev l)) in
  t ++ repeat 0 (List.length l - List.length t) = l.
Proof.
  cbv zeta. rewrite length_rev.
  pose proof (drop_zeros_split (List.rev l)) as H. rewrite length_rev in H.
  apply (f_equal (@List.rev Z)) in H. rewrite rev_involutive, rev_app_distr, rev_repeat_zero in H.
  now symmetry.
Qed.

Lemma all_zero_of_uint (u : Decimal.uint) : all_zero u = true -> Pos.of_uint u = 0%N.
Proof. induction u; cbn; try discriminate; auto. Qed.

Lemma drop_zeros_uint_nil (u : Decimal.uint) :
  drop_zeros (uint_digits u) = [] -> all_zero u = true.
Proof. induction u; cbn; try discriminate; auto. Qed.

Lemma uint_digits_rev (u : Decimal.uint) :
  uint_digits (Decimal.rev u) = List.rev (uint_digits u).
Proof. unfold Decimal.rev. rewrite uint_digits_revapp. cbn. now rewrite app_nil_r. Qed.

Lemma of_lu_all_zero (u : Decimal.uint) : all_zero u = true -> Unsigned.of_lu u = 0%N.
Proof.
  induction u; cbn [all_zero]; try discriminate; intros H.
  - reflexivity.
  - rewrite Unsigned.of_lu_eqn. cbn [Unsigned.hd Unsigned.tl]. rewrite (IHu H). reflexivity.
Qed.

(** The digits of a positive number are not all zeros. *)
Lemma trimmed_digits_nonempty (p : positive) :
  List.rev (drop_zeros (List.rev (uint_digits (Pos.to_uint p)))) <> [].
Proof.
  intros H. apply (f_equal (@List.rev Z)) in H. rewrite rev_involutive in H. cbn in H.
  unfold Pos.to_uint in H. rewrite uint_digits_rev, rev_involutive in H.
  apply drop_zeros_uint_nil, of_lu_all_zero in H.
  pose proof (Unsigned.of_to p) as E. unfold Pos.to_uint in E.
  rewrite Unsigned.of_lu_rev, H in E. discriminate E.
Qed.

Lemma Assign_pos (p : positive) :
  let l := uint_digits (Pos.to_uint p) in
  Assign (Z.pos p)
  = mkdecimal (List.rev (drop_zeros (List.rev l))) (Z.of_nat (List.length l)).
Proof.
  cbv zeta. unfold Assign, trim. cbn [d dp].
  pose proof (trimmed_digits_nonempty p) as N.
  destruct (List.rev (drop_zeros (List.rev (uint_digits (Pos.to_uint p))))); [contradiction|].
  reflexivity.
Qed.

(** A float that is the positive integer [a] has the decimal digits of
    [a]. *)
Lemma AssignShift_integer (m a : positive) (e : Z) :
  (inject_Z (Z.pos m) * pow2 e == inject_Z (Z.pos a))%Q ->
  AssignShift (Z.pos m) e = Assign (Z.pos a).
Proof.
  intros H. unfold AssignShift.
  destruct (Z.leb_spec 0 e) as [He|He].
  - rewrite pow2_nonneg_Z, <- inject_Z_mult in H by assumption.
    apply (proj1 (inject_Z_injective _ _)) in H. now rewrite H.
  - assert (Hm : Z.pos m = Z.pos a * 2 ^ (- e)).
    { apply inject_Z_injective. rewrite inject_Z_mult, <- pow2_nonneg_Z by lia.
      rewrite <- H, <- Qmult_assoc, <- pow2_add.
      replace (e + - e) with 0 by lia. change (pow2 0) with 1%Q. ring. }
    assert (Hk : exists k : nat, - e = Z.pos (Pos.of_succ_nat k)).
    { exists (Z.to_nat (- e) - 1)%nat. rewrite Zpos_P_of_succ_nat. lia. }
    destruct Hk as [k Hk].
    assert (Hp : Z.pos m * 5 ^ (- e) = Z.pos (a * Pos.pow 10 (Pos.of_succ_nat k))).
    { rewrite Hm, Hk, Pos2Z.inj_mul, Pos2Z.inj_pow.
      change (Z.pos 10) with (2 * 5). rewrite Z.pow_mul_l. ring. }
    rewrite Hp, !Assign_pos. cbv zeta. rewrite uint_digits_pow10.
    rewrite rev_app_distr, rev_repeat_zero, drop_zeros_repeat. cbn [d dp].
    pose proof (trimmed_digits_nonempty a) as N.
    destruct (List.rev (drop_zeros (List.rev (uint_digits (Pos.to_uint a))))) eqn:E;
      [contradiction|].
    f_equal. rewrite length_app, repeat_length, Nat2Z.inj_add.
    rewrite Zpos_P_of_succ_nat in Hk. lia.
Qed.

Lemma digits_string_uint (u : Decimal.uint) :
  digits_string (uint_digits u) = NilEmpty.string_of_uint u.
Proof.
  unfold digits_string.
  induction u; cbn [uint_digits map string_of_list_ascii NilEmpty.string_of_uint];
    try reflexivity; now rewrite IHu.
Qed.

Lemma FormatInt_pos (p : positive) :
  FormatInt (Z.pos p) = digits_string (uint_digits (Pos.to_uint p)).
Proof.
  unfold FormatInt. cbn [Z.to_int NilZero.string_of_int]. rewrite digits_string_uint.
  pose proof (Unsigned.to_uint_nonnil p) as N.
  unfold NilZero.string_of_uint. destruct (Pos.to_uint p); [contradiction|..]; reflexivity.
Qed.

Lemma FormatInt_neg (p : positive) :
  FormatInt (Z.neg p) = String "-" (FormatInt (Z.pos p)).
Proof. reflexivity. Qed.

(** At precision 0 a float that is a positive integer is written as
    that integer. *)
Lemma genericFtoa_f_integer (s : bool) (m a : positive) (e : Z) :
  (inject_Z (Z.pos m) * pow2 e == inject_Z (Z.pos a))%Q ->
  genericFtoa_f (S754_finite s m e) 0
  = append (if s then "-" else "")%string (FormatInt (Z.pos a)).
Proof.
  intros H. rewrite genericFtoa_f_fixed by lia. unfold fixed_decimal.
  rewrite (AssignShift_integer m a e H), Assign_pos. cbv zeta.
  set (l := uint_digits (Pos.to_uint a)).
  set (t := List.rev (drop_zeros (List.rev l))).
  pose proof (trim_restore l) as R. cbv zeta in R. fold t in R.
  pose proof (trimmed_digits_nonempty a) as N. fold l in N. fold t in N.
  assert (Len : (List.length t <= List.length l)%nat).
  { pose proof (f_equal (@List.length Z) R) as R'. rewrite length_app in R'. lia. }
  assert (L0 : (0 < List.length t)%nat) by (destruct t; [contradiction|cbn; lia]).
  unfold Round. cbn [dp d nd].
  replace ((Z.of_nat (List.length l) + 0 <? 0)
           || (nd (mkdecimal t (Z.of_nat (List.length l))) <=? Z.of_nat (List.length l) + 0))
    with true.
  2:{ symmetry. apply orb_true_iff. right. apply Z.leb_le. unfold nd. cbn [d]. lia. }
  unfold fmtF. cbn [dp d]. unfold nd. cbn [d].
  replace (0 <? Z.of_nat (List.length l)) with true by (symmetry; apply Z.ltb_lt; lia).
  change (0 <? 0) with false. cbv iota.
  rewrite Z.min_l by lia. rewrite Nat2Z.id, firstn_all.
  unfold zeros. rewrite <- Nat2Z.inj_sub by lia. rewrite Nat2Z.id, R.
  rewrite FormatInt_pos. fold l. now rewrite append_nil_r.
Qed.

Lemma ToUnit_Hao_pos (a : positive) :
  Z.pos a < 2 ^ 53 ->
  exists (m : positive) (e : Z),
    ToUnit (Z.pos a) AmountHao = S754_finite false m e
    /\ (inject_Z (Z.pos m) * pow2 e == inject_Z (Z.pos a))%Q.
Proof.
  intros Ha.
  destruct (ToUnit_exact_pos (Z.pos a) AmountHao (Z.pos a)) as [F V];
    [unfold AmountHao; lia|lia|unfold AmountHao; cbn; lia|].
  assert (P : (0 < to_Q (ToUnit (Z.pos a) AmountHao))%Q) by (rewrite V; reflexivity).
  destruct (finite_positive_form _ F P) as [m [e E]].
  exists m, e. split; [exact E|]. rewrite E in V. exact V.
Qed.

(** X19.  In the unit [AmountHao] an amount below [2^53] in magnitude
    is written as the integer it is, followed by the label: [Format]
    gives [FormatInt(a)], a space and "Hao". *)
Theorem Format_Hao (a : Amount) :
  - 2 ^ 53 < a < 2 ^ 53 ->
  Format a AmountHao = Some (append (FormatInt a) " Hao").
Proof.
  intros Ha. unfold Format.
  change (Int64.neg (Int64.add AmountHao 8)) with 0.
  change (append " " (AmountUnit_String AmountHao)) with " Hao"%string.
  rewrite FormatFloat_f_returns by (unfold Int64.min_int, maxAlloc; lia).
  f_equal. f_equal. destruct a as [|p|p].
  - reflexivity.
  - destruct (ToUnit_Hao_pos p ltac:(lia)) as [m [e [E V]]].
    rewrite E. now rewrite (genericFtoa_f_integer false m p e V).
  - destruct (ToUnit_Hao_pos p ltac:(lia)) as [m [e [E V]]].
    destruct (of_int_exact (Z.pos p) ltac:(lia)) as [_ [ma [ea EA]]].
    change (Z.neg p) with (- Z.pos p).
    rewrite ToUnit_opp by (try (unfold AmountHao; lia); rewrite EA; reflexivity).
    rewrite E. cbn [SFopp negb].
    now rewrite (genericFtoa_f_integer true m p e V).
Qed.

Lemma Format_Hao_witness :
  Format (-2100000000000000) AmountHao = Some "-2100000000000000 Hao"%string.
Proof. apply (Format_Hao (-2100000000000000)). lia. Defined.

Example Format_Hao_rounded :
  Format (2 ^ 53 + 1) AmountHao = Some "9007199254740992 Hao"%string.
Proof. reflexivity. Qed.

(** ** The sign of a formatted amount *)

Lemma genericFtoa_f_opp (x : float64) (prec : Z) :
  x = S754_zero false \/ (exists (m : positive) (e : Z), x = S754_finite false m e) ->
  genericFtoa_f (SFopp x) prec = String "-" (genericFtoa_f x prec).
Proof.
  intros [->|[m [e ->]]]; unfold genericFtoa_f; cbn [SFopp negb];
    destruct (prec <? 0); reflexivity.
Qed.

(** The quotient of a positive amount, when finite, is [+0] or a
    positive float. *)
Lemma ToUnit_pos_sign (a : Amount) (u : AmountUnit) :
  0 < a < 2 ^ 64 -> is_finite (ToUnit a u) = true ->
  ToUnit a u = S754_zero false
  \/ (exists (m : positive) (e : Z), ToUnit a u = S754_finite false m e).
Proof.
  intros Ha. unfold ToUnit.
  destruct (of_int_pos_form a Ha) as [ma [ea [-> _]]].
  set (n := Int64.add u 8).
  destruct (Z.lt_ge_cases n (-323)) as [Lo|NLo].
  - rewrite Pow10_below by assumption. discriminate.
  - destruct (Z.le_gt_cases n 308) as [Hi|Hi].
    + destruct (Pow10_range n ltac:(lia)) as [mk [ek ->]].
      unfold Float64.div, SFdiv. rewrite SFdiv_core_binary_loc.
      pose proof (div_numerator_pos ma mk ea ek) as [Hn _].
      destruct (binary_round_aux_cases (xorb false false)
                  (div_numerator ma mk ea ek / Z.pos mk) (div_exponent ma mk ea ek)
                  (div_numerator ma mk ea ek mod Z.pos mk) (Z.pos mk))
        as [m2 [_ [_ [[_ ->]|[m3 [e3 [_ [_ ->]]]]]]]].
      * apply Z.div_pos; lia.
      * apply Z.mod_pos_bound. lia.
      * now left.
      * destruct (e3 <=? 971); [|discriminate]. intros _. right. now exists m3, e3.
    + rewrite Pow10_above by assumption. now left.
Qed.

(** X20.  A negative amount is written as a minus sign and the text of
    the opposite amount, in every unit where the quotient is finite (and
    there [Format] returns); so it is by [String], whose quotient always
    is. *)
Theorem Format_neg (a : Amount) (u : AmountUnit) :
  0 < a <= Int64.max_int ->
  (is_finite (ToUnit a u) = true ->
   exists s : string,
     Format a u = Some s /\ Format (Int64.neg a) u = Some (String "-" s))
  /\ exists s : string,
       Amount_String a = Some s /\ Amount_String (Int64.neg a) = Some (String "-" s).
Proof.
  intros Ha.
  assert (G : forall w, is_finite (ToUnit a w) = true ->
                exists s : string,
                  Format a w = Some s /\ Format (Int64.neg a) w = Some (String "-" s)).
  { intros w Hf.
    assert (O : ToUnit (Int64.neg a) w = SFopp (ToUnit a w)).
    { apply ToUnit_neg_all; unfold Int64.min_int, Int64.max_int in *; lia. }
    rewrite (Format_finite a w Hf).
    rewrite (Format_finite (Int64.neg a) w) by (rewrite O; now rewrite is_finite_opp).
    eexists. split; [reflexivity|]. rewrite O.
    rewrite genericFtoa_f_opp; [reflexivity|].
    apply ToUnit_pos_sign; [unfold Int64.max_int in Ha; lia|exact Hf]. }
  split; [apply G|]. unfold Amount_String. apply G.
  apply ToUnit_finite_wide; [|vm_compute; discriminate].
  unfold Int64.in_range, Int64.min_int, Int64.max_int in *.
  apply andb_true_iff. split; apply Z.leb_le; lia.
Qed.

Lemma Format_neg_witness :
  (exists s : string,
     Format 44433322211100 AmountKiloOMC = Some s
     /\ Format (Int64.neg 44433322211100) AmountKiloOMC = Some (String "-" s))
  /\ Amount_String (Int64.neg 44433322211100) = Some "-444333.222111 OMC"%string.
Proof.
  destruct (Format_neg 44433322211100 AmountKiloOMC) as [H1 H2].
  - unfold Int64.max_int. lia.
  - split; [apply H1; reflexivity|]. reflexivity.
Defined.

Example Format_neg_infinite :
  Format 1 (-400) = Some "+Inf 1e-400 OMC"%string
  /\ Format (-1) (-400) = Some "-Inf 1e-400 OMC"%string.
Proof. split; reflexivity. Qed.

(** ** The number and the label of a formatted amount *)

Lemma roundShortest_loop_ok (fuel : nat) (a lower upper : decimal) (inclusive : bool)
    (upperdelta ui : Z) :
  digits_ok (d a) ->
  digits_ok (d (roundShortest_loop fuel a lower upper inclusive upperdelta ui)).
Proof.
  intros Ha. revert upperdelta ui.
  induction fuel as [|fuel IH]; intros upperdelta ui; cbn [roundShortest_loop];
    [exact Ha|].
  cbv zeta.
  destruct (nd a <=? ui - dp upper + dp a); [exact Ha|].
  repeat match goal with
         | |- digits_ok (d (if ?c then _ else _)) => destruct c
         end;
    first [apply Round_ok | apply RoundDown_ok | apply RoundUp_ok | apply IH]; exact Ha.
Qed.

Lemma roundShortest_ok (a : decimal) (mant exp : Z) :
  digits_ok (d a) -> digits_ok (d (roundShortest a mant exp)).
Proof.
  intros Ha. unfold roundShortest.
  destruct (mant =? 0); [constructor|].
  cbv zeta.
  destruct ((bias + 1 <? exp) && (100 * (exp - mantbits) <=? 332 * (dp a - nd a)));
    [exact Ha|].
  destruct ((2 ^ mantbits <? mant) || (exp =? bias + 1));
    now apply roundShortest_loop_ok.
Qed.

(** What [fmtF] writes holds no space. *)
Lemma fmtF_number_part (neg : bool) (a : decimal) (prec : Z) (units : string) :
  digits_ok (d a) ->
  number_part (append (fmtF neg a prec) (String " " units)) = fmtF neg a prec.
Proof.
  intros Ha. rewrite fmtF_layout.
  pose proof (integer_part_digits a Ha) as Hi.
  pose proof (fraction_part_digits a prec Ha) as Hf.
  set (S := if neg then "-"%string else EmptyString).
  assert (Hs : all_plain (append S (integer_part a)) = true).
  { rewrite all_plain_app. unfold S. rewrite sign_plain. now apply all_digits_plain. }
  destruct (0 <? prec).
  - rewrite <- (append_assoc S).
    now rewrite number_part_point by (try assumption; now apply all_digits_plain).
  - rewrite append_nil_r.
    now rewrite number_part_plain, number_part_id by assumption.
Qed.

Lemma genericFtoa_f_number_part (x : float64) (prec : Z) (units : string) :
  number_part (append (genericFtoa_f x prec) (String " " units)) = genericFtoa_f x prec.
Proof.
  destruct x as [s|[]| |s m e]; try reflexivity.
  - unfold genericFtoa_f. apply fmtF_number_part. constructor.
  - unfold genericFtoa_f. cbv zeta. destruct (prec <? 0).
    + apply fmtF_number_part, roundShortest_ok, AssignShift_ok.
    + apply fmtF_number_part, Round_ok, AssignShift_ok.
Qed.

Lemma append_inj_l (a b c : string) : append a b = append a c -> b = c.
Proof. induction a as [|x a IH]; cbn; intros H; [exact H|]. injection H as H. now apply IH. Qed.



(** X21.  The number [Format] writes holds no space: when [Format]
    returns a text, the number [FormatFloat] wrote is what precedes the
    first space, and the label is what follows.  So two amounts written
    in different units are never written alike. *)
Theorem Format_split (a b : Amount) (u v : AmountUnit) (s t : string) :
  Format a u = Some s ->
  FormatFloat_f (ToUnit a u) (Int64.neg (Int64.add u 8)) = Some (number_part s)
  /\ s = append (number_part s) (String " " (AmountUnit_String u))
  /\ (Format b v = Some t -> u <> v -> s <> t).
Proof.
  assert (N : forall c w r, Format c w = Some r ->
                FormatFloat_f (ToUnit c w) (Int64.neg (Int64.add w 8)) = Some (number_part r)
                /\ r = append (number_part r) (String " " (AmountUnit_String w))).
  { intros c w r. unfold Format, FormatFloat_f. cbn [append].
    destruct (makeslice_ok _); [|discriminate].
    intros E. injection E as <-. rewrite genericFtoa_f_number_part. now split. }
  intros Hs. destruct (N a u s Hs) as [N1 N2].
  split; [exact N1|]. split; [exact N2|].
  intros Ht Huv Est. destruct (N b v t Ht) as [_ N3].
  apply Huv. subst t. rewrite N2 in N3 at 1.
  apply append_inj_l in N3. injection N3 as N3. now apply AmountUnit_String_inj.
Qed.

Lemma Format_split_witness :
  FormatFloat_f (ToUnit 1000 AmountHao) (Int64.neg (Int64.add AmountHao 8))
  = Some "1000"%string
  /\ "1000 Hao"%string <> "1000 OMC"%string.
Proof.
  destruct (Format_split 1000 100000000000 AmountHao AmountOMC
              "1000 Hao" "1000 OMC" eq_refl) as [N [_ H]].
  split; [exact N|]. apply H; [reflexivity|discriminate].
Defined.


